(** * SideBySideTranslator: the translation-overlay pipeline

    A shallow embedding of the extension's background worker
    ([extension/background.js], and its remote-API variant) and of its
    content script (queue, discovery, overlay), with the properties the
    specification states about them.

    Conventions of the embedding.
    - A JavaScript string is a [string]; its characters are read as the
      code units U+0000..U+00FF.
    - A finite JavaScript number is an exact rational [Qc]; a value that is
      [NaN] or infinite is [None] wherever the code can meet one.
    - [undefined] is [None].
    - A [for] loop with [continue] is a fold whose step leaves the
      accumulator unchanged on [continue]. *)

From Stdlib Require Import List String Ascii Bool Arith ZArith Lia.
From Stdlib Require Import QArith Qcanon DecimalString.
Import ListNotations.

Local Open Scope string_scope.

(* ================================================================== *)
(** * JavaScript built-ins used by the sources *)
(* ================================================================== *)

Module JS.

Definition TAB : ascii := ascii_of_nat 9.
Definition LF : ascii := ascii_of_nat 10.
Definition CR : ascii := ascii_of_nat 13.

(** WhiteSpace and LineTerminator code units below U+0100, the ones
    [String.prototype.trim] strips. *)
Definition isWhiteSpace (c : ascii) : bool :=
  let n := nat_of_ascii c in
  existsb (Nat.eqb n) [9; 10; 11; 12; 13; 32; 160]%nat.

Fixpoint trimStart (s : string) : string :=
  match s with
  | EmptyString => EmptyString
  | String c s' => if isWhiteSpace c then trimStart s' else s
  end.

Fixpoint trimEnd (s : string) : string :=
  match s with
  | EmptyString => EmptyString
  | String c s' =>
      match trimEnd s' with
      | EmptyString => if isWhiteSpace c then EmptyString else String c EmptyString
      | t => String c t
      end
  end.

(** [s.trim()] *)
Definition trim (s : string) : string := trimStart (trimEnd s).

(** Truthiness of a string: [Boolean(s)], [!s] is its negation. *)
Definition truthy (s : string) : bool :=
  match s with EmptyString => false | _ => true end.

(** [parts.join(sep)] *)
Fixpoint join (sep : string) (parts : list string) : string :=
  match parts with
  | [] => ""
  | p :: ps =>
      match ps with
      | [] => p
      | _ :: _ => p ++ sep ++ join sep ps
      end
  end.

(** [s.split(c)] for a one-character separator. *)
Fixpoint split (sep : ascii) (s : string) : list string :=
  match s with
  | EmptyString => [""]
  | String c s' =>
      if Ascii.eqb c sep then "" :: split sep s'
      else match split sep s' with
           | h :: t => String c h :: t
           | [] => [String c ""]
           end
  end.

(** [s.split(/\r?\n/)]: a line ends at a line feed, which takes a
    carriage return standing right before it along. *)
Fixpoint splitLines (s : string) : list string :=
  let keep c rest :=
    match rest with
    | h :: t => String c h :: t
    | [] => [String c ""]
    end in
  match s with
  | EmptyString => [""]
  | String c s' =>
      if Ascii.eqb c LF then "" :: splitLines s'
      else if Ascii.eqb c CR then
        match s' with
        | String c2 s'' =>
            if Ascii.eqb c2 LF then "" :: splitLines s''
            else keep c (splitLines s')
        | EmptyString => keep c (splitLines s')
        end
      else keep c (splitLines s')
  end.

(** [a.indexOf(x)]: the first index holding [x], [-1] when there is none. *)
Fixpoint indexOf (a : list string) (x : string) : Z :=
  match a with
  | [] => (-1)%Z
  | y :: a' =>
      if String.eqb y x then 0%Z
      else let i := indexOf a' x in
           if (i =? -1)%Z then (-1)%Z else (i + 1)%Z
  end.

(** [a[i]]: [undefined] outside the array. *)
Definition at_ {A : Type} (a : list A) (i : Z) : option A :=
  if (i <? 0)%Z then None else nth_error a (Z.to_nat i).

(** A value interpolated in a template literal. *)
Definition interpolate (v : option string) : string :=
  match v with Some s => s | None => "undefined" end.

(** Comparisons of finite numbers. *)
Definition ltb (a b : Qc) : bool :=
  match (a ?= b)%Qc with Lt => true | _ => false end.
Definition leb (a b : Qc) : bool :=
  match (a ?= b)%Qc with Gt => false | _ => true end.
Definition eqb (a b : Qc) : bool :=
  match (a ?= b)%Qc with Eq => true | _ => false end.

(** [Math.min], [Math.max] on finite numbers. *)
Definition min (a b : Qc) : Qc := if ltb b a then b else a.
Definition max (a b : Qc) : Qc := if ltb a b then b else a.

Definition ofZ (z : Z) : Qc := Q2Qc (inject_Z z).
Definition ofNat (n : nat) : Qc := ofZ (Z.of_nat n).

(** [Array.prototype.sort(cmp)] for a consistent comparator: the stable
    ordering, an element moving behind those the comparator puts
    strictly before it. *)
Section Sort.
Context {A : Type} (cmp : A -> A -> Qc).

Fixpoint insert (x : A) (l : list A) : list A :=
  match l with
  | [] => [x]
  | y :: l' => if ltb (ofZ 0) (cmp x y) then y :: insert x l' else x :: l
  end.

Definition sort (l : list A) : list A := fold_right insert [] l.
End Sort.

End JS.

(** A reading of [Number(s)] on plain decimal numerals (sign, digits,
    fraction), the form the recognizer prints; used to run the parser on
    concrete tables.  Anything else reads as [NaN]. *)
Module Numeral.

Definition digitOf (c : ascii) : option Z :=
  let n := nat_of_ascii c in
  if (48 <=? n)%nat && (n <=? 57)%nat then Some (Z.of_nat (n - 48)) else None.

(** Leading digits of [s]: their value on top of [acc], how many there
    were, and the rest of the string. *)
Fixpoint digits (acc : Z) (count : nat) (s : string) : Z * nat * string :=
  match s with
  | EmptyString => (acc, count, s)
  | String c s' =>
      match digitOf c with
      | Some d => digits (10 * acc + d)%Z (S count) s'
      | None => (acc, count, s)
      end
  end.

Definition unsigned (s : string) : option Qc :=
  let '(n1, k1, rest) := digits 0 0 s in
  match rest with
  | EmptyString => if (k1 =? 0)%nat then None else Some (JS.ofZ n1)
  | String c rest' =>
      if Ascii.eqb c "."%char then
        let '(n2, k2, rest2) := digits n1 0 rest' in
        match rest2 with
        | EmptyString =>
            if (k1 + k2 =? 0)%nat then None
            else Some (JS.ofZ n2 / JS.ofZ (10 ^ Z.of_nat k2))%Qc
        | _ => None
        end
      else None
  end.

Definition Number (s : string) : option Qc :=
  match JS.trim s with
  | EmptyString => Some (JS.ofZ 0)
  | String c s' =>
      if Ascii.eqb c "-"%char then option_map Qcopp (unsigned s')
      else if Ascii.eqb c "+"%char then unsigned s'
      else unsigned (String c s')
  end.

End Numeral.

(* ================================================================== *)
(** * The background worker: [extension/background.js] *)
(* ================================================================== *)

Module Background.

(** ** Normalizer: [parseTsvToLineBlocks] *)

Record BBox := { x0 : Qc; y0 : Qc; x1 : Qc; y1 : Qc }.

(** What the normalizer returns: [{ text, confidence, bbox }]. *)
Record LineBlock := { text : string; confidence : Qc; bbox : BBox }.

(** A value of the [groups] map: [{ parts, confs, bbox }]. *)
Record Group := { parts : list string; confs : list Qc; gbox : BBox }.

(** The header positions [idx(name)] of the twelve named columns. *)
Record Columns := {
  levelIdx : Z; pageIdx : Z; blockIdx : Z; parIdx : Z; lineIdx : Z;
  wordIdx : Z; leftIdx : Z; topIdx : Z; widthIdx : Z; heightIdx : Z;
  confIdx : Z; textIdx : Z }.

Definition requiredColumns : list string :=
  ["level"; "page_num"; "block_num"; "par_num"; "line_num"; "word_num";
   "left"; "top"; "width"; "height"; "conf"; "text"].

Definition locate (header : list string) : Columns :=
  let idx name := JS.indexOf header name in
  {| levelIdx := idx "level"; pageIdx := idx "page_num";
     blockIdx := idx "block_num"; parIdx := idx "par_num";
     lineIdx := idx "line_num"; wordIdx := idx "word_num";
     leftIdx := idx "left"; topIdx := idx "top";
     widthIdx := idx "width"; heightIdx := idx "height";
     confIdx := idx "conf"; textIdx := idx "text" |}.

(** [[levelIdx, ..., textIdx].some((v) => v === -1)] *)
Definition someMissing (c : Columns) : bool :=
  existsb (fun v => (v =? -1)%Z)
    [levelIdx c; pageIdx c; blockIdx c; parIdx c; lineIdx c; wordIdx c;
     leftIdx c; topIdx c; widthIdx c; heightIdx c; confIdx c; textIdx c].

(** What one table row adds to its line: the key of the line, the
    trimmed fragment, its confidence and its box. *)
Record Word := {
  wpage : option string; wblock : option string;
  wpar : option string; wline : option string;
  wtext : string; wconf : Qc; wbox : BBox }.

(** [`${cols[pageIdx]}-${cols[blockIdx]}-${cols[parIdx]}-${cols[lineIdx]}`] *)
Definition wkey (w : Word) : string :=
  JS.interpolate (wpage w) ++ "-" ++ JS.interpolate (wblock w) ++ "-"
  ++ JS.interpolate (wpar w) ++ "-" ++ JS.interpolate (wline w).

(** The map [groups], in insertion order (the order [groups.values()]
    yields). *)
Definition Groups := list (string * Group).

Fixpoint groups_get (groups : Groups) (key : string) : option Group :=
  match groups with
  | [] => None
  | (k, v) :: rest => if String.eqb k key then Some v else groups_get rest key
  end.

(** [groups.set(key, v)] for a key the map does not hold. *)
Definition groups_set (groups : Groups) (key : string) (v : Group) : Groups :=
  (groups ++ [(key, v)])%list.

(** Mutation of the object stored under [key], which keeps its place. *)
Fixpoint groups_mutate (groups : Groups) (key : string) (f : Group -> Group)
  : Groups :=
  match groups with
  | [] => []
  | (k, v) :: rest =>
      if String.eqb k key then (k, f v) :: rest
      else (k, v) :: groups_mutate rest key f
  end.

(** The tail of the loop body, from [groups.get(key)] on. *)
Definition addWord (groups : Groups) (w : Word) : Groups :=
  match groups_get groups (wkey w) with
  | None =>
      groups_set groups (wkey w)
        {| parts := [wtext w]; confs := [wconf w]; gbox := wbox w |}
  | Some _ =>
      groups_mutate groups (wkey w) (fun existing =>
        {| parts := (parts existing ++ [wtext w])%list;
           confs := (confs existing ++ [wconf w])%list;
           gbox := {| x0 := JS.min (x0 (gbox existing)) (x0 (wbox w));
                      y0 := JS.min (y0 (gbox existing)) (y0 (wbox w));
                      x1 := JS.max (x1 (gbox existing)) (x1 (wbox w));
                      y1 := JS.max (y1 (gbox existing)) (y1 (wbox w)) |} |})
  end.

(** One group turned into a block; [None] is the [continue] on an empty
    text. *)
Definition blockOfGroup (joiner : string) (v : Group) : option LineBlock :=
  let text := JS.trim (JS.join joiner (parts v)) in
  if negb (JS.truthy text) then None
  else
    let n := List.length (confs v) in
    let confidence :=
      (fold_left Qcplus (confs v) (JS.ofZ 0)
       / JS.ofNat (if (n =? 0)%nat then 1%nat else n))%Qc in
    Some {| text := text; confidence := confidence; bbox := gbox v |}.

Fixpoint blocksOfGroups (joiner : string) (vs : list Group) : list LineBlock :=
  match vs with
  | [] => []
  | v :: vs' =>
      match blockOfGroup joiner v with
      | Some b => b :: blocksOfGroups joiner vs'
      | None => blocksOfGroups joiner vs'
      end
  end.

(** [(a, b) => a.bbox.y0 - b.bbox.y0 || a.bbox.x0 - b.bbox.x0] *)
Definition readingOrder (a b : LineBlock) : Qc :=
  let d := (y0 (bbox a) - y0 (bbox b))%Qc in
  if JS.eqb d (JS.ofZ 0) then (x0 (bbox a) - x0 (bbox b))%Qc else d.

Section Tsv.

(** [Number] applied to a cell; [None] is a result that is not finite. *)
Variable Number : string -> option Qc.

Definition toNumber (cell : option string) : option Qc :=
  match cell with Some s => Number s | None => None end.

(** The head of the loop body: every [continue] is [None]. *)
Definition readWord (c : Columns) (row : string) : option Word :=
  let cols := JS.split JS.TAB row in
  if (Z.of_nat (List.length cols) <=? textIdx c)%Z then None
  else
    match toNumber (JS.at_ cols (levelIdx c)),
          toNumber (JS.at_ cols (wordIdx c)) with
    | Some level, Some wordNum =>
        if negb (JS.eqb level (JS.ofZ 5)) || JS.leb wordNum (JS.ofZ 0)
        then None
        else
          match toNumber (JS.at_ cols (confIdx c)) with
          | Some conf =>
              if JS.ltb conf (JS.ofZ 0) then None
              else
                let text :=
                  JS.trim (match JS.at_ cols (textIdx c) with
                           | Some s => s
                           | None => ""
                           end) in
                if negb (JS.truthy text) then None
                else
                  match toNumber (JS.at_ cols (leftIdx c)),
                        toNumber (JS.at_ cols (topIdx c)),
                        toNumber (JS.at_ cols (widthIdx c)),
                        toNumber (JS.at_ cols (heightIdx c)) with
                  | Some left_, Some top, Some width, Some height =>
                      if JS.leb width (JS.ofZ 0) || JS.leb height (JS.ofZ 0)
                      then None
                      else
                        Some {| wpage := JS.at_ cols (pageIdx c);
                                wblock := JS.at_ cols (blockIdx c);
                                wpar := JS.at_ cols (parIdx c);
                                wline := JS.at_ cols (lineIdx c);
                                wtext := text; wconf := conf;
                                wbox := {| x0 := left_; y0 := top;
                                           x1 := (left_ + width)%Qc;
                                           y1 := (top + height)%Qc |} |}
                  | _, _, _, _ => None
                  end
          | None => None
          end
    | _, _ => None
    end.

(** One turn of the loop over [rows[1..]]. *)
Definition step (c : Columns) (groups : Groups) (row : string) : Groups :=
  match readWord c row with
  | Some w => addWord groups w
  | None => groups
  end.

(** The loop over the data rows and what follows it: the blocks of
    the groups, sorted. *)
Definition blocksFrom (c : Columns) (rows : list string) (joiner : string)
  : list LineBlock :=
  let groups := fold_left (step c) rows [] in
  JS.sort readingOrder (blocksOfGroups joiner (map snd groups)).

(** The non-empty lines of the table: [tsv.split(/\r?\n/).filter(Boolean)]. *)
Definition rowsOf (tsv : string) : list string :=
  filter JS.truthy (JS.splitLines tsv).

(** [rows[0].split("\t")] *)
Definition headerOf (tsv : string) : list string :=
  match rowsOf tsv with
  | row0 :: _ => JS.split JS.TAB row0
  | [] => []
  end.

(** [tsv] is [None] when the recognizer's [data.tsv] is not a string. *)
Definition parseTsvToLineBlocks (tsv : option string) (joiner : string)
  : list LineBlock :=
  match tsv with
  | None => []
  | Some tsv =>
      if negb (JS.truthy tsv) then []
      else
        let rows := rowsOf tsv in
        if (List.length rows <? 2)%nat then []
        else
          let c := locate (headerOf tsv) in
          if someMissing c then []
          else blocksFrom c (tl rows) joiner
  end.

End Tsv.

(** *** Concrete tables *)

Definition tsvOf (rows : list (list string)) : string :=
  JS.join (String JS.LF "") (map (JS.join (String JS.TAB "")) rows).

Definition box (a b c d : Z) : BBox :=
  {| x0 := JS.ofZ a; y0 := JS.ofZ b; x1 := JS.ofZ c; y1 := JS.ofZ d |}.

(** Line 1 of the specification's example: "Hello" at (0,0,10,10) with
    confidence 90, "World" at (10,0,20,10) with confidence 80. *)
Definition helloWorld : string :=
  tsvOf [ requiredColumns;
          ["5"; "1"; "1"; "1"; "1"; "1"; "0"; "0"; "10"; "10"; "90"; "Hello"];
          ["5"; "1"; "1"; "1"; "1"; "2"; "10"; "0"; "10"; "10"; "80"; "World"] ].

(** ** Asynchronous code: state, exceptions and a trace *)

Inductive Result (A : Type) : Type :=
| Ok (a : A)
| Throw (message : string).
Arguments Ok {A} a.
Arguments Throw {A} message.

Inductive Tier := ReferrerSpoofed | Direct | Relayed.

(** What a run leaves behind for an observer: the tiers it tried, the
    texts it handed to the translator (one by one, or as one list in
    the remote variant), and the summary line it logs
    ([Processed n text blocks. Skipped: lowConf=, noText=, noBbox=]). *)
Inductive Event :=
| Tried (t : Tier)
| Translated (text : string)
| TranslatedBatch (texts : list string)
| Summary (processed lowConf noText noBbox : nat).

(** A listener is a closure: its identity, and the [url] and [referrer]
    it captured. *)
Record Listener := { closure : nat; l_url : string; l_referrer : string }.

(** The part of the browser a run can change: the listeners installed
    on the two [webRequest] events, the supply of fresh closures, and
    the trace. *)
Record Browser := {
  onBeforeSendHeaders : list Listener;
  onHeadersReceived : list Listener;
  nextClosure : nat;
  trace : list Event }.

Definition Async (A : Type) : Type := Browser -> Browser * Result A.

Definition ret {A} (a : A) : Async A := fun b => (b, Ok a).
Definition throw {A} (message : string) : Async A := fun b => (b, Throw message).

Definition bind {A B} (m : Async A) (k : A -> Async B) : Async B :=
  fun b =>
    match m b with
    | (b', Ok a) => k a b'
    | (b', Throw e) => (b', Throw e)
    end.

(** [try { m } catch (e) { handler e }] *)
Definition tryCatch {A} (m : Async A) (handler : string -> Async A) : Async A :=
  fun b =>
    match m b with
    | (b', Ok a) => (b', Ok a)
    | (b', Throw e) => handler e b'
    end.

(** [try { m } finally { cleanup }]: the cleanup runs on both exits, and
    an exception of its own replaces the outcome of [m]. *)
Definition tryFinally {A} (m : Async A) (cleanup : Async unit) : Async A :=
  fun b =>
    match m b with
    | (b', r) =>
        match cleanup b' with
        | (b'', Ok _) => (b'', r)
        | (b'', Throw e) => (b'', Throw e)
        end
    end.

(** An awaited promise that has settled with [r]. *)
Definition await {A} (r : Result A) : Async A := fun b => (b, r).

Definition emit (e : Event) : Async unit :=
  fun b =>
    ({| onBeforeSendHeaders := onBeforeSendHeaders b;
        onHeadersReceived := onHeadersReceived b;
        nextClosure := nextClosure b;
        trace := (trace b ++ [e])%list |}, Ok tt).

Declare Scope async_scope.
Delimit Scope async_scope with async.
Notation "x <- m ;; k" := (bind m (fun x => k))
  (at level 61, m at next level, right associativity) : async_scope.
Notation "m ;;; k" := (bind m (fun _ => k))
  (at level 61, right associativity) : async_scope.
Local Open Scope async_scope.

(** ** Fetch resolver *)

Definition Blob := string.

(** A [Response]: [ok], [status], [statusText], and what [blob()]
    settles with. *)
Record Response := {
  ok : bool; status : nat; statusText : string; blob : Result Blob }.

(** The answer of the content script to [FETCH_IMAGE]:
    [{ ok, buffer, error }], each possibly absent. *)
Record RelayResponse := {
  r_ok : bool; r_buffer : option Blob; r_error : option string }.

(** What the outside world answers to one run: the fetch of the first
    tier, the direct fetch, and [tabs.sendMessage] ([None]: it resolves
    with nothing). *)
Record Network := {
  firstFetch : Result Response;
  directFetch : Result Response;
  relay : Result (option RelayResponse) }.

Definition showNat (n : nat) : string :=
  NilEmpty.string_of_uint (Nat.to_uint n).

(** A function expression evaluated: a closure nothing else refers to. *)
Definition newListener (url referrer : string) : Async Listener :=
  fun b =>
    ({| onBeforeSendHeaders := onBeforeSendHeaders b;
        onHeadersReceived := onHeadersReceived b;
        nextClosure := S (nextClosure b);
        trace := trace b |},
     Ok {| closure := nextClosure b; l_url := url; l_referrer := referrer |}).

Definition sameListener (l l' : Listener) : bool :=
  (closure l =? closure l')%nat.

Inductive WebRequestEvent := BeforeSendHeaders | HeadersReceived.

Definition addListener (ev : WebRequestEvent) (l : Listener) : Async unit :=
  fun b =>
    (match ev with
     | BeforeSendHeaders =>
         {| onBeforeSendHeaders := (onBeforeSendHeaders b ++ [l])%list;
            onHeadersReceived := onHeadersReceived b;
            nextClosure := nextClosure b; trace := trace b |}
     | HeadersReceived =>
         {| onBeforeSendHeaders := onBeforeSendHeaders b;
            onHeadersReceived := (onHeadersReceived b ++ [l])%list;
            nextClosure := nextClosure b; trace := trace b |}
     end, Ok tt).

Definition removeListener (ev : WebRequestEvent) (l : Listener) : Async unit :=
  fun b =>
    let others := filter (fun l' => negb (sameListener l l')) in
    (match ev with
     | BeforeSendHeaders =>
         {| onBeforeSendHeaders := others (onBeforeSendHeaders b);
            onHeadersReceived := onHeadersReceived b;
            nextClosure := nextClosure b; trace := trace b |}
     | HeadersReceived =>
         {| onBeforeSendHeaders := onBeforeSendHeaders b;
            onHeadersReceived := others (onHeadersReceived b);
            nextClosure := nextClosure b; trace := trace b |}
     end, Ok tt).

Section Run.

Variable net : Network.

Definition fetchImageWithReferrer (url referrer : string) : Async Blob :=
  emit (Tried ReferrerSpoofed) ;;;
  if negb (JS.truthy referrer) then
    response <- await (firstFetch net) ;;
    await (blob response)
  else
    onBeforeSendHeaders <- newListener url referrer ;;
    onHeadersReceived <- newListener url referrer ;;
    addListener BeforeSendHeaders onBeforeSendHeaders ;;;
    addListener HeadersReceived onHeadersReceived ;;;
    tryFinally
      (response <- await (firstFetch net) ;;
       if negb (ok response)
       then throw ("Failed to fetch: " ++ showNat (status response))
       else await (blob response))
      (removeListener BeforeSendHeaders onBeforeSendHeaders ;;;
       removeListener HeadersReceived onHeadersReceived).

Definition fetchImageViaContent (tabId : nat) (url : string) : Async Blob :=
  emit (Tried Relayed) ;;;
  response <- await (relay net) ;;
  match response with
  | Some {| r_ok := true; r_buffer := Some buffer |} => ret buffer
  | Some r =>
      throw (match r_error r with
             | Some e => if JS.truthy e then e else "Unknown content fetch error"
             | None => "Unknown content fetch error"
             end)
  | None => throw "Unknown content fetch error"
  end.

(** The direct fetch written out in [handleImagePipeline]. *)
Definition fetchDirect (src : string) : Async Blob :=
  emit (Tried Direct) ;;;
  response <- await (directFetch net) ;;
  if negb (ok response)
  then throw ("Failed to fetch image: " ++ showNat (status response)
              ++ " " ++ statusText response)
  else await (blob response).

(** Step 1 of [handleImagePipeline]: the nested [try]/[catch] that
    binds [blob]. *)
Definition fetchImage (src pageUrl : string) (tabId : nat) : Async Blob :=
  tryCatch (fetchImageWithReferrer src pageUrl)
    (fun e =>
       tryCatch (fetchDirect src)
         (fun directErr => fetchImageViaContent tabId src)).

End Run.

(** ** The pipeline: [handleImagePipeline] *)

(** A block as the recognizer hands it over, read the way the loop
    reads it: [confidence] and [conf] when they are numbers, [text]
    when it is a string, [bbox] when it is there with four numeric
    corners. *)
Record OcrBlock := {
  ob_confidence : option Qc;
  ob_conf : option Qc;
  ob_text : option string;
  ob_bbox : option BBox }.

Definition ofLineBlock (b : LineBlock) : OcrBlock :=
  {| ob_confidence := Some (confidence b); ob_conf := None;
     ob_text := Some (text b); ob_bbox := Some (bbox b) |}.

(** [data] of [worker.recognize]: each field possibly absent. *)
Record OcrData := {
  lines : option (list OcrBlock);
  words : option (list OcrBlock);
  blocks : option (list OcrBlock);
  tsv : option string }.

(** [{ text: translatedText, original: text, bbox }] *)
Record TranslatedBlock := {
  t_text : string; t_original : string; t_bbox : BBox }.

Record Message := {
  src : string; pageUrl : string; sourceLang : string; targetLang : string }.

(** [{ success: true, originalSrc, blocks, imgWidth, imgHeight }] *)
Record PipelineResult := {
  success : bool; originalSrc : string;
  resultBlocks : list TranslatedBlock; imgWidth : Z; imgHeight : Z }.

(** The collaborators of one run and what they answer. *)
Record World := {
  network : Network;
  getTranslator : Result unit;
  translatorPipe : string -> Result string;
  createImageBitmap : Result (Z * Z);
  initOCR : Result unit;
  recognize : Result OcrData }.

Definition MIN_CONFIDENCE : Qc := JS.ofZ 30.

(** The locals the loop over [ocrBlocks] updates. *)
Record Tally := {
  skippedLowConfidence : nat;
  skippedNoText : nat;
  skippedNoBbox : nat;
  translatedLogged : nat;
  translatedBlocks : list TranslatedBlock }.

Definition noTally : Tally :=
  {| skippedLowConfidence := 0; skippedNoText := 0; skippedNoBbox := 0;
     translatedLogged := 0; translatedBlocks := [] |}.

(** [Array.isArray(a) && a.length ? a : null] *)
Definition filled (a : option (list OcrBlock)) : option (list OcrBlock) :=
  match a with
  | Some (x :: l) => Some (x :: l)
  | _ => None
  end.

(** An exception met while [currentStep] holds [step] leaves the
    pipeline as [[step] detail]. *)
Definition atStep {A} (step : string) (m : Async A) : Async A :=
  tryCatch m (fun e =>
    throw ("[" ++ step ++ "] " ++ (if JS.truthy e then e else "Unknown error"))).

Section Pipeline.

Variable Number : string -> option Qc.
Variable world : World.

(** The loop [for (const block of ocrBlocks)]. *)
Fixpoint translateBlocks (ocrBlocks : list OcrBlock) (t : Tally) : Async Tally :=
  match ocrBlocks with
  | [] => ret t
  | block :: rest =>
      let confidence :=
        match ob_confidence block with
        | Some c => c
        | None => match ob_conf block with Some c => c | None => JS.ofZ 0 end
        end in
      if JS.ltb confidence MIN_CONFIDENCE then
        translateBlocks rest
          {| skippedLowConfidence := S (skippedLowConfidence t);
             skippedNoText := skippedNoText t;
             skippedNoBbox := skippedNoBbox t;
             translatedLogged := translatedLogged t;
             translatedBlocks := translatedBlocks t |}
      else
        let rawText := match ob_text block with Some s => s | None => "" end in
        let text := JS.trim rawText in
        if negb (JS.truthy text) then
          translateBlocks rest
            {| skippedLowConfidence := skippedLowConfidence t;
               skippedNoText := S (skippedNoText t);
               skippedNoBbox := skippedNoBbox t;
               translatedLogged := translatedLogged t;
               translatedBlocks := translatedBlocks t |}
        else
          match ob_bbox block with
          | None => translateBlocks rest t
          | Some _ =>
              match ob_bbox block with
              | None =>
                  translateBlocks rest
                    {| skippedLowConfidence := skippedLowConfidence t;
                       skippedNoText := skippedNoText t;
                       skippedNoBbox := S (skippedNoBbox t);
                       translatedLogged := translatedLogged t;
                       translatedBlocks := translatedBlocks t |}
              | Some bbox =>
                  emit (Translated text) ;;;
                  translatedText <- await (translatorPipe world text) ;;
                  translateBlocks rest
                    {| skippedLowConfidence := skippedLowConfidence t;
                       skippedNoText := skippedNoText t;
                       skippedNoBbox := skippedNoBbox t;
                       translatedLogged :=
                         if (translatedLogged t <? 10)%nat
                         then S (translatedLogged t) else translatedLogged t;
                       translatedBlocks :=
                         (translatedBlocks t
                          ++ [{| t_text := translatedText; t_original := text;
                                 t_bbox := bbox |}])%list |}
              end
          end
  end.

(** The choice of [ocrBlocks]: lines, else words, else blocks, else the
    table. *)
Definition chooseBlocks (msg : Message) (data : OcrData) : list OcrBlock :=
  match filled (lines data) with
  | Some l => l
  | None =>
      match filled (words data) with
      | Some l => l
      | None =>
          match filled (blocks data) with
          | Some l => l
          | None =>
              let joiner := if String.eqb (sourceLang msg) "ja" then "" else " " in
              map ofLineBlock (parseTsvToLineBlocks Number (tsv data) joiner)
          end
      end
  end.

Definition handleImagePipeline (msg : Message) (tabId : nat)
  : Async PipelineResult :=
  atStep "Loading Translator" (await (getTranslator world)) ;;;
  blob <- atStep "Fetching Image"
            (fetchImage (network world) (src msg) (pageUrl msg) tabId) ;;
  bitmap <- atStep "Creating Bitmap" (await (createImageBitmap world)) ;;
  atStep "Initializing OCR" (await (initOCR world)) ;;;
  data <- atStep "Running OCR" (await (recognize world)) ;;
  atStep "Translating"
    (let ocrBlocks := chooseBlocks msg data in
     t <- translateBlocks ocrBlocks noTally ;;
     emit (Summary (List.length (translatedBlocks t)) (skippedLowConfidence t)
             (skippedNoText t) (skippedNoBbox t)) ;;;
     ret {| success := true; originalSrc := src msg;
            resultBlocks := translatedBlocks t;
            imgWidth := fst bitmap; imgHeight := snd bitmap |}).

End Pipeline.

Definition freshBrowser : Browser :=
  {| onBeforeSendHeaders := []; onHeadersReceived := [];
     nextClosure := 0; trace := [] |}.

End Background.

(* ================================================================== *)
(** * The background worker of the remote-service variant *)
(* ================================================================== *)

(** The variant of the worker that sends the image to a recognition
    service and the texts to a translation service.  Its fetch functions
    read as those of [Background]; what differs is the part from the
    recognized lines on. *)
Module RemoteBackground.
Import Background.
Local Open Scope async_scope.

Definition fetchImageWithReferrer := Background.fetchImageWithReferrer.
Definition fetchImageViaContent := Background.fetchImageViaContent.

(** A word of [TextOverlay.Lines[i].Words]. *)
Record OverlayWord := { Left : Qc; Top : Qc; Width : Qc; Height : Qc }.

Record OverlayLine := { LineText : string; Words : option (list OverlayWord) }.

(** [{ text, bbox, isVertical }] *)
Record Block := { text : string; bbox : BBox; isVertical : bool }.

(** [{ text, original, bbox, isVertical }] *)
Record TranslatedBlock := {
  t_text : string; t_original : string; t_bbox : BBox; t_isVertical : bool }.

(** The box of a line: the loop over its words, which starts from
    infinite corners and so takes the first word as it is. *)
Definition lineBox (w : OverlayWord) (ws : list OverlayWord) : BBox :=
  fold_left
    (fun b word =>
       {| x0 := JS.min (x0 b) (Left word);
          y0 := JS.min (y0 b) (Top word);
          x1 := JS.max (x1 b) (Left word + Width word)%Qc;
          y1 := JS.max (y1 b) (Top word + Height word)%Qc |})
    ws
    {| x0 := Left w; y0 := Top w;
       x1 := (Left w + Width w)%Qc; y1 := (Top w + Height w)%Qc |}.

Fixpoint blocksOfLines (lines : list OverlayLine) : list Block :=
  match lines with
  | [] => []
  | line :: rest =>
      match Words line with
      | Some (w :: ws) =>
          let b := lineBox w ws in
          let width := (x1 b - x0 b)%Qc in
          let height := (y1 b - y0 b)%Qc in
          {| text := LineText line; bbox := b;
             isVertical := JS.ltb (width * JS.ofZ 2)%Qc height |}
          :: blocksOfLines rest
      | _ => blocksOfLines rest
      end
  end.

Section Translate.

(** [callDeepLApi(texts, targetLang)], read at [.translations]
    ([None]: the answer has no such field). *)
Variable callDeepLApi : list string -> Result (option (list string)).

Fixpoint pair (blocks : list Block) (translations : list string)
  : list TranslatedBlock :=
  match blocks, translations with
  | block :: blocks', t :: translations' =>
      {| t_text := t; t_original := text block; t_bbox := bbox block;
         t_isVertical := isVertical block |} :: pair blocks' translations'
  | _, _ => []
  end.

(** Steps 3 (from [lines] on) and 4 of [handleImagePipeline]. *)
Definition translateLines (lines : list OverlayLine)
  : Async (list TranslatedBlock) :=
  let blocks := blocksOfLines lines in
  if (List.length blocks =? 0)%nat then ret []
  else
    let textsToTranslate := map text blocks in
    emit (TranslatedBatch textsToTranslate) ;;;
    translations <- await (callDeepLApi textsToTranslate) ;;
    match translations with
    | Some translations =>
        if negb (List.length translations =? List.length blocks)%nat
        then throw "Translation count mismatch"
        else ret (pair blocks translations)
    | None => throw "Translation count mismatch"
    end.

End Translate.

End RemoteBackground.

(* ================================================================== *)
(** * The content script: queue, discovery, overlay *)
(* ================================================================== *)

Module Content.

Definition BBox := Background.BBox.
Definition TranslatedBlock := Background.TranslatedBlock.

Record Settings := { source : string; target : string }.

(** Division of finite numbers; [None]: the quotient is not finite. *)
Definition div (a b : Qc) : option Qc :=
  if JS.eqb b (JS.ofZ 0) then None else Some (a / b)%Qc.

(** A product with a factor that may not be finite. *)
Definition times (a : Qc) (s : option Qc) : option Qc :=
  option_map (fun s => (a * s)%Qc) s.

(** The box laid over the image for one block: the lengths of its
    [style.left], [top], [width], [height] and [fontSize], in pixels
    ([None]: not a finite number). *)
Record Div := {
  innerText : string; title : string;
  d_left : option Qc; d_top : option Qc;
  d_width : option Qc; d_height : option Qc;
  d_fontSize : option Qc }.

(** An [<img>] of the page with what the script reads and writes on it:
    its displayed size, [dataset.status] (empty when unset), whether it
    sits in the wrapper, whether the "Queued..." badge is shown, the
    boxes laid over it, and whether it carries the success border. *)
Record Img := {
  width : Z; height : Z;
  status : string;
  wrapped : bool;
  badge : bool;
  overlays : list Div;
  bordered : bool }.

(** The boxes [overlayTranslations] appends to the wrapper. *)
Definition overlayBoxes (img : Img) (blocks : list TranslatedBlock)
           (originalWidth originalHeight : Z) : list Div :=
  let scaleX := div (JS.ofZ (width img)) (JS.ofZ originalWidth) in
  let scaleY := div (JS.ofZ (height img)) (JS.ofZ originalHeight) in
  map (fun block =>
         let b := Background.t_bbox block in
         let x0 := Background.x0 b in
         let y0 := Background.y0 b in
         let x1 := Background.x1 b in
         let y1 := Background.y1 b in
         {| innerText := Background.t_text block;
            title := Background.t_original block;
            d_left := times x0 scaleX;
            d_top := times y0 scaleY;
            d_width := times (x1 - x0)%Qc scaleX;
            d_height := times (y1 - y0)%Qc scaleY;
            d_fontSize :=
              option_map (fun h => (h * (JS.ofZ 8 / JS.ofZ 10))%Qc)
                         (times (y1 - y0)%Qc scaleY) |})
      blocks.

Definition overlayTranslations (img : Img) (blocks : list TranslatedBlock)
           (originalWidth originalHeight : Z) : Img :=
  {| width := width img; height := height img; status := status img;
     wrapped := wrapped img; badge := badge img;
     overlays :=
       (overlays img ++ overlayBoxes img blocks originalWidth originalHeight)%list;
     bordered := true |}.

(** The answer to [PROCESS_IMAGE]. *)
Record Response := {
  success : bool;
  blocks : option (list TranslatedBlock);
  imgWidth : Z; imgHeight : Z;
  error : option string }.

(** How the background's listener answers: the result of the pipeline,
    or [{ success: false, error }] in place of its exception. *)
Definition answer (r : Background.Result Background.PipelineResult) : Response :=
  match r with
  | Background.Ok result =>
      {| success := Background.success result;
         blocks := Some (Background.resultBlocks result);
         imgWidth := Background.imgWidth result;
         imgHeight := Background.imgHeight result;
         error := None |}
  | Background.Throw e =>
      {| success := false; blocks := None; imgWidth := 0; imgHeight := 0;
         error := Some (if JS.truthy e then e else "Unknown error") |}
  end.

(** How [sendMessageWithRetry] settles: rejected after the last
    attempt, or resolved with a response (possibly none). *)
Inductive Settled :=
| Rejected (err : string)
| Resolved (response : option Response).

(** An entry of [imageQueue]; [img] is the element, named by its place
    in the document. *)
Record Task := { img : nat; settings : Settings }.

Inductive Event :=
| Dispatched (img : nat)
| Done (img : nat)
| Failed (img : nat).

(** The page and the script's globals; [inFlight] holds the tasks whose
    message has been sent and has not settled, [log] what happened, in
    order. *)
Record State := {
  document : list Img;
  imageQueue : list Task;
  activeProcessors : Z;
  inFlight : list Task;
  log : list Event }.

Definition MAX_CONCURRENT : Z := 1.

(** Assignment through a reference to the element. *)
Fixpoint update (doc : list Img) (i : nat) (f : Img -> Img) : list Img :=
  match doc, i with
  | [], _ => []
  | x :: doc', O => f x :: doc'
  | x :: doc', S i' => x :: update doc' i' f
  end.

Definition setStatus (s : string) (x : Img) : Img :=
  {| width := width x; height := height x; status := s;
     wrapped := wrapped x; badge := badge x; overlays := overlays x;
     bordered := bordered x |}.

Definition setScaffold (w b : bool) (x : Img) : Img :=
  {| width := width x; height := height x; status := status x;
     wrapped := w; badge := b; overlays := overlays x;
     bordered := bordered x |}.

(** [processQueue] up to the point where the message is sent. *)
Definition processQueue (st : State) : State :=
  if (activeProcessors st >=? MAX_CONCURRENT)%Z then st
  else
    match imageQueue st with
    | [] => st
    | task :: rest =>
        {| document := document st;
           imageQueue := rest;
           activeProcessors := (activeProcessors st + 1)%Z;
           inFlight := (inFlight st ++ [task])%list;
           log := (log st ++ [Dispatched (img task)])%list |}
    end.

Section Variant.

(** The two content scripts differ in the least side an image must
    have and in how a result is put on the page. *)
Variable minSide : Z.
Variable present : Img -> list TranslatedBlock -> Z -> Z -> Img.

(** [img.width < minSide || img.height < minSide || img.dataset.status] *)
Definition skipped (x : Img) : bool :=
  (width x <? minSide)%Z || (height x <? minSide)%Z || JS.truthy (status x).

(** The [forEach] of [scanAndTranslate] over the images from place [i]
    on: the elements as it leaves them and the tasks it pushes. *)
Fixpoint discover (s : Settings) (i : nat) (images : list Img)
  : list Img * list Task :=
  match images with
  | [] => ([], [])
  | x :: rest =>
      let '(rest', tasks) := discover s (S i) rest in
      if skipped x then (x :: rest', tasks)
      else (setScaffold true true (setStatus "queued" x) :: rest',
            {| img := i; settings := s |} :: tasks)
  end.

Definition scanAndTranslate (s : Settings) (st : State) : State :=
  let '(doc, tasks) := discover s 0 (document st) in
  processQueue
    {| document := doc;
       imageQueue := (imageQueue st ++ tasks)%list;
       activeProcessors := activeProcessors st;
       inFlight := inFlight st;
       log := log st |}.

(** The blocks of a response the [then] handler goes on with; [None]
    is each of its [throw]s and a rejected message. *)
Definition usable (r : Settled) : option (Response * list TranslatedBlock) :=
  match r with
  | Rejected _ => None
  | Resolved None => None
  | Resolved (Some response) =>
      if success response then
        match blocks response with
        | Some (b :: bs) => Some (response, b :: bs)
        | _ => None
        end
      else None
  end.

Fixpoint removeAt {A : Type} (k : nat) (l : list A) : list A :=
  match l, k with
  | [], _ => []
  | _ :: l', O => l'
  | x :: l', S k' => x :: removeAt k' l'
  end.

(** The promise of the [k]-th task in flight settles with [r]: the
    [then] or [catch] handler runs, then [finally]. *)
Definition settle (k : nat) (r : Settled) (st : State) : option State :=
  match nth_error (inFlight st) k with
  | None => None
  | Some task =>
      let i := img task in
      let '(doc, event) :=
        match usable r with
        | Some (response, bs) =>
            (update (document st) i (fun x =>
               setScaffold (wrapped x) false
                 (setStatus "done"
                    (present x bs (imgWidth response) (imgHeight response)))),
             Done i)
        | None =>
            (update (document st) i (fun x =>
               setScaffold false false (setStatus "" x)),
             Failed i)
        end in
      Some (processQueue
              {| document := doc;
                 imageQueue := imageQueue st;
                 activeProcessors := (activeProcessors st - 1)%Z;
                 inFlight := removeAt k (inFlight st);
                 log := (log st ++ [event])%list |})
  end.

(** What can happen to the page and the script. *)
Inductive Action :=
| Scan (s : Settings)
| Settle (k : nat) (r : Settled)
| AddImage (x : Img).

Definition perform (a : Action) (st : State) : option State :=
  match a with
  | Scan s => Some (scanAndTranslate s st)
  | Settle k r => settle k r st
  | AddImage x =>
      Some {| document := (document st ++ [x])%list;
              imageQueue := imageQueue st;
              activeProcessors := activeProcessors st;
              inFlight := inFlight st;
              log := log st |}
  end.

Fixpoint run (actions : list Action) (st : State) : option State :=
  match actions with
  | [] => Some st
  | a :: rest =>
      match perform a st with
      | Some st' => run rest st'
      | None => None
      end
  end.

End Variant.

(** The script as loaded on a page with the images [doc]. *)
Definition loaded (doc : list Img) : State :=
  {| document := doc; imageQueue := []; activeProcessors := 0;
     inFlight := []; log := [] |}.

End Content.

(* ================================================================== *)
(** * Notions of the specification, and concrete inputs *)
(* ================================================================== *)

(** A table with its [conf] column left out. *)
Definition noConfTable : string :=
  Background.tsvOf
    [ ["level"; "page_num"; "block_num"; "par_num"; "line_num"; "word_num";
       "left"; "top"; "width"; "height"; "text"];
      ["5"; "1"; "1"; "1"; "1"; "1"; "0"; "0"; "10"; "10"; "Hello"] ].

(** What a computation appended to the trace it started from. *)
Definition appended (b b' : Background.Browser) : list Background.Event :=
  skipn (List.length (Background.trace b)) (Background.trace b').

(** A network on which every tier fails: the first fetch is answered 403,
    the direct fetch is refused, the relay reports an error. *)
Definition hostileNetwork : Background.Network :=
  {| Background.firstFetch :=
       Background.Ok {| Background.ok := false; Background.status := 403;
                        Background.statusText := "Forbidden";
                        Background.blob := Background.Ok "" |};
     Background.directFetch := Background.Throw "NetworkError";
     Background.relay :=
       Background.Ok (Some {| Background.r_ok := false;
                              Background.r_buffer := None;
                              Background.r_error := Some "HTTP 403" |}) |}.

(** A browser in which another extension page has a listener installed
    on each event. *)
Definition busyBrowser : Background.Browser :=
  {| Background.onBeforeSendHeaders :=
       [{| Background.closure := 0; Background.l_url := "https://a.example/1.png";
           Background.l_referrer := "https://a.example/" |}];
     Background.onHeadersReceived :=
       [{| Background.closure := 1; Background.l_url := "https://a.example/1.png";
           Background.l_referrer := "https://a.example/" |}];
     Background.nextClosure := 2;
     Background.trace := [] |}.

(** Every installed listener is a closure created earlier. *)
Definition createdBefore (b : Background.Browser) : Prop :=
  Forall (fun l => (Background.closure l < Background.nextClosure b)%nat)
         (Background.onBeforeSendHeaders b)
  /\ Forall (fun l => (Background.closure l < Background.nextClosure b)%nat)
            (Background.onHeadersReceived b).

(** ** The confidence filter, as the specification words it *)

(** What becomes of a block: dropped for low confidence, for an empty
    trimmed text, for a missing box, or kept with its trimmed text and
    its box. *)
Inductive Verdict :=
| LowConfidence
| NoText
| NoBbox
| Survives (text : string) (bbox : Background.BBox).

Definition confidenceOf (block : Background.OcrBlock) : Qc :=
  match Background.ob_confidence block, Background.ob_conf block with
  | Some c, _ => c
  | None, Some c => c
  | None, None => JS.ofZ 0
  end.

Definition verdict (block : Background.OcrBlock) : Verdict :=
  if JS.ltb (confidenceOf block) Background.MIN_CONFIDENCE then LowConfidence
  else
    match JS.trim (match Background.ob_text block with Some s => s | None => "" end) with
    | EmptyString => NoText
    | text =>
        match Background.ob_bbox block with
        | None => NoBbox
        | Some bbox => Survives text bbox
        end
    end.

Fixpoint survivors (blocks : list Background.OcrBlock)
  : list (string * Background.BBox) :=
  match blocks with
  | [] => []
  | block :: rest =>
      match verdict block with
      | Survives text bbox => (text, bbox) :: survivors rest
      | _ => survivors rest
      end
  end.

Definition isLowConfidence (v : Verdict) : bool :=
  match v with LowConfidence => true | _ => false end.
Definition isNoText (v : Verdict) : bool :=
  match v with NoText => true | _ => false end.
Definition isNoBbox (v : Verdict) : bool :=
  match v with NoBbox => true | _ => false end.

(** How many blocks meet a verdict. *)
Definition dropped (reason : Verdict -> bool) (blocks : list Background.OcrBlock)
  : nat :=
  List.length (filter (fun block => reason (verdict block)) blocks).

(** A translated block answers a survivor: same text, same box, and the
    translator's answer to that text. *)
Definition answers (world : Background.World)
           (s : string * Background.BBox) (tb : Background.TranslatedBlock) : Prop :=
  Background.t_original tb = fst s /\ Background.t_bbox tb = snd s
  /\ Background.translatorPipe world (fst s) = Background.Ok (Background.t_text tb).

(** A confident block with a text and no box. *)
Definition boxlessBlock : Background.OcrBlock :=
  {| Background.ob_confidence := Some (JS.ofZ 90);
     Background.ob_conf := None;
     Background.ob_text := Some "Hi";
     Background.ob_bbox := None |}.

(** A world in which everything works, the recognizer returns the one
    line [boxlessBlock], and the translator echoes its input. *)
Definition boxlessWorld : Background.World :=
  {| Background.network :=
       {| Background.firstFetch :=
            Background.Ok {| Background.ok := true; Background.status := 200;
                             Background.statusText := "OK";
                             Background.blob := Background.Ok "png" |};
          Background.directFetch := Background.Throw "unused";
          Background.relay := Background.Throw "unused" |};
     Background.getTranslator := Background.Ok tt;
     Background.translatorPipe := fun text => Background.Ok text;
     Background.createImageBitmap := Background.Ok (640, 480)%Z;
     Background.initOCR := Background.Ok tt;
     Background.recognize :=
       Background.Ok {| Background.lines := Some [boxlessBlock];
                        Background.words := None;
                        Background.blocks := None;
                        Background.tsv := None |} |}.

Definition pageMessage : Background.Message :=
  {| Background.src := "https://a.example/1.png";
     Background.pageUrl := "https://a.example/";
     Background.sourceLang := "en"; Background.targetLang := "es" |}.

(** Two recognized lines for the remote variant, and a translation
    service that answers with the texts it was sent. *)
Definition twoLines : list RemoteBackground.OverlayLine :=
  [ {| RemoteBackground.LineText := "Hello";
       RemoteBackground.Words :=
         Some [{| RemoteBackground.Left := JS.ofZ 0; RemoteBackground.Top := JS.ofZ 0;
                  RemoteBackground.Width := JS.ofZ 10;
                  RemoteBackground.Height := JS.ofZ 10 |}] |};
    {| RemoteBackground.LineText := "World";
       RemoteBackground.Words :=
         Some [{| RemoteBackground.Left := JS.ofZ 0; RemoteBackground.Top := JS.ofZ 20;
                  RemoteBackground.Width := JS.ofZ 10;
                  RemoteBackground.Height := JS.ofZ 10 |}] |} ].

Definition echoService (texts : list string)
  : Background.Result (option (list string)) :=
  Background.Ok (Some texts).

(** ** Overlay geometry and the scheduler's discipline *)

(** A box laid at the block's native box scaled by [(scaleX, scaleY)]. *)
Definition laidAt (scaleX scaleY : Qc)
           (block : Content.TranslatedBlock) (d : Content.Div) : Prop :=
  let b := Background.t_bbox block in
  Content.d_left d = Some (Background.x0 b * scaleX)%Qc
  /\ Content.d_top d = Some (Background.y0 b * scaleY)%Qc
  /\ Content.d_width d = Some ((Background.x1 b - Background.x0 b) * scaleX)%Qc
  /\ Content.d_height d = Some ((Background.y1 b - Background.y0 b) * scaleY)%Qc.

(** The specification's example: an image of native size 1000 by 800
    shown at 500 by 400, and a block at (100,100,200,150). *)
Definition halfSizeImg : Content.Img :=
  {| Content.width := 500; Content.height := 400; Content.status := "queued";
     Content.wrapped := true; Content.badge := true; Content.overlays := [];
     Content.bordered := false |}.

Definition sampleBlock : Content.TranslatedBlock :=
  {| Background.t_text := "Hola"; Background.t_original := "Hello";
     Background.t_bbox := Background.box 100 100 200 150 |}.

(** Reading a log from its start with [busy] the image being processed:
    a task may be dispatched only while none is processed, and [Done] or
    [Failed] must name the image being processed.  [None]: the log
    breaks this discipline; [Some busy']: it keeps it and ends with
    [busy'] being processed. *)
Fixpoint replay (busy : option nat) (log : list Content.Event)
  : option (option nat) :=
  match log with
  | [] => Some busy
  | Content.Dispatched i :: rest =>
      match busy with
      | None => replay (Some i) rest
      | Some _ => None
      end
  | Content.Done i :: rest | Content.Failed i :: rest =>
      match busy with
      | Some j => if (i =? j)%nat then replay None rest else None
      | None => None
      end
  end.

(** The actions that add no image and reset no status. *)
Definition quiet (a : Content.Action) : bool :=
  match a with
  | Content.Scan _ => true
  | Content.Settle _ r =>
      match Content.usable r with Some _ => true | None => false end
  | Content.AddImage _ => false
  end.

(** The content script that lays boxes over the image: images of at
    least 50 by 50, shown with [overlayTranslations]. *)
Definition overlayScript_run :=
  Content.run 50 Content.overlayTranslations.

Definition bigImg : Content.Img :=
  {| Content.width := 300; Content.height := 200; Content.status := "";
     Content.wrapped := false; Content.badge := false; Content.overlays := [];
     Content.bordered := false |}.

Definition iconImg : Content.Img :=
  {| Content.width := 16; Content.height := 16; Content.status := "";
     Content.wrapped := false; Content.badge := false; Content.overlays := [];
     Content.bordered := false |}.

Definition enEs : Content.Settings :=
  {| Content.source := "en"; Content.target := "es" |}.

Definition goodResponse : Content.Settled :=
  Content.Resolved
    (Some {| Content.success := true; Content.blocks := Some [sampleBlock];
             Content.imgWidth := 600; Content.imgHeight := 400;
             Content.error := None |}).

(** A page with three images large enough and an icon. *)
Definition threeImages : list Content.Img := [bigImg; iconImg; bigImg; bigImg].

(** Three images found at once, the first translated, the second failed. *)
Definition threeTasks : list Content.Action :=
  [ Content.Scan enEs;
    Content.Settle 0 goodResponse;
    Content.Settle 0 (Content.Rejected "Could not establish connection") ].

(** What the scheduler keeps true: the counter is the number of tasks in
    flight, there is at most one, and the log keeps the discipline of
    [replay], ending with that task being processed. *)
Definition scheduled (st : Content.State) : Prop :=
  Content.activeProcessors st = Z.of_nat (List.length (Content.inFlight st))
  /\ (List.length (Content.inFlight st) <= 1)%nat
  /\ replay None (Content.log st)
     = Some (option_map Content.img (hd_error (Content.inFlight st))).

(** ** Line grouping, as the specification words it *)

(** The composite key of a row: its page, block, paragraph and line
    cells. *)
Definition Key : Type :=
  (option string * option string * option string * option string)%type.

Definition cells (w : Background.Word) : Key :=
  (Background.wpage w, Background.wblock w, Background.wpar w, Background.wline w).

Definition Key_eq_dec (a b : Key) : {a = b} + {a <> b}.
Proof. repeat decide equality. Defined.

Definition onLine (k : Key) (w : Background.Word) : bool :=
  if Key_eq_dec (cells w) k then true else false.

(** The distinct keys of a sequence, each at its first occurrence. *)
Fixpoint firstOccurrences (ks : list Key) : list Key :=
  match ks with
  | [] => []
  | k :: ks' =>
      k :: filter (fun k' => if Key_eq_dec k' k then false else true)
                  (firstOccurrences ks')
  end.

(** The rows grouped by key: one group per key, the groups by first
    occurrence, the rows of a group in row order. *)
Definition groupByLine (ws : list Background.Word) : list (list Background.Word) :=
  map (fun k => filter (onLine k) ws) (firstOccurrences (map cells ws)).

(** The arithmetic mean. *)
Definition mean (cs : list Qc) : Qc :=
  (fold_right Qcplus (JS.ofZ 0) cs / JS.ofNat (List.length cs))%Qc.

(** The union of two boxes: the least left and top, the greatest right
    and bottom. *)
Definition unionBox (a b : Background.BBox) : Background.BBox :=
  {| Background.x0 := JS.min (Background.x0 a) (Background.x0 b);
     Background.y0 := JS.min (Background.y0 a) (Background.y0 b);
     Background.x1 := JS.max (Background.x1 a) (Background.x1 b);
     Background.y1 := JS.max (Background.y1 a) (Background.y1 b) |}.

Definition unionAll (b : Background.BBox) (bs : list Background.BBox)
  : Background.BBox :=
  fold_left unionBox bs b.

(** The line block of a group of rows. *)
Definition lineBlockOf (joiner : string) (ws : list Background.Word)
  : Background.LineBlock :=
  {| Background.text := JS.join joiner (map Background.wtext ws);
     Background.confidence := mean (map Background.wconf ws);
     Background.bbox :=
       match ws with
       | [] => Background.box 0 0 0 0
       | w :: rest => unionAll (Background.wbox w) (map Background.wbox rest)
       end |}.

(** The rows of a list that the loop does not skip. *)
Fixpoint collect (Number : string -> option Qc) (c : Background.Columns)
         (rows : list string) : list Background.Word :=
  match rows with
  | [] => []
  | row :: rest =>
      match Background.readWord Number c row with
      | Some w => w :: collect Number c rest
      | None => collect Number c rest
      end
  end.

(** The table gets past the checks on its shape. *)
Definition wellShaped (tsv : string) : bool :=
  JS.truthy tsv
  && negb (List.length (Background.rowsOf tsv) <? 2)%nat
  && negb (Background.someMissing (Background.locate (Background.headerOf tsv))).

(** The participating rows of a table. *)
Definition wordsOf (Number : string -> option Qc) (tsv : string)
  : list Background.Word :=
  if wellShaped tsv
  then collect Number (Background.locate (Background.headerOf tsv))
               (tl (Background.rowsOf tsv))
  else [].

(** An index cell as the recognizer prints it: present, and without the
    hyphen that separates the parts of a key. *)
Fixpoint hyphenFree (s : string) : bool :=
  match s with
  | EmptyString => true
  | String c s' => negb (Ascii.eqb c "-"%char) && hyphenFree s'
  end.

Definition indexCell (cell : option string) : bool :=
  match cell with Some s => hyphenFree s | None => false end.

Definition indexed (w : Background.Word) : bool :=
  indexCell (Background.wpage w) && indexCell (Background.wblock w)
  && indexCell (Background.wpar w) && indexCell (Background.wline w).

(** A string that starts, and one that ends, with a character [trim]
    keeps. *)
Definition headKept (s : string) : bool :=
  match s with
  | EmptyString => false
  | String c _ => negb (JS.isWhiteSpace c)
  end.

Fixpoint lastKept (s : string) : bool :=
  match s with
  | EmptyString => false
  | String c s' =>
      match s' with
      | EmptyString => negb (JS.isWhiteSpace c)
      | String _ _ => lastKept s'
      end
  end.

(** A table with one word of confidence 0. *)
Definition zeroConfTable : string :=
  Background.tsvOf
    [ Background.requiredColumns;
      ["5"; "1"; "1"; "1"; "1"; "1"; "0"; "0"; "10"; "10"; "0"; "Hello"] ].

Definition zeroConfRow : string :=
  JS.join (String JS.TAB "")
    ["5"; "1"; "1"; "1"; "1"; "1"; "0"; "0"; "10"; "10"; "0"; "Hello"].

(** A table with a row of negative confidence between two words of one
    line. *)
Definition noisyRows : list string :=
  map (JS.join (String JS.TAB ""))
    [ ["5"; "1"; "1"; "1"; "1"; "1"; "0"; "0"; "10"; "10"; "90"; "Hello"];
      ["5"; "1"; "1"; "1"; "1"; "2"; "4"; "0"; "2"; "10"; "-1"; "x"];
      ["5"; "1"; "1"; "1"; "1"; "3"; "10"; "0"; "10"; "10"; "80"; "World"] ].

(** The key of the [groups] map that a composite key is written as. *)
Definition keyString (k : Key) : string :=
  let '(page, block, par, line) := k in
  JS.interpolate page ++ "-" ++ JS.interpolate block ++ "-"
  ++ JS.interpolate par ++ "-" ++ JS.interpolate line.

(** The value of [groups] for the rows of one line. *)
Definition groupOf (ws : list Background.Word) : Background.Group :=
  {| Background.parts := map Background.wtext ws;
     Background.confs := map Background.wconf ws;
     Background.gbox :=
       match ws with
       | [] => Background.box 0 0 0 0
       | w :: rest => unionAll (Background.wbox w) (map Background.wbox rest)
       end |}.

(** The [groups] map that grouping the rows by key gives. *)
Definition grouped (ws : list Background.Word) : Background.Groups :=
  map (fun k => (keyString k, groupOf (filter (onLine k) ws)))
      (firstOccurrences (map cells ws)).

(** No two rows of different lines are written with the same key. *)
Definition unambiguous (ws : list Background.Word) : Prop :=
  forall a b, In a ws -> In b ws ->
              Background.wkey a = Background.wkey b -> cells a = cells b.

(** A box that reaches as far as another on every side. *)
Definition covers (u b : Background.BBox) : Prop :=
  (Background.x0 u <= Background.x0 b)%Qc
  /\ (Background.y0 u <= Background.y0 b)%Qc
  /\ (Background.x1 b <= Background.x1 u)%Qc
  /\ (Background.y1 b <= Background.y1 u)%Qc.

(* ================================================================== *)
(** * Further notions: what the blocks, the pipeline and the scripts keep *)
(* ================================================================== *)

From Stdlib Require Import Permutation Sorted Floats.

(** ** Line blocks *)

(** [a] may stand before [b] in reading order: higher up, or as high
    and not further right. *)
Definition before (a b : Background.LineBlock) : Prop :=
  (Background.y0 (Background.bbox a) < Background.y0 (Background.bbox b))%Qc
  \/ (Background.y0 (Background.bbox a) = Background.y0 (Background.bbox b)
      /\ (Background.x0 (Background.bbox a)
          <= Background.x0 (Background.bbox b))%Qc).

(** A box with a positive width and height. *)
Definition properBox (b : Background.BBox) : Prop :=
  (Background.x0 b < Background.x1 b)%Qc
  /\ (Background.y0 b < Background.y1 b)%Qc.

(** A line block one can translate and lay out: a text that is trimmed
    and not empty, a confidence that is not negative, a proper box. *)
Definition wellFormedBlock (b : Background.LineBlock) : Prop :=
  JS.trim (Background.text b) = Background.text b
  /\ JS.truthy (Background.text b) = true
  /\ (JS.ofZ 0 <= Background.confidence b)%Qc
  /\ properBox (Background.bbox b).

Definition keptText (s : string) : Prop :=
  headKept s = true /\ lastKept s = true.

Definition goodWord (w : Background.Word) : Prop :=
  keptText (Background.wtext w)
  /\ (JS.ofZ 0 <= Background.wconf w)%Qc
  /\ properBox (Background.wbox w).

Definition goodGroup (g : Background.Group) : Prop :=
  Background.parts g <> []
  /\ Forall keptText (Background.parts g)
  /\ Background.confs g <> []
  /\ Forall (fun c => (JS.ofZ 0 <= c)%Qc) (Background.confs g)
  /\ properBox (Background.gbox g).

(** ** Tables as text *)

(** A line as [split(/\r?\n/)] gives it back: no line feed in it, and no
    carriage return at its end. *)
Fixpoint lineOk (s : string) : bool :=
  match s with
  | EmptyString => true
  | String c s' =>
      negb (Ascii.eqb c JS.LF)
      && negb (Ascii.eqb c JS.CR && match s' with EmptyString => true | _ => false end)
      && lineOk s'
  end.

(** A cell without tab, line feed or carriage return. *)
Fixpoint plainCell (s : string) : bool :=
  match s with
  | EmptyString => true
  | String c s' =>
      negb (Ascii.eqb c JS.TAB) && negb (Ascii.eqb c JS.LF)
      && negb (Ascii.eqb c JS.CR) && plainCell s'
  end.

(** A row of plain cells that is not the empty line. *)
Definition plainRow (row : list string) : bool :=
  forallb plainCell row
  && match row with
     | [] => false
     | [EmptyString] => false
     | _ => true
     end.

Definition CRLF : string := String JS.CR (String JS.LF "").
Definition NL : string := String JS.LF "".

(** A string without line feed or carriage return. *)
Fixpoint unbroken (s : string) : bool :=
  match s with
  | EmptyString => true
  | String c s' =>
      negb (Ascii.eqb c JS.LF) && negb (Ascii.eqb c JS.CR) && unbroken s'
  end.

(** The header line of a table with the twelve columns. *)
Definition headerLine : string :=
  JS.join (String JS.TAB "") Background.requiredColumns.

(** ** The pipeline as a whole *)

(** The values [currentStep] takes while something can fail. *)
Definition pipelineSteps : list string :=
  ["Loading Translator"; "Fetching Image"; "Creating Bitmap";
   "Initializing OCR"; "Running OCR"; "Translating"].

(** The message of a failure met at [step]. *)
Definition stepError (step e : string) : string :=
  "[" ++ step ++ "] " ++ (if JS.truthy e then e else "Unknown error").

(** A message of the form [[step] detail], the detail not empty. *)
Definition tagged (e : string) : Prop :=
  exists step detail,
    In step pipelineSteps /\ JS.truthy detail = true
    /\ e = "[" ++ step ++ "] " ++ detail.

(* ================================================================== *)
(** * The content script: message transport *)
(* ================================================================== *)

Module Transport.

(** What [sendMessageWithRetry] does, in order: an attempt to send, or a
    wait of [delay] milliseconds. *)
Inductive Step :=
| Sent (attempt : nat)
| Waited (delay : nat).

Section Retry.

Context {R : Type}.

(** What the [i]-th call of [browser.runtime.sendMessage(msg)] settles
    with. *)
Variable sendMessage : nat -> Background.Result R.

(** The loop from attempt [i] on, with [remaining] attempts to go: the
    steps taken, and the outcome ([Ok None]: the loop ran out without an
    attempt, and the function returns nothing). *)
Fixpoint attemptsFrom (remaining i delay : nat)
  : list Step * Background.Result (option R) :=
  match remaining with
  | O => ([], Background.Ok None)
  | S remaining' =>
      match sendMessage i with
      | Background.Ok r => ([Sent i], Background.Ok (Some r))
      | Background.Throw err =>
          match remaining' with
          | O => ([Sent i], Background.Throw err)
          | S _ =>
              let '(steps, out) := attemptsFrom remaining' (S i) delay in
              (Sent i :: Waited delay :: steps, out)
          end
      end
  end.

Definition sendMessageWithRetry (retries delay : nat)
  : list Step * Background.Result (option R) :=
  attemptsFrom retries 0 delay.

End Retry.

Fixpoint sentCount (steps : list Step) : nat :=
  match steps with
  | [] => 0
  | Sent _ :: rest => S (sentCount rest)
  | Waited _ :: rest => sentCount rest
  end.

Fixpoint waitedTotal (steps : list Step) : nat :=
  match steps with
  | [] => 0
  | Sent _ :: rest => waitedTotal rest
  | Waited d :: rest => d + waitedTotal rest
  end.

(** The listener of the content script for [FETCH_IMAGE]: the fetch in
    the page's context, answered as [{ ok: true, buffer }] or
    [{ ok: false, error }].  [errorName] is what [String(err)] gives for
    an error without message. *)
Definition fetchImageListener (errorName : string)
           (fetched : Background.Result Background.Response)
  : Background.RelayResponse :=
  let failed (e : string) :=
    {| Background.r_ok := false; Background.r_buffer := None;
       Background.r_error := Some (if JS.truthy e then e else errorName) |} in
  match fetched with
  | Background.Throw e => failed e
  | Background.Ok resp =>
      if negb (Background.ok resp)
      then failed ("HTTP " ++ Background.showNat (Background.status resp))
      else
        match Background.blob resp with
        | Background.Ok buffer =>
            {| Background.r_ok := true; Background.r_buffer := Some buffer;
               Background.r_error := None |}
        | Background.Throw e => failed e
        end
  end.

End Transport.

(** A network whose relay is the content script's listener answering for
    the fetch [fetched]. *)
Definition relayedBy (errorName : string)
           (fetched : Background.Result Background.Response)
           (net : Background.Network) : Background.Network :=
  {| Background.firstFetch := Background.firstFetch net;
     Background.directFetch := Background.directFetch net;
     Background.relay :=
       Background.Ok (Some (Transport.fetchImageListener errorName fetched)) |}.

(** Five attempts of which the first two fail. *)
Definition flakyChannel (i : nat) : Background.Result string :=
  if (i <? 2)%nat then Background.Throw "Receiving end does not exist"
  else Background.Ok "response".

(** The result of a pipeline run that found no block to translate. *)
Definition emptyResult : Background.PipelineResult :=
  {| Background.success := true;
     Background.originalSrc := "https://a.example/1.png";
     Background.resultBlocks := [];
     Background.imgWidth := 640; Background.imgHeight := 480 |}.

(** ** Tasks and statuses *)

Definition isQueued (x : Content.Img) : bool :=
  String.eqb (Content.status x) "queued".

(** The images that have a task, waiting or in flight. *)
Definition tracked (st : Content.State) : list nat :=
  map Content.img (Content.imageQueue st ++ Content.inFlight st).

(** The tasks [l] account for the statuses of [doc]: no image has two
    tasks, and the images with a task are those marked [queued]. *)
Definition accounts (l : list nat) (doc : list Content.Img) : Prop :=
  NoDup l
  /\ forall i, In i l <-> exists x, nth_error doc i = Some x /\ isQueued x = true.

(** An action of the page that does not forge the mark of the script:
    an image added to the page is not marked [queued]. *)
Definition ordinary (a : Content.Action) : bool :=
  match a with
  | Content.AddImage x => negb (isQueued x)
  | _ => true
  end.

(* ================================================================== *)
(** * The background worker: the two interceptors *)
(* ================================================================== *)

(** The closures [onBeforeSendHeaders] and [onHeadersReceived] that
    [fetchImageWithReferrer] installs. *)
Module Interceptors.

Record Header := { name : string; value : string }.

(** The [details] of a request: its URL and its headers, each list
    possibly absent. *)
Record Details := {
  url : string;
  requestHeaders : option (list Header);
  responseHeaders : option (list Header) }.

(** What a listener does: it returns nothing, it returns new request or
    response headers, or it throws. *)
Inductive Reply :=
| Untouched
| RequestHeaders (headers : list Header)
| ResponseHeaders (headers : list Header)
| Raised.

(** [c.toLowerCase()] on the code units below U+0100. *)
Definition lowerChar (c : ascii) : ascii :=
  let n := nat_of_ascii c in
  if ((65 <=? n) && (n <=? 90)
      || (192 <=? n) && (n <=? 222) && negb (n =? 215))%nat
  then ascii_of_nat (n + 32)
  else c.

Fixpoint toLowerCase (s : string) : string :=
  match s with
  | EmptyString => EmptyString
  | String c s' => String (lowerChar c) (toLowerCase s')
  end.

(** [s.includes(sub)] *)
Fixpoint includes (sub s : string) : bool :=
  String.prefix sub s
  || match s with
     | EmptyString => false
     | String _ s' => includes sub s'
     end.

Definition isReferer (h : Header) : bool :=
  String.eqb (toLowerCase (name h)) "referer".

Section Closures.

(** [new URL(url).pathname]; [None]: the URL cannot be parsed and the
    constructor throws. *)
Variable pathname : string -> option string.

(** The closures' captured variables. *)
Variable url : string.
Variable referrer : string.

(** The guard
    [details.url !== url && !details.url.includes(new URL(url).pathname)]:
    [Some true], the listener returns at once; [None], the guard throws. *)
Definition passes (details : Details) : option bool :=
  if negb (String.eqb (Interceptors.url details) url) then
    match pathname url with
    | Some p => Some (negb (includes p (Interceptors.url details)))
    | None => None
    end
  else Some false.

Definition onBeforeSendHeaders (details : Details) : Reply :=
  match passes details with
  | None => Raised
  | Some true => Untouched
  | Some false =>
      let headers := match requestHeaders details with Some hs => hs | None => [] end in
      let newHeaders := filter (fun h => negb (isReferer h)) headers in
      RequestHeaders (newHeaders ++ [{| name := "Referer"; value := referrer |}])%list
  end.

Definition onHeadersReceived (details : Details) : Reply :=
  match passes details with
  | None => Raised
  | Some true => Untouched
  | Some false =>
      let headers := match responseHeaders details with Some hs => hs | None => [] end in
      ResponseHeaders
        (headers ++ [{| name := "Access-Control-Allow-Origin"; value := "*" |}])%list
  end.

End Closures.

End Interceptors.

(** A request of another host for the same path, with a referer of its
    own. *)
Definition mirrorRequest : Interceptors.Details :=
  {| Interceptors.url := "https://mirror.example/img/1.png?x=1";
     Interceptors.requestHeaders :=
       Some [{| Interceptors.name := "Accept"; Interceptors.value := "image/*" |};
             {| Interceptors.name := "REFERER";
                Interceptors.value := "https://mirror.example/" |}];
     Interceptors.responseHeaders := None |}.

(** A reading of [pathname] for the examples: the path of
    [https://a.example/img/1.png]. *)
Definition samplePathname (u : string) : option string :=
  if String.eqb u "https://a.example/img/1.png" then Some "/img/1.png" else None.

(* ================================================================== *)
(** * The background worker: languages *)
(* ================================================================== *)

(** The three tables of language codes and [toNllbLang].  A code is a
    string, as the popup's selects send it. *)
Module Languages.

(** What a property read [table[key]] or [toNllbLang] gives: [null],
    [undefined], a string, or a member that every object literal inherits
    from [Object.prototype]. *)
Inductive Value :=
| Null
| Undefined
| Str (s : string)
| Inherited (key : string).

Definition truthy (v : Value) : bool :=
  match v with
  | Null | Undefined => false
  | Str s => JS.truthy s
  | Inherited _ => true
  end.

(** The keys that an object literal inherits. *)
Definition objectPrototype : list string :=
  ["constructor"; "hasOwnProperty"; "isPrototypeOf"; "propertyIsEnumerable";
   "toLocaleString"; "toString"; "valueOf"; "__defineGetter__";
   "__defineSetter__"; "__lookupGetter__"; "__lookupSetter__"; "__proto__"].

Definition Table := list (string * string).

Fixpoint own (table : Table) (key : string) : option string :=
  match table with
  | [] => None
  | (k, v) :: rest => if String.eqb k key then Some v else own rest key
  end.

(** [table[key]] *)
Definition get (table : Table) (key : string) : Value :=
  match own table key with
  | Some v => Str v
  | None =>
      if existsb (String.eqb key) objectPrototype then Inherited key
      else Undefined
  end.

(** [table[v]] for a value [v]: a string is the key itself; the text of
    an inherited member (a function's source, [[object Object]]) is the
    key of no table and of no inherited member. *)
Definition getAt (table : Table) (v : Value) : Value :=
  match v with
  | Str s => get table s
  | _ => Undefined
  end.

(** [a || b] *)
Definition orElse (a b : Value) : Value := if truthy a then a else b.

Definition tesseractLangMap : Table :=
  [("en", "eng"); ("es", "spa"); ("fr", "fra"); ("it", "ita"); ("ja", "jpn");
   ("de", "deu"); ("pt", "por"); ("ru", "rus"); ("zh", "chi_sim")].

Definition langMap : Table :=
  [("eng", "eng_Latn"); ("fra", "fra_Latn"); ("ita", "ita_Latn");
   ("spa", "spa_Latn"); ("jpn", "jpn_Jpan")].

Definition uiLangToNllb : Table :=
  [("en", "eng_Latn"); ("fr", "fra_Latn"); ("it", "ita_Latn");
   ("es", "spa_Latn"); ("ja", "jpn_Jpan")].

Definition toNllbLang (code : string) : Value :=
  if negb (JS.truthy code) || String.eqb code "auto" then Null
  else if truthy (get uiLangToNllb code) then get uiLangToNllb code
  else if truthy (get langMap code) then get langMap code
  else
    let tess := get tesseractLangMap code in
    if truthy tess && truthy (getAt langMap tess) then getAt langMap tess
    else Null.

(** [tesseractLangMap[langCode] || "eng"], the language [initOCR] creates
    its worker for. *)
Definition tessLang (langCode : string) : Value :=
  orElse (get tesseractLangMap langCode) (Str "eng").

(** [toNllbLang(code) || "eng_Latn"], the language the pipeline hands to
    the translator. *)
Definition nllbLang (code : string) : Value :=
  orElse (toNllbLang code) (Str "eng_Latn").

End Languages.

(** [toNllbLang] without its third, best-effort path. *)
Definition toNllbLang_two_paths (code : string) : Languages.Value :=
  if negb (JS.truthy code) || String.eqb code "auto" then Languages.Null
  else if Languages.truthy (Languages.get Languages.uiLangToNllb code)
       then Languages.get Languages.uiLangToNllb code
  else if Languages.truthy (Languages.get Languages.langMap code)
       then Languages.get Languages.langMap code
  else Languages.Null.

(** Every key of the three tables, and [auto]. *)
Definition knownCodes : list string :=
  "auto" :: (map fst Languages.tesseractLangMap ++ map fst Languages.langMap
             ++ map fst Languages.uiLangToNllb)%list.

(* ================================================================== *)
(** * The background worker: the OCR worker *)
(* ================================================================== *)

(** [initOCR] and the two globals it keeps, [tesseractWorker] and
    [currentTesseractLang].  Calls are taken one after the other: a call
    has returned or thrown before the next one starts. *)
Module Ocr.
Import Background.

Definition value_eqb (a b : Languages.Value) : bool :=
  match a, b with
  | Languages.Null, Languages.Null => true
  | Languages.Undefined, Languages.Undefined => true
  | Languages.Str s, Languages.Str t => String.eqb s t
  | Languages.Inherited k, Languages.Inherited l => String.eqb k l
  | _, _ => false
  end.

(** A worker: which call of [Tesseract.createWorker] made it, and the
    language it was made for. *)
Record Worker := { id : nat; lang : Languages.Value }.

Inductive Event :=
| Created (w : Worker)
| Terminated (w : Worker).

(** The globals; [currentTesseractLang] starts as [null].  [made] counts
    the workers created so far and [events] records creations and
    completed terminations, in order. *)
Record Globals := {
  tesseractWorker : option Worker;
  currentTesseractLang : Languages.Value;
  made : nat;
  events : list Event }.

Definition initial : Globals :=
  {| tesseractWorker := None; currentTesseractLang := Languages.Null;
     made := 0; events := [] |}.

(** What the outside does during one call: whether
    [tesseractWorker.terminate()] resolves, should it be called, and
    whether the body of the [try] (the preflight and
    [Tesseract.createWorker]) does, should it be run.  What is thrown is
    an [Error] with the given message. *)
Record Outside := { terminate : Result unit; createWorker : Result unit }.

(** [err.message || JSON.stringify(err)] for an [Error] *)
Definition detail (message : string) : string :=
  if JS.truthy message then message else "{}".

Definition initOCR (outside : Outside) (langCode : string) (g : Globals)
  : Globals * Result Worker :=
  let tessLang := Languages.tessLang langCode in
  let stale :=
    match tesseractWorker g with
    | Some _ => negb (value_eqb (currentTesseractLang g) tessLang)
    | None => false
    end in
  let terminated : Globals * Result unit :=
    match tesseractWorker g with
    | Some w =>
        if stale then
          match terminate outside with
          | Ok _ =>
              ({| tesseractWorker := None;
                  currentTesseractLang := currentTesseractLang g;
                  made := made g;
                  events := (events g ++ [Terminated w])%list |}, Ok tt)
          | Throw e => (g, Throw e)
          end
        else (g, Ok tt)
    | None => (g, Ok tt)
    end in
  match terminated with
  | (g1, Throw e) => (g1, Throw e)
  | (g1, Ok _) =>
      match tesseractWorker g1 with
      | Some w => (g1, Ok w)
      | None =>
          match createWorker outside with
          | Ok _ =>
              let w := {| id := made g1; lang := tessLang |} in
              ({| tesseractWorker := Some w;
                  currentTesseractLang := tessLang;
                  made := S (made g1);
                  events := (events g1 ++ [Created w])%list |}, Ok w)
          | Throw e =>
              (g1, Throw ("Tesseract initialization failed: " ++ detail e))
          end
      end
  end.

(** Calls one after the other. *)
Definition after (calls : list (Outside * string)) : Globals :=
  fold_left (fun g call => fst (initOCR (fst call) (snd call) g)) calls initial.

(** The workers that were created and not terminated. *)
Definition live (evs : list Event) : list Worker :=
  fold_left
    (fun ws e =>
       match e with
       | Created w => (ws ++ [w])%list
       | Terminated w => filter (fun x => negb (id x =? id w)%nat) ws
       end)
    evs [].

Definition held (g : Globals) : list Worker :=
  match tesseractWorker g with Some w => [w] | None => [] end.

(** The invariant of the globals: the worker held is the one live
    worker, and it was made for [currentTesseractLang]. *)
Definition settled (g : Globals) : Prop :=
  live (events g) = held g
  /\ (forall w, tesseractWorker g = Some w ->
                lang w = currentTesseractLang g /\ (id w < made g)%nat).

End Ocr.

(* ================================================================== *)
(** * The background worker: loading the translation model *)
(* ================================================================== *)

(** [getTranslator], [checkModelStatus], [downloadModel] and the part of
    the message listener that calls them, as a machine whose steps are
    the stretches of code between two [await]s.  Several calls may be
    under way at once.  [ProcessImage] is the first step of
    [handleImagePipeline], its call of [getTranslator]; [ResetButton] is
    the popup's removal of the stored flag. *)
Module Model.

Inductive Status := READY | LOADING | NOT_LOADED.

(** Where the body of the promise that [getTranslator] creates waits:
    for [pipeline(...)], or for [storage.local.set]. *)
Inductive Stage := Downloading | Storing.

(** One such body: the promise it settles, whether the call that started
    it passed a [progressCallback], and where it waits. *)
Record Load := { promise : nat; forwards : bool; stage : Stage }.

(** The [DOWNLOAD_PROGRESS] messages, by their [status]: a forwarded
    progress event, [done], [error]. *)
Inductive Message :=
| Forwarded (data : string)
| DoneMsg
| ErrorMsg (error : string).

(** The globals [translator] (is it set) and [translatorPromise], the
    stored flag [model_downloaded], and what is under way: the bodies not
    yet finished, the calls of [downloadModel] that await a promise, the
    calls of [checkModelStatus] that await the storage.  [started] counts
    the calls of [pipeline(...)], [failed] the promises rejected; [sent]
    and [answered] record the messages sent and the statuses answered. *)
Record Worker := {
  translator : bool;
  translatorPromise : option nat;
  model_downloaded : bool;
  loads : list Load;
  started : nat;
  failed : nat;
  downloads : list nat;
  checks : nat;
  sent : list Message;
  answered : list Status }.

Definition initial : Worker :=
  {| translator := false; translatorPromise := None; model_downloaded := false;
     loads := []; started := 0; failed := 0; downloads := []; checks := 0;
     sent := []; answered := [] |}.

(** What [await getTranslator(...)] waits for: the translator itself, or
    a promise. *)
Inductive Awaited := Ready | Pending (p : nat).

Definition getTranslator (progressCallback : bool) (w : Worker)
  : Worker * Awaited :=
  if translator w then (w, Ready)
  else
    match translatorPromise w with
    | Some p => (w, Pending p)
    | None =>
        let p := started w in
        ({| translator := translator w;
            translatorPromise := Some p;
            model_downloaded := model_downloaded w;
            loads := (loads w ++ [{| promise := p; forwards := progressCallback;
                                     stage := Downloading |}])%list;
            started := S p;
            failed := failed w;
            downloads := downloads w;
            checks := checks w;
            sent := sent w;
            answered := answered w |}, Pending p)
    end.

Definition send (ms : list Message) (w : Worker) : Worker :=
  {| translator := translator w; translatorPromise := translatorPromise w;
     model_downloaded := model_downloaded w; loads := loads w;
     started := started w; failed := failed w; downloads := downloads w;
     checks := checks w; sent := (sent w ++ ms)%list; answered := answered w |}.

Definition answer (s : Status) (w : Worker) : Worker :=
  {| translator := translator w; translatorPromise := translatorPromise w;
     model_downloaded := model_downloaded w; loads := loads w;
     started := started w; failed := failed w; downloads := downloads w;
     checks := checks w; sent := sent w; answered := (answered w ++ [s])%list |}.

(** [downloadModel], up to its [await]. *)
Definition downloadModel (w : Worker) : Worker :=
  match getTranslator true w with
  | (w', Ready) => send [DoneMsg] w'
  | (w', Pending p) =>
      {| translator := translator w'; translatorPromise := translatorPromise w';
         model_downloaded := model_downloaded w'; loads := loads w';
         started := started w'; failed := failed w';
         downloads := (downloads w' ++ [p])%list;
         checks := checks w'; sent := sent w'; answered := answered w' |}
  end.

(** [checkModelStatus], up to its [await]. *)
Definition checkModelStatus (w : Worker) : Worker :=
  if translator w then answer READY w
  else
    {| translator := translator w; translatorPromise := translatorPromise w;
       model_downloaded := model_downloaded w; loads := loads w;
       started := started w; failed := failed w; downloads := downloads w;
       checks := S (checks w); sent := sent w; answered := answered w |}.

(** [checkModelStatus], from its [await] on. *)
Definition checkModelStatus_resumed (w : Worker) : Worker :=
  match checks w with
  | O => w
  | S n =>
      let w1 :=
        {| translator := translator w; translatorPromise := translatorPromise w;
           model_downloaded := model_downloaded w; loads := loads w;
           started := started w; failed := failed w; downloads := downloads w;
           checks := n; sent := sent w; answered := answered w |} in
      if model_downloaded w1 then answer LOADING (fst (getTranslator false w1))
      else answer NOT_LOADED w1
  end.

Definition find (p : nat) (w : Worker) : option Load :=
  List.find (fun l => (promise l =? p)%nat) (loads w).

(** The promise [p] settles: its body is over, and every call of
    [downloadModel] that awaits it goes on and sends its message. *)
Definition settle (p : nat) (m : Message) (w : Worker) : Worker :=
  {| translator := translator w; translatorPromise := translatorPromise w;
     model_downloaded := model_downloaded w;
     loads := filter (fun l => negb (promise l =? p)%nat) (loads w);
     started := started w; failed := failed w;
     downloads := filter (fun q => negb (q =? p)%nat) (downloads w);
     checks := checks w;
     sent := (sent w ++ map (fun _ => m)
                          (filter (fun q => (q =? p)%nat) (downloads w)))%list;
     answered := answered w |}.

(** The [catch] of the body: [translatorPromise = null; throw e]. *)
Definition reject (p : nat) (e : string) (w : Worker) : Worker :=
  settle p (ErrorMsg e)
    {| translator := translator w; translatorPromise := None;
       model_downloaded := model_downloaded w; loads := loads w;
       started := started w; failed := S (failed w); downloads := downloads w;
       checks := checks w; sent := sent w; answered := answered w |}.

Inductive Action :=
| ProcessImage
| DownloadModel
| CheckModelStatus
| StorageGetResolves
| StorageGetRejects
| PipelineProgress (p : nat) (data : string)
| PipelineResolves (p : nat)
| PipelineRejects (p : nat) (e : string)
| StorageSetResolves (p : nat)
| StorageSetRejects (p : nat) (e : string)
| ResetButton.

Definition step (a : Action) (w : Worker) : Worker :=
  match a with
  | ProcessImage => fst (getTranslator false w)
  | DownloadModel => downloadModel w
  | CheckModelStatus => checkModelStatus w
  | StorageGetResolves => checkModelStatus_resumed w
  | StorageGetRejects =>
      {| translator := translator w; translatorPromise := translatorPromise w;
         model_downloaded := model_downloaded w; loads := loads w;
         started := started w; failed := failed w; downloads := downloads w;
         checks := pred (checks w); sent := sent w; answered := answered w |}
  | PipelineProgress p data =>
      match find p w with
      | Some {| forwards := true; stage := Downloading |} => send [Forwarded data] w
      | _ => w
      end
  | PipelineResolves p =>
      match find p w with
      | Some {| forwards := f; stage := Downloading |} =>
          {| translator := true; translatorPromise := translatorPromise w;
             model_downloaded := model_downloaded w;
             loads := map (fun l => if (promise l =? p)%nat
                                    then {| promise := p; forwards := f;
                                            stage := Storing |}
                                    else l) (loads w);
             started := started w; failed := failed w; downloads := downloads w;
             checks := checks w; sent := sent w; answered := answered w |}
      | _ => w
      end
  | PipelineRejects p e =>
      match find p w with
      | Some {| stage := Downloading |} => reject p e w
      | _ => w
      end
  | StorageSetResolves p =>
      match find p w with
      | Some {| stage := Storing |} =>
          settle p DoneMsg
            {| translator := translator w; translatorPromise := translatorPromise w;
               model_downloaded := true; loads := loads w;
               started := started w; failed := failed w; downloads := downloads w;
               checks := checks w; sent := sent w; answered := answered w |}
      | _ => w
      end
  | StorageSetRejects p e =>
      match find p w with
      | Some {| stage := Storing |} => reject p e w
      | _ => w
      end
  | ResetButton =>
      {| translator := translator w; translatorPromise := translatorPromise w;
         model_downloaded := false; loads := loads w;
         started := started w; failed := failed w; downloads := downloads w;
         checks := checks w; sent := sent w; answered := answered w |}
  end.

Definition run (actions : list Action) (w : Worker) : Worker :=
  fold_left (fun w a => step a w) actions w.



(** What holds of the worker at every moment. *)
Definition coherent (w : Worker) : Prop :=
  match loads w with
  | [] =>
      downloads w = []
      /\ (if translator w then (started w <= S (failed w))%nat
          else translatorPromise w = None /\ started w = failed w)
  | [l] =>
      translatorPromise w = Some (promise l)
      /\ started w = S (failed w)
      /\ translator w = match stage l with Storing => true | Downloading => false end
      /\ Forall (fun q => q = promise l) (downloads w)
  | _ => False
  end.



End Model.

(* ================================================================== *)
(** * The remote variant: the boxes of the lines *)
(* ================================================================== *)

(** A line that the loop over [TextOverlay.Lines] does not skip. *)
Definition hasWords (line : RemoteBackground.OverlayLine) : bool :=
  match RemoteBackground.Words line with
  | Some (_ :: _) => true
  | _ => false
  end.

(** The word lies within the box. *)
Definition wordInside (word : RemoteBackground.OverlayWord)
           (b : Background.BBox) : Prop :=
  (Background.x0 b <= RemoteBackground.Left word
   /\ Background.y0 b <= RemoteBackground.Top word
   /\ RemoteBackground.Left word + RemoteBackground.Width word <= Background.x1 b
   /\ RemoteBackground.Top word + RemoteBackground.Height word <= Background.y1 b)%Qc.

(** Each side of the box is a side of one of the words. *)
Definition touched (words : list RemoteBackground.OverlayWord)
           (b : Background.BBox) : Prop :=
  In (Background.x0 b) (map RemoteBackground.Left words)
  /\ In (Background.y0 b) (map RemoteBackground.Top words)
  /\ In (Background.x1 b)
        (map (fun w => RemoteBackground.Left w + RemoteBackground.Width w)%Qc words)
  /\ In (Background.y1 b)
        (map (fun w => RemoteBackground.Top w + RemoteBackground.Height w)%Qc words).

(** The loop body of [lineBox]. *)
Definition grow (b : Background.BBox) (word : RemoteBackground.OverlayWord)
  : Background.BBox :=
  {| Background.x0 := JS.min (Background.x0 b) (RemoteBackground.Left word);
     Background.y0 := JS.min (Background.y0 b) (RemoteBackground.Top word);
     Background.x1 :=
       JS.max (Background.x1 b)
              (RemoteBackground.Left word + RemoteBackground.Width word)%Qc;
     Background.y1 :=
       JS.max (Background.y1 b)
              (RemoteBackground.Top word + RemoteBackground.Height word)%Qc |}.

(* ================================================================== *)
(** * The content script that redraws the image *)
(* ================================================================== *)

(** [replaceImageWithTranslation]: what is painted on the canvas, in
    order. *)
Module Canvas.
Import Background.

(** [drawImage(image, 0, 0)], [fillRect(x, y, w, h)] in the white of the
    boxes, and [fillText(text, x, y)] in black with [textAlign] and
    [textBaseline] at the centre and the font of the given size, bold or
    not. *)
Inductive Op :=
| DrawImage
| FillRect (x y w h : Qc)
| FillText (text : string) (x y : Qc) (bold : bool) (fontSize : Qc).

Definition drawBlock (block : RemoteBackground.TranslatedBlock) : list Op :=
  let b := RemoteBackground.t_bbox block in
  let width := (x1 b - x0 b)%Qc in
  let height := (y1 b - y0 b)%Qc in
  FillRect (x0 b) (y0 b) width height ::
  (if RemoteBackground.t_isVertical block then
     let fontSize := JS.max (JS.ofZ 14) (width * (JS.ofZ 6 / JS.ofZ 10))%Qc in
     [FillText (RemoteBackground.t_text block)
               (x0 b + width / JS.ofZ 2)%Qc (y0 b + height / JS.ofZ 2)%Qc
               true fontSize]
   else
     let fontSize := JS.max (JS.ofZ 12) (height * (JS.ofZ 8 / JS.ofZ 10))%Qc in
     [FillText (RemoteBackground.t_text block)
               (x0 b + width / JS.ofZ 2)%Qc (y0 b + height / JS.ofZ 2)%Qc
               false fontSize]).

Definition replaceImageWithTranslation
           (blocks : list RemoteBackground.TranslatedBlock) : list Op :=
  DrawImage :: flat_map drawBlock blocks.

End Canvas.

(** The two operations of a block: its white box and its text at the
    middle of the box, in a font of some size. *)
Definition paints (block : RemoteBackground.TranslatedBlock) (fontSize : Qc)
  : list Canvas.Op :=
  let b := RemoteBackground.t_bbox block in
  [Canvas.FillRect (Background.x0 b) (Background.y0 b)
                   (Background.x1 b - Background.x0 b)%Qc
                   (Background.y1 b - Background.y0 b)%Qc;
   Canvas.FillText (RemoteBackground.t_text block)
                   ((Background.x0 b + Background.x1 b) / JS.ofZ 2)%Qc
                   ((Background.y0 b + Background.y1 b) / JS.ofZ 2)%Qc
                   (RemoteBackground.t_isVertical block) fontSize].

(* ================================================================== *)
(** * The script that copies the libraries into the extension *)
(* ================================================================== *)

(** [scripts/copy-extension-assets.mjs].  A path is the list of its
    segments, [path.join] of plain segments their concatenation. *)
Module CopyAssets.
Import Background.

Definition Path := list string.

Record Asset := { from : Path; to : Path }.

Definition ASSETS : list Asset :=
  [ {| from := ["node_modules"; "tesseract.js"; "dist"; "tesseract.min.js"];
       to := ["extension"; "lib"; "tesseract.min.js"] |};
    {| from := ["node_modules"; "tesseract.js"; "dist"; "tesseract.esm.min.js"];
       to := ["extension"; "lib"; "tesseract.esm.min.js"] |};
    {| from := ["node_modules"; "tesseract.js"; "dist"; "worker.min.js"];
       to := ["extension"; "lib"; "worker.min.js"] |};
    {| from := ["node_modules"; "tesseract.js-core"; "tesseract-core.wasm.js"];
       to := ["extension"; "lib"; "tesseract-core.wasm.js"] |};
    {| from := ["node_modules"; "tesseract.js-core"; "tesseract-core.wasm"];
       to := ["extension"; "lib"; "tesseract-core.wasm"] |};
    {| from := ["node_modules"; "@xenova"; "transformers"; "dist";
                "transformers.min.js"];
       to := ["extension"; "lib"; "transformers.min.js"] |};
    {| from := ["node_modules"; "@xenova"; "transformers"; "dist"; "ort-wasm.wasm"];
       to := ["extension"; "lib"; "ort-wasm.wasm"] |};
    {| from := ["node_modules"; "@xenova"; "transformers"; "dist";
                "ort-wasm-simd.wasm"];
       to := ["extension"; "lib"; "ort-wasm-simd.wasm"] |};
    {| from := ["node_modules"; "@xenova"; "transformers"; "dist";
                "ort-wasm-threaded.wasm"];
       to := ["extension"; "lib"; "ort-wasm-threaded.wasm"] |};
    {| from := ["node_modules"; "@xenova"; "transformers"; "dist";
                "ort-wasm-simd-threaded.wasm"];
       to := ["extension"; "lib"; "ort-wasm-simd-threaded.wasm"] |} ].

(** What a run leaves: the copies made, as source and destination, the
    sources reported missing, and [process.exitCode] (0: not set). *)
Record Report := {
  copied : list (Path * Path);
  missing : list Path;
  exitCode : nat }.

Section Main.

(** [process.cwd()] *)
Variable repoRoot : Path.

(** The file system: does [access] resolve, and what [mkdir] and
    [copyFile] do. *)
Variable access : Path -> bool.
Variable mkdir : Path -> Result unit.
Variable copyFile : Path -> Path -> Result unit.

Definition extensionLibDir : Path := (repoRoot ++ ["extension"; "lib"])%list.

Definition resolveFrom (parts : Path) : Path := (repoRoot ++ parts)%list.

Definition ensureReadable (filePath : Path) : bool := access filePath.

(** [path.dirname] *)
Definition dirname (p : Path) : Path := removelast p.

(** The loop over the assets. *)
Fixpoint copyEach (assets : list Asset) (copied : list (Path * Path))
         (missing : list Path) : Result (list (Path * Path) * list Path) :=
  match assets with
  | [] => Ok (copied, missing)
  | asset :: rest =>
      let src := resolveFrom (from asset) in
      let dst := resolveFrom (to asset) in
      if negb (ensureReadable src) then copyEach rest copied (missing ++ [src])%list
      else
        match mkdir (dirname dst) with
        | Throw e => Throw e
        | Ok _ =>
            match copyFile src dst with
            | Throw e => Throw e
            | Ok _ => copyEach rest (copied ++ [(src, dst)])%list missing
            end
        end
  end.

Definition main : Result Report :=
  match mkdir extensionLibDir with
  | Throw e => Throw e
  | Ok _ =>
      match copyEach ASSETS [] [] with
      | Throw e => Throw e
      | Ok (copied, missing) =>
          Ok {| copied := copied; missing := missing;
                exitCode := if (List.length missing =? 0)%nat then 0 else 1 |}
      end
  end.

(** An asset whose source can be read. *)
Definition present (asset : Asset) : bool :=
  ensureReadable (resolveFrom (from asset)).

End Main.

End CopyAssets.

(* ================================================================== *)
(** * The remote variant: compressing the image *)
(* ================================================================== *)

(** [compressImage].  The quality is a binary64 number, as in the
    program, since the loop compares what repeated subtraction of [0.1]
    leaves; sizes are integers. *)
Set Warnings "-inexact-float".

Module Compress.
Import Background.

(** The canvas that is encoded: the one of the bitmap's size, or the
    resized one. *)
Inductive Canvas :=
| Full
| Resized (newWidth newHeight : Z).

(** One call of [convertToBlob({ type: "image/jpeg", quality })]. *)
Record Encoding := { canvas : Canvas; quality : float }.

Definition MAX_SIZE : Z := 1024 * 1024.

Section CompressImage.

Variable Blob : Type.
Variable size : Blob -> Z.

(** [createImageBitmap(blob)], as width and height, and
    [convertToBlob] on a canvas that holds the bitmap. *)
Variable createImageBitmap : Blob -> Result (Z * Z).
Variable convertToBlob : Canvas -> float -> Result Blob.

(** [Math.floor(dimension * Math.sqrt(MAX_SIZE / size))] *)
Variable floorScaled : Z -> Z -> Z.

(** The [while] loop, entered with the current [quality] and
    [compressedBlob]: the encodings made, and how it ends ([None]: the
    [fuel] did not suffice). *)
Fixpoint reduce (fuel : nat) (quality : float) (compressedBlob : Blob)
  : list Encoding * option (Result Blob) :=
  if (MAX_SIZE <? size compressedBlob)%Z && PrimFloat.ltb 0.1 quality then
    match fuel with
    | O => ([], None)
    | S fuel' =>
        let quality' := PrimFloat.sub quality 0.1 in
        match convertToBlob Full quality' with
        | Throw e => ([{| canvas := Full; quality := quality' |}], Some (Throw e))
        | Ok blob' =>
            let (encodings, r) := reduce fuel' quality' blob' in
            ({| canvas := Full; quality := quality' |} :: encodings, r)
        end
    end
  else ([], Some (Ok compressedBlob)).

Definition compressImage (fuel : nat) (blob : Blob)
  : list Encoding * option (Result Blob) :=
  if (size blob <=? MAX_SIZE)%Z then ([], Some (Ok blob))
  else
    match createImageBitmap blob with
    | Throw e => ([], Some (Throw e))
    | Ok (width, height) =>
        let first := {| canvas := Full; quality := 0.9 |} in
        match convertToBlob Full 0.9 with
        | Throw e => ([first], Some (Throw e))
        | Ok compressedBlob =>
            match reduce fuel 0.9 compressedBlob with
            | (encodings, Some (Ok compressedBlob)) =>
                if (MAX_SIZE <? size compressedBlob)%Z then
                  let canvas :=
                    Resized (floorScaled width (size compressedBlob))
                            (floorScaled height (size compressedBlob)) in
                  let last := {| canvas := canvas; quality := 0.7 |} in
                  ((first :: encodings) ++ [last],
                   Some (convertToBlob canvas 0.7))%list
                else (first :: encodings, Some (Ok compressedBlob))
            | (encodings, r) => (first :: encodings, r)
            end
        end
    end.

End CompressImage.

(** The qualities the loop can reach: [0.9] and what subtracting [0.1]
    nine times leaves, one after the other. *)
Fixpoint rungs (n : nat) (quality : float) : list float :=
  match n with
  | O => []
  | S n' => quality :: rungs n' (PrimFloat.sub quality 0.1)
  end.

Definition ladder : list float := rungs 10 0.9.

Definition isFull (e : Encoding) : bool :=
  match canvas e with Full => true | Resized _ _ => false end.

End Compress.

(* ================================================================== *)
(** * The remote variant: the whole pipeline *)
(* ================================================================== *)

(** [callOcrApi], [callDeepLApi] and [handleImagePipeline] of the variant
    that calls the remote services. *)
Module RemotePipeline.
Import Background RemoteBackground.
Local Open Scope async_scope.

(** The answer of the OCR service as the pipeline reads it:
    [IsErroredOnProcessing], [ErrorMessage?.[0]], and
    [ParsedResults?.[0]] with its [TextOverlay] and the overlay's
    [Lines], each possibly absent. *)
Record Overlay := { Lines : option (list OverlayLine) }.
Record ParsedResult := { TextOverlay : option Overlay }.
Record OcrAnswer := {
  IsErroredOnProcessing : bool;
  ErrorMessage : option string;
  ParsedResults : option ParsedResult }.

(** The response of the translation service: [ok], [status], and what
    [json()] settles with, read at [.translations]. *)
Record DeepLResponse := {
  d_ok : bool; d_status : nat; d_json : Result (option (list string)) }.

(** The object the pipeline returns, each field possibly absent. *)
Record PipelineResult := {
  success : bool;
  originalSrc : option string;
  blocks : option (list TranslatedBlock);
  imgWidth : option Z;
  imgHeight : option Z;
  base64Image : option string;
  error : option string }.

(** [{ success: true, blocks: [], imgWidth: 0, imgHeight: 0 }] *)
Definition noText : PipelineResult :=
  {| success := true; originalSrc := None; blocks := Some [];
     imgWidth := Some 0%Z; imgHeight := Some 0%Z;
     base64Image := None; error := None |}.

(** The collaborators of one run and what they answer. *)
Record World := {
  network : Network;
  compressImage : Blob -> Result Blob;
  blobToBase64 : Blob -> Result string;
  ocrService : Result OcrAnswer;
  translationService : list string -> Result DeepLResponse;
  createImageBitmap : Blob -> Result (Z * Z) }.

Section Pipeline.

Variable world : World.

(** The message of the [TypeError] that [for (const line of lines)]
    throws when [lines] is [undefined]. *)
Variable notIterable : string.

Definition callOcrApi : Async OcrAnswer :=
  data <- await (ocrService world) ;;
  if IsErroredOnProcessing data then
    throw (match ErrorMessage data with
           | Some e => if JS.truthy e then e else "OCR API Error"
           | None => "OCR API Error"
           end)
  else ret data.

Definition callDeepLApi (texts : list string) : Async (option (list string)) :=
  response <- await (translationService world texts) ;;
  if negb (d_ok response)
  then throw ("DeepL API Error: " ++ showNat (d_status response))
  else await (d_json response).

(** The direct fetch written out in [handleImagePipeline]. *)
Definition fetchDirect : Async Blob :=
  emit (Tried Direct) ;;;
  response <- await (directFetch (network world)) ;;
  if negb (ok response) then throw "Fetch failed"
  else await (blob response).

(** Step 1 of [handleImagePipeline]: the nested [try]/[catch] that
    binds [blob]. *)
Definition fetchImage (src pageUrl : string) (tabId : nat) : Async Blob :=
  tryCatch (Background.fetchImageWithReferrer (network world) src pageUrl)
    (fun e =>
       tryCatch fetchDirect
         (fun directErr =>
            Background.fetchImageViaContent (network world) tabId src)).

Definition handleImagePipeline (msg : Message) (tabId : nat)
  : Async PipelineResult :=
  tryCatch
    (blob <- fetchImage (src msg) (pageUrl msg) tabId ;;
     blob <- await (compressImage world blob) ;;
     base64 <- await (blobToBase64 world blob) ;;
     ocrResult <- callOcrApi ;;
     match ParsedResults ocrResult with
     | None => ret noText
     | Some parsedResults =>
         match TextOverlay parsedResults with
         | None => ret noText
         | Some overlay =>
             match Lines overlay with
             | None => throw notIterable
             | Some lines =>
                 let blocks := blocksOfLines lines in
                 if (List.length blocks =? 0)%nat then ret noText
                 else
                   let textsToTranslate := map text blocks in
                   emit (TranslatedBatch textsToTranslate) ;;;
                   translations <- callDeepLApi textsToTranslate ;;
                   match translations with
                   | None => throw "Translation count mismatch"
                   | Some translations =>
                       if negb (List.length translations
                                =? List.length blocks)%nat
                       then throw "Translation count mismatch"
                       else
                         let translatedBlocks := pair blocks translations in
                         bitmap <- await (createImageBitmap world blob) ;;
                         ret {| success := true;
                                originalSrc := Some (src msg);
                                blocks := Some translatedBlocks;
                                imgWidth := Some (fst bitmap);
                                imgHeight := Some (snd bitmap);
                                base64Image := Some base64;
                                error := None |}
                   end
             end
         end
     end)
    (fun e =>
       ret {| success := false; originalSrc := None; blocks := None;
              imgWidth := None; imgHeight := None; base64Image := None;
              error := Some e |}).

End Pipeline.

(** The lines of the answer, when it has any. *)
Definition linesOf (a : OcrAnswer) : option (list OverlayLine) :=
  match ParsedResults a with
  | Some {| TextOverlay := Some {| Lines := Some lines |} |} => Some lines
  | _ => None
  end.

(** [{ success: false, error }] *)
Definition failure (e : string) : PipelineResult :=
  {| success := false; originalSrc := None; blocks := None;
     imgWidth := None; imgHeight := None; base64Image := None;
     error := Some e |}.

(** The calls of the translation service among the events. *)
Definition batches (events : list Event) : list (list string) :=
  flat_map (fun e => match e with TranslatedBatch texts => [texts] | _ => [] end)
           events.

End RemotePipeline.

(* ================================================================== *)
(** * Properties *)
(* ================================================================== *)

(** ** Numbers and strings *)

Lemma ltb_lt (a b : Qc) : JS.ltb a b = true <-> (a < b)%Qc.
Proof.
  unfold JS.ltb. rewrite Qclt_alt.
  destruct (a ?= b)%Qc; split; intro H; congruence.
Qed.

Lemma ltb_ge (a b : Qc) : JS.ltb a b = false <-> (b <= a)%Qc.
Proof.
  split; intro H.
  - apply Qcnot_lt_le. intro L. apply ltb_lt in L. congruence.
  - destruct (JS.ltb a b) eqn:E; [|reflexivity].
    apply ltb_lt in E. exfalso. exact (Qcle_not_lt _ _ H E).
Qed.

Lemma leb_le (a b : Qc) : JS.leb a b = true <-> (a <= b)%Qc.
Proof.
  unfold JS.leb. rewrite Qcle_alt.
  destruct (a ?= b)%Qc; split; intro H; congruence.
Qed.

Lemma eqb_eq (a b : Qc) : JS.eqb a b = true <-> a = b.
Proof.
  unfold JS.eqb. rewrite Qceq_alt.
  destruct (a ?= b)%Qc; split; intro H; congruence.
Qed.

Lemma indexOf_absent (a : list string) (x : string) :
  ~ In x a -> JS.indexOf a x = (-1)%Z.
Proof.
  induction a as [|y a IH]; intro H; simpl.
  - reflexivity.
  - destruct (String.eqb y x) eqn:E.
    + apply String.eqb_eq in E. exfalso. apply H. left. exact E.
    + rewrite IH by (intro K; apply H; right; exact K). reflexivity.
Qed.

Lemma indexOf_range (a : list string) (x : string) :
  (-1 <= JS.indexOf a x < Z.of_nat (List.length a))%Z.
Proof.
  induction a as [|y a IH]; simpl List.length; simpl JS.indexOf.
  - lia.
  - destruct (String.eqb y x); [lia|].
    destruct (Z.eqb_spec (JS.indexOf a x) (-1)); lia.
Qed.

(** ** Normalizer: a header without a required column *)

Lemma missing_column (header : list string) (name : string) :
  In name Background.requiredColumns -> ~ In name header ->
  Background.someMissing (Background.locate header) = true.
Proof.
  intros Hreq Habs.
  pose proof (indexOf_absent header name Habs) as E.
  unfold Background.requiredColumns in Hreq. simpl in Hreq.
  unfold Background.someMissing, Background.locate; cbn [existsb
    Background.levelIdx Background.pageIdx Background.blockIdx
    Background.parIdx Background.lineIdx Background.wordIdx
    Background.leftIdx Background.topIdx Background.widthIdx
    Background.heightIdx Background.confIdx Background.textIdx].
  repeat (destruct Hreq as [<-|Hreq];
          [rewrite E; cbn; rewrite ?orb_true_r; reflexivity|]).
  contradiction.
Qed.

(** C8.  A table whose header row lacks one of the twelve required
    columns ([level], [page_num], [block_num], [par_num], [line_num],
    [word_num], [left], [top], [width], [height], [conf], [text])
    normalizes to the empty sequence of line blocks, whatever its rows,
    the joiner and the reading of numbers. *)
Theorem missing_column_yields_nothing
        (Number : string -> option Qc) (tsv joiner name : string) :
  In name Background.requiredColumns ->
  ~ In name (Background.headerOf tsv) ->
  Background.parseTsvToLineBlocks Number (Some tsv) joiner = [].
Proof.
  intros Hreq Habs.
  unfold Background.parseTsvToLineBlocks.
  destruct (negb (JS.truthy tsv)); [reflexivity|].
  destruct (List.length (Background.rowsOf tsv) <? 2)%nat; [reflexivity|].
  rewrite (missing_column _ _ Hreq Habs). reflexivity.
Qed.

Lemma missing_column_yields_nothing_witness :
  Background.parseTsvToLineBlocks Numeral.Number (Some noConfTable) " " = [].
Proof.
  apply (missing_column_yields_nothing Numeral.Number noConfTable " " "conf").
  - unfold Background.requiredColumns. simpl. tauto.
  - vm_compute. intro H.
    repeat (destruct H as [H|H]; [discriminate H|]). exact H.
Defined.

(** ** Fetch resolver *)

Section FetchResolver.
Import Background.

Lemma appended_app (b b' : Browser) (es : list Event) :
  trace b' = (trace b ++ es)%list -> appended b b' = es.
Proof.
  intro H. unfold appended. rewrite H.
  rewrite skipn_app, skipn_all, Nat.sub_diag. reflexivity.
Qed.

Ltac step_async :=
  unfold fetchImage, fetchImageWithReferrer, fetchDirect, fetchImageViaContent,
    tryCatch, tryFinally, bind, await, emit, ret, throw, newListener,
    addListener, removeListener;
  cbn [fst snd trace onBeforeSendHeaders onHeadersReceived nextClosure].

(** The outcome of a tier does not depend on the browser it starts in. *)
Lemma first_tier_outcome net url referrer b b' :
  snd (fetchImageWithReferrer net url referrer b)
  = snd (fetchImageWithReferrer net url referrer b').
Proof.
  step_async.
  destruct (JS.truthy referrer); cbn [negb];
    destruct (firstFetch net) as [[[] st stt [bl|e]]|e]; reflexivity.
Qed.

Lemma first_tier_trace net url referrer b :
  trace (fst (fetchImageWithReferrer net url referrer b))
  = (trace b ++ [Tried ReferrerSpoofed])%list.
Proof.
  step_async.
  destruct (JS.truthy referrer); cbn [negb];
    destruct (firstFetch net) as [[[] st stt [bl|e]]|e]; reflexivity.
Qed.

Lemma direct_tier net src b :
  fetchDirect net src b
  = ({| onBeforeSendHeaders := onBeforeSendHeaders b;
        onHeadersReceived := onHeadersReceived b;
        nextClosure := nextClosure b;
        trace := (trace b ++ [Tried Direct])%list |},
     snd (fetchDirect net src b)).
Proof.
  step_async. destruct (directFetch net) as [response|e]; cbn; [|reflexivity].
  destruct (negb (ok response)); cbn; [reflexivity|].
  destruct (blob response); reflexivity.
Qed.

Lemma direct_tier_outcome net src b b' :
  snd (fetchDirect net src b) = snd (fetchDirect net src b').
Proof.
  step_async. destruct (directFetch net) as [response|e]; cbn; [|reflexivity].
  destruct (negb (ok response)); cbn; [reflexivity|].
  destruct (blob response); reflexivity.
Qed.

Lemma relayed_tier net tabId url b :
  fetchImageViaContent net tabId url b
  = ({| onBeforeSendHeaders := onBeforeSendHeaders b;
        onHeadersReceived := onHeadersReceived b;
        nextClosure := nextClosure b;
        trace := (trace b ++ [Tried Relayed])%list |},
     snd (fetchImageViaContent net tabId url b)).
Proof.
  step_async. destruct (relay net) as [[[[] [buffer|] err]|]|e]; reflexivity.
Qed.

Lemma relayed_tier_outcome net tabId url b b' :
  snd (fetchImageViaContent net tabId url b)
  = snd (fetchImageViaContent net tabId url b').
Proof.
  step_async. destruct (relay net) as [[[[] [buffer|] err]|]|e]; reflexivity.
Qed.

(** What [fetchImage] does, tier by tier. *)
Lemma fetchImage_run net src pageUrl tabId b :
  let run := fetchImage net src pageUrl tabId b in
  match snd (fetchImageWithReferrer net src pageUrl b),
        snd (fetchDirect net src b) with
  | Ok blob, _ =>
      appended b (fst run) = [Tried ReferrerSpoofed] /\ snd run = Ok blob
  | Throw _, Ok blob =>
      appended b (fst run) = [Tried ReferrerSpoofed; Tried Direct]
      /\ snd run = Ok blob
  | Throw _, Throw _ =>
      appended b (fst run)
      = [Tried ReferrerSpoofed; Tried Direct; Tried Relayed]
      /\ snd run = snd (fetchImageViaContent net tabId src b)
  end.
Proof.
  intro run. subst run.
  pose proof (first_tier_trace net src pageUrl b) as T1.
  unfold fetchImage, tryCatch.
  destruct (fetchImageWithReferrer net src pageUrl b) as [b1 r1] eqn:E1.
  cbn [fst snd] in *.
  destruct r1 as [blob|e1].
  - split; [|reflexivity]. apply appended_app. exact T1.
  - rewrite (direct_tier_outcome net src b b1).
    rewrite (direct_tier net src b1).
    destruct (snd (fetchDirect net src b1)) as [blob|e2]; cbn [fst snd].
    + split; [|reflexivity]. apply appended_app. cbn [trace].
      rewrite T1, <- app_assoc. reflexivity.
    + rewrite relayed_tier. cbn [fst snd]. split.
      * apply appended_app. cbn [trace].
        rewrite T1, <- !app_assoc. reflexivity.
      * apply relayed_tier_outcome.
Qed.

Lemma remove_fresh (n : nat) (installed : list Listener) (l : Listener) :
  Forall (fun l' => (closure l' < n)%nat) installed ->
  (n <= closure l)%nat ->
  filter (fun l' => negb (sameListener l l')) (installed ++ [l])%list
  = installed.
Proof.
  intros Hold Hnew. unfold sameListener.
  induction Hold as [|x rest Hx _ IH]; cbn.
  - rewrite Nat.eqb_refl. reflexivity.
  - destruct (Nat.eqb_spec (closure l) (closure x)) as [E|_]; [lia|].
    cbn. rewrite IH. reflexivity.
Qed.

Lemma spoofed_fetch_listeners net url referrer b :
  createdBefore b ->
  let b' := fst (fetchImageWithReferrer net url referrer b) in
  onBeforeSendHeaders b' = onBeforeSendHeaders b
  /\ onHeadersReceived b' = onHeadersReceived b
  /\ (nextClosure b <= nextClosure b')%nat.
Proof.
  intros [H1 H2]. step_async.
  destruct (JS.truthy referrer); cbn [negb];
    destruct (firstFetch net) as [[[] st stt [bl|e]]|e];
    cbn [fst snd trace onBeforeSendHeaders onHeadersReceived nextClosure
         ok blob negb];
    repeat split; try lia; try reflexivity.
  all: solve [ apply (remove_fresh (nextClosure b)); [assumption | cbn; lia] ].
Qed.

Lemma spoofed_fetch_createdBefore net url referrer b :
  createdBefore b -> createdBefore (fst (fetchImageWithReferrer net url referrer b)).
Proof.
  intro H. destruct (spoofed_fetch_listeners net url referrer b H) as (E1 & E2 & Hn).
  destruct H as [H1 H2]. unfold createdBefore. rewrite E1, E2.
  cbv zeta in Hn.
  split; [eapply Forall_impl; [|exact H1] | eapply Forall_impl; [|exact H2]];
    intros a Ha; (eapply Nat.lt_le_trans; [exact Ha | exact Hn]).
Qed.

Lemma pipeline_fetch_failure Number world msg tabId b b1 e u :
  getTranslator world = Ok u ->
  fetchImage (network world) (src msg) (pageUrl msg) tabId b = (b1, Throw e) ->
  handleImagePipeline Number world msg tabId b
  = (b1, Throw ("[Fetching Image] "
                ++ (if JS.truthy e then e else "Unknown error"))).
Proof.
  intros Hg Hf.
  cbv beta iota delta [handleImagePipeline bind atStep tryCatch await throw].
  rewrite Hg. cbv beta iota. rewrite Hf. reflexivity.
Qed.

End FetchResolver.

(** C2.  The fetch resolver tries the tiers in the order referrer-spoofed,
    direct, relayed, and a tier is tried only when the ones before it
    have failed: the relayed tier runs once, after the other two, its
    outcome is then the outcome of the resolver, and when it fails too the
    pipeline fails with that error under the step [Fetching Image], each
    tier having been tried exactly once. *)
Theorem fetch_fallback
        (Number : string -> option Qc) (world : Background.World)
        (msg : Background.Message) (tabId : nat) (b : Background.Browser) :
  let net := Background.network world in
  let src := Background.src msg in
  let first := snd (Background.fetchImageWithReferrer net src (Background.pageUrl msg) b) in
  let second := snd (Background.fetchDirect net src b) in
  let third := snd (Background.fetchImageViaContent net tabId src b) in
  let resolver := Background.fetchImage net src (Background.pageUrl msg) tabId b in
  let pipeline := Background.handleImagePipeline Number world msg tabId b in
  match first, second with
  | Background.Ok blob, _ =>
      appended b (fst resolver) = [Background.Tried Background.ReferrerSpoofed]
      /\ snd resolver = Background.Ok blob
  | Background.Throw _, Background.Ok blob =>
      appended b (fst resolver)
      = [Background.Tried Background.ReferrerSpoofed;
         Background.Tried Background.Direct]
      /\ snd resolver = Background.Ok blob
  | Background.Throw _, Background.Throw _ =>
      appended b (fst resolver)
      = [Background.Tried Background.ReferrerSpoofed;
         Background.Tried Background.Direct;
         Background.Tried Background.Relayed]
      /\ snd resolver = third
      /\ match Background.getTranslator world, third with
         | Background.Ok _, Background.Throw e =>
             appended b (fst pipeline)
             = [Background.Tried Background.ReferrerSpoofed;
                Background.Tried Background.Direct;
                Background.Tried Background.Relayed]
             /\ snd pipeline
                = Background.Throw
                    ("[Fetching Image] "
                     ++ (if JS.truthy e then e else "Unknown error"))
         | _, _ => True
         end
  end.
Proof.
  intros net src first second third resolver pipeline.
  pose proof (fetchImage_run net src (Background.pageUrl msg) tabId b) as H.
  cbv zeta in H. fold first second third resolver in H.
  destruct first as [blob|e1]; [exact H|].
  destruct second as [blob|e2]; [exact H|].
  destruct H as [Ht Hr]. split; [exact Ht|]. split; [exact Hr|].
  destruct (Background.getTranslator world) as [u|e0] eqn:Eg; [|exact I].
  destruct third as [blob|e3] eqn:E3; [exact I|].
  subst pipeline.
  destruct resolver as [b1 r1] eqn:Er. cbn [fst snd] in *. subst r1.
  rewrite (pipeline_fetch_failure Number world msg tabId b b1 e3 u Eg Er).
  cbn [fst snd]. split; [exact Ht|reflexivity].
Qed.

(** With every tier failing, the pipeline ends in the error of the relay
    under the step [Fetching Image], after one try of each tier. *)
Example all_tiers_fail (world : Background.World) :
  Background.network world = hostileNetwork ->
  Background.getTranslator world = Background.Ok tt ->
  let msg := {| Background.src := "https://a.example/1.png";
                Background.pageUrl := "https://a.example/";
                Background.sourceLang := "ja"; Background.targetLang := "en" |} in
  let out := Background.handleImagePipeline Numeral.Number world msg 7
               Background.freshBrowser in
  Background.trace (fst out)
  = [Background.Tried Background.ReferrerSpoofed;
     Background.Tried Background.Direct;
     Background.Tried Background.Relayed]
  /\ snd out = Background.Throw "[Fetching Image] HTTP 403".
Proof.
  intros Hn Hg msg out. subst out.
  unfold Background.handleImagePipeline, Background.atStep, Background.bind,
    Background.tryCatch, Background.await.
  rewrite Hg, Hn. vm_compute. split; reflexivity.
Qed.

(** C10.  A referrer-spoofed fetch with a non-empty referrer leaves the
    listeners of [onBeforeSendHeaders] and of [onHeadersReceived] as it
    found them, whatever the fetch does (a response that is ok, one that
    is not, a rejected fetch, a body that cannot be read): the two
    listeners it installs are removed again. *)
Theorem interceptors_removed
        (net : Background.Network) (url referrer : string)
        (b : Background.Browser) :
  JS.truthy referrer = true ->
  createdBefore b ->
  let b' := fst (Background.fetchImageWithReferrer net url referrer b) in
  Background.onBeforeSendHeaders b' = Background.onBeforeSendHeaders b
  /\ Background.onHeadersReceived b' = Background.onHeadersReceived b.
Proof.
  intros _ H b'.
  destruct (spoofed_fetch_listeners net url referrer b H) as (E1 & E2 & _).
  split; assumption.
Qed.

Lemma interceptors_removed_witness :
  let b' := fst (Background.fetchImageWithReferrer hostileNetwork
                   "https://b.example/2.png" "https://b.example/" busyBrowser) in
  Background.onBeforeSendHeaders b' = Background.onBeforeSendHeaders busyBrowser
  /\ Background.onHeadersReceived b' = Background.onHeadersReceived busyBrowser.
Proof.
  apply (interceptors_removed hostileNetwork "https://b.example/2.png"
           "https://b.example/" busyBrowser).
  - reflexivity.
  - unfold createdBefore, busyBrowser; cbn. split; repeat constructor.
Defined.

(** ** Confidence filter and translation loop *)

Section TranslationLoop.
Import Background.

Variable world : World.

Ltac loop_step :=
  cbv beta iota delta [bind emit await ret throw];
  cbn [fst snd trace onBeforeSendHeaders onHeadersReceived nextClosure
       skippedLowConfidence skippedNoText skippedNoBbox translatedLogged
       translatedBlocks].

(** What one block makes of the loop, by its verdict. *)
Lemma translateBlocks_cons block rest t b :
  translateBlocks world (block :: rest) t b
  = match verdict block with
    | LowConfidence =>
        translateBlocks world rest
          {| skippedLowConfidence := S (skippedLowConfidence t);
             skippedNoText := skippedNoText t;
             skippedNoBbox := skippedNoBbox t;
             translatedLogged := translatedLogged t;
             translatedBlocks := translatedBlocks t |} b
    | NoText =>
        translateBlocks world rest
          {| skippedLowConfidence := skippedLowConfidence t;
             skippedNoText := S (skippedNoText t);
             skippedNoBbox := skippedNoBbox t;
             translatedLogged := translatedLogged t;
             translatedBlocks := translatedBlocks t |} b
    | NoBbox => translateBlocks world rest t b
    | Survives text bbox =>
        let b1 :=
          {| onBeforeSendHeaders := onBeforeSendHeaders b;
             onHeadersReceived := onHeadersReceived b;
             nextClosure := nextClosure b;
             trace := (trace b ++ [Translated text])%list |} in
        match translatorPipe world text with
        | Ok translatedText =>
            translateBlocks world rest
              {| skippedLowConfidence := skippedLowConfidence t;
                 skippedNoText := skippedNoText t;
                 skippedNoBbox := skippedNoBbox t;
                 translatedLogged :=
                   if (translatedLogged t <? 10)%nat
                   then S (translatedLogged t) else translatedLogged t;
                 translatedBlocks :=
                   (translatedBlocks t
                    ++ [{| t_text := translatedText; t_original := text;
                           t_bbox := bbox |}])%list |} b1
        | Throw e => (b1, Throw e)
        end
    end.
Proof.
  cbn [translateBlocks]. unfold verdict, confidenceOf.
  destruct (ob_confidence block) as [c|]; [|destruct (ob_conf block) as [c|]].
  all: match goal with
       | |- context [JS.ltb ?c MIN_CONFIDENCE] =>
           destruct (JS.ltb c MIN_CONFIDENCE); [reflexivity|]
       end.
  all: destruct (JS.trim match ob_text block with Some s => s | None => "" end)
         as [|ch text']; cbn [JS.truthy negb]; [reflexivity|].
  all: destruct (ob_bbox block) as [bbox|]; [|reflexivity].
  all: loop_step; destruct (translatorPipe world (String ch text')); reflexivity.
Qed.

Lemma translateBlocks_spec blocks : forall t b,
  let out := translateBlocks world blocks t b in
  onBeforeSendHeaders (fst out) = onBeforeSendHeaders b
  /\ onHeadersReceived (fst out) = onHeadersReceived b
  /\ nextClosure (fst out) = nextClosure b
  /\ match snd out with
     | Ok t' =>
         trace (fst out)
         = (trace b ++ map Translated (map fst (survivors blocks)))%list
         /\ skippedLowConfidence t'
            = (skippedLowConfidence t + dropped isLowConfidence blocks)%nat
         /\ skippedNoText t' = (skippedNoText t + dropped isNoText blocks)%nat
         /\ skippedNoBbox t' = skippedNoBbox t
         /\ exists new,
             translatedBlocks t' = (translatedBlocks t ++ new)%list
             /\ Forall2 (answers world) (survivors blocks) new
     | Throw _ =>
         exists k,
           trace (fst out)
           = (trace b
              ++ map Translated (firstn k (map fst (survivors blocks))))%list
     end.
Proof.
  induction blocks as [|block rest IH]; intros t b out; subst out.
  - cbn. repeat split; try (rewrite ?app_nil_r, ?Nat.add_0_r; reflexivity).
    exists []. rewrite app_nil_r. split; [reflexivity|constructor].
  - rewrite translateBlocks_cons.
    unfold dropped. cbn [survivors filter].
    destruct (verdict block) as [| | |text bbox] eqn:V;
      cbn [isLowConfidence isNoText isNoBbox List.length].
    + specialize (IH {| skippedLowConfidence := S (skippedLowConfidence t);
                        skippedNoText := skippedNoText t;
                        skippedNoBbox := skippedNoBbox t;
                        translatedLogged := translatedLogged t;
                        translatedBlocks := translatedBlocks t |} b).
      cbv zeta in IH. destruct IH as (E1 & E2 & E3 & IH).
      repeat (split; [assumption|]).
      destruct (snd (translateBlocks world rest _ b)) as [t'|e]; [|exact IH].
      cbn [skippedLowConfidence skippedNoText skippedNoBbox translatedBlocks] in IH.
      destruct IH as (T & L & N & B & new & Hnew & Hall).
      unfold dropped in L, N.
      repeat split; try assumption; try lia. exists new. split; assumption.
    + specialize (IH {| skippedLowConfidence := skippedLowConfidence t;
                        skippedNoText := S (skippedNoText t);
                        skippedNoBbox := skippedNoBbox t;
                        translatedLogged := translatedLogged t;
                        translatedBlocks := translatedBlocks t |} b).
      cbv zeta in IH. destruct IH as (E1 & E2 & E3 & IH).
      repeat (split; [assumption|]).
      destruct (snd (translateBlocks world rest _ b)) as [t'|e]; [|exact IH].
      cbn [skippedLowConfidence skippedNoText skippedNoBbox translatedBlocks] in IH.
      destruct IH as (T & L & N & B & new & Hnew & Hall).
      unfold dropped in L, N.
      repeat split; try assumption; try lia. exists new. split; assumption.
    + specialize (IH t b). cbv zeta in IH. destruct IH as (E1 & E2 & E3 & IH).
      repeat (split; [assumption|]).
      destruct (snd (translateBlocks world rest t b)) as [t'|e]; [|exact IH].
      destruct IH as (T & L & N & B & new & Hnew & Hall).
      unfold dropped in L, N.
      repeat split; try assumption. exists new. split; assumption.
    + cbv zeta.
      destruct (translatorPipe world text) as [translatedText|e] eqn:P.
      * match goal with
        | |- context [translateBlocks world rest ?t1 ?b1] =>
            specialize (IH t1 b1)
        end.
        cbv zeta in IH. cbn [onBeforeSendHeaders onHeadersReceived nextClosure
                             trace] in IH.
        destruct IH as (E1 & E2 & E3 & IH).
        repeat (split; [assumption|]).
        match goal with
        | |- match snd ?x with _ => _ end => destruct (snd x) as [t'|e]
        end.
        -- cbn [skippedLowConfidence skippedNoText skippedNoBbox
                translatedBlocks] in IH.
           destruct IH as (T & L & N & B & new & Hnew & Hall).
           unfold dropped in L, N.
           repeat split; try assumption.
           ++ rewrite T, <- app_assoc. reflexivity.
           ++ eexists. split.
              ** rewrite Hnew, <- app_assoc. reflexivity.
              ** constructor; [|exact Hall].
                 unfold answers. cbn. auto.
        -- destruct IH as [k T]. exists (S k).
           rewrite T, <- app_assoc. reflexivity.
      * cbn [fst snd onBeforeSendHeaders onHeadersReceived nextClosure trace].
        repeat (split; [reflexivity|]).
        exists 1%nat. reflexivity.
Qed.

End TranslationLoop.

Section TranslationCalls.
Import Background.

Lemma translateBlocks_calls world blocks t b :
  let out := translateBlocks world blocks t b in
  match snd out with
  | Ok t' =>
      appended b (fst out) = map Translated (map fst (survivors blocks))
      /\ exists new,
          translatedBlocks t' = (translatedBlocks t ++ new)%list
          /\ Forall2 (answers world) (survivors blocks) new
  | Throw _ =>
      exists k,
        appended b (fst out)
        = map Translated (firstn k (map fst (survivors blocks)))
  end.
Proof.
  intro out. subst out.
  pose proof (translateBlocks_spec world blocks t b) as H. cbv zeta in H.
  destruct H as (_ & _ & _ & H).
  destruct (snd (translateBlocks world blocks t b)) as [t'|e].
  - destruct H as (T & _ & _ & _ & new & Hnew & Hall).
    split; [apply appended_app; exact T|]. exists new. split; assumption.
  - destruct H as [k T]. exists k. apply appended_app. exact T.
Qed.

(** With no survivor the loop calls no one and cannot fail. *)
Lemma translateBlocks_no_survivor world blocks : forall t b,
  survivors blocks = [] ->
  exists t', translateBlocks world blocks t b = (b, Ok t')
             /\ translatedBlocks t' = translatedBlocks t.
Proof.
  induction blocks as [|block rest IH]; intros t b Hs.
  - exists t. split; reflexivity.
  - rewrite translateBlocks_cons. cbn [survivors] in Hs.
    destruct (verdict block); try discriminate Hs;
      match goal with
      | |- context [translateBlocks world rest ?t1 b] =>
          destruct (IH t1 b Hs) as (t' & E & B); exists t'; split;
          [exact E | exact B]
      end.
Qed.

Lemma pair_fields (blocks : list RemoteBackground.Block) :
  forall translations,
    List.length translations = List.length blocks ->
    map RemoteBackground.t_original (RemoteBackground.pair blocks translations)
    = map RemoteBackground.text blocks
    /\ map RemoteBackground.t_bbox (RemoteBackground.pair blocks translations)
       = map RemoteBackground.bbox blocks
    /\ map RemoteBackground.t_text (RemoteBackground.pair blocks translations)
       = translations.
Proof.
  induction blocks as [|block rest IH]; intros [|t ts] H; cbn in *;
    try discriminate H; try (repeat split; reflexivity).
  injection H as H. destruct (IH ts H) as (E1 & E2 & E3).
  rewrite E1, E2, E3. repeat split; reflexivity.
Qed.

Lemma translateLines_calls callDeepLApi lines b :
  let blocks := RemoteBackground.blocksOfLines lines in
  let out := RemoteBackground.translateLines callDeepLApi lines b in
  appended b (fst out)
  = match blocks with
    | [] => []
    | _ :: _ => [TranslatedBatch (map RemoteBackground.text blocks)]
    end
  /\ match snd out with
     | Ok translated =>
         map RemoteBackground.t_original translated
         = map RemoteBackground.text blocks
         /\ map RemoteBackground.t_bbox translated
            = map RemoteBackground.bbox blocks
     | Throw _ => True
     end.
Proof.
  intros blocks out. subst out. unfold RemoteBackground.translateLines.
  fold blocks. destruct blocks as [|block rest] eqn:Eb.
  - cbn. split; [|split; reflexivity].
    apply appended_app. rewrite app_nil_r. reflexivity.
  - cbn [List.length Nat.eqb].
    cbv beta iota delta [bind emit await ret throw].
    destruct (callDeepLApi (map RemoteBackground.text (block :: rest)))
      as [[translations|]|e]; cbn [fst snd trace].
    + destruct (Nat.eqb_spec (List.length translations) (S (List.length rest)))
        as [El|Hl]; cbn [negb fst snd trace].
      * split; [apply appended_app; reflexivity|].
        destruct (pair_fields (block :: rest) translations El) as (E1 & E2 & _).
        split; assumption.
      * split; [apply appended_app; reflexivity|exact I].
    + split; [apply appended_app; reflexivity|exact I].
    + split; [apply appended_app; reflexivity|exact I].
Qed.

End TranslationCalls.

(** C5, as stated, fails on the remote-service variant: two recognized
    lines give two blocks, and the translation service is called once,
    with both texts. *)
Lemma translation_is_batched_in_remote_variant :
  appended Background.freshBrowser
    (fst (RemoteBackground.translateLines echoService twoLines
            Background.freshBrowser))
  = [Background.TranslatedBatch ["Hello"; "World"]]
  /\ List.length (RemoteBackground.blocksOfLines twoLines) = 2%nat
  /\ List.length
       (appended Background.freshBrowser
          (fst (RemoteBackground.translateLines echoService twoLines
                  Background.freshBrowser)))
     <> List.length (RemoteBackground.blocksOfLines twoLines).
Proof.
  vm_compute. repeat split. discriminate.
Qed.

(** C5, amended.  In [extension/background.js] the translator is called
    once per surviving block, one call after the other in block order,
    and the translated blocks follow that order, each with the text and
    box of its block; when a call fails the run fails, the calls made
    being those for a prefix of the surviving blocks.  In the
    remote-service variant the service is called once, with the texts of
    all blocks in order (not at all when there is no block), and the
    translated blocks follow the order of the blocks. *)
Theorem translation_calls :
  (forall (world : Background.World) (blocks : list Background.OcrBlock)
          (b : Background.Browser),
      let out := Background.translateBlocks world blocks Background.noTally b in
      match snd out with
      | Background.Ok t =>
          appended b (fst out)
          = map Background.Translated (map fst (survivors blocks))
          /\ Forall2 (answers world) (survivors blocks)
                     (Background.translatedBlocks t)
      | Background.Throw _ =>
          exists k,
            appended b (fst out)
            = map Background.Translated (firstn k (map fst (survivors blocks)))
      end)
  /\ (forall (callDeepLApi : list string
                            -> Background.Result (option (list string)))
             (lines : list RemoteBackground.OverlayLine)
             (b : Background.Browser),
         let blocks := RemoteBackground.blocksOfLines lines in
         let out := RemoteBackground.translateLines callDeepLApi lines b in
         appended b (fst out)
         = match blocks with
           | [] => []
           | _ :: _ =>
               [Background.TranslatedBatch (map RemoteBackground.text blocks)]
           end
         /\ match snd out with
            | Background.Ok translated =>
                map RemoteBackground.t_original translated
                = map RemoteBackground.text blocks
                /\ map RemoteBackground.t_bbox translated
                   = map RemoteBackground.bbox blocks
            | Background.Throw _ => True
            end).
Proof.
  split.
  - intros world blocks b out. subst out.
    pose proof (translateBlocks_calls world blocks Background.noTally b) as H.
    cbv zeta in H.
    destruct (snd (Background.translateBlocks world blocks Background.noTally b))
      as [t|e]; [|exact H].
    destruct H as (T & new & Hnew & Hall). split; [exact T|].
    cbn in Hnew. rewrite Hnew. exact Hall.
  - intros callDeepLApi lines b. apply translateLines_calls.
Qed.

(** C7 at the failing input.  A block with confidence 90, the text [Hi]
    and no box is dropped for its missing box, and the run ends well with
    no block; yet the summary counts no box-less block, and no run ever
    raises that count. *)
Theorem missing_bbox_not_counted :
  verdict boxlessBlock = NoBbox
  /\ Background.handleImagePipeline Numeral.Number boxlessWorld pageMessage 7
       Background.freshBrowser
     = ({| Background.onBeforeSendHeaders := [];
           Background.onHeadersReceived := [];
           Background.nextClosure := 2;
           Background.trace :=
             [Background.Tried Background.ReferrerSpoofed;
              Background.Summary 0 0 0 0] |},
        Background.Ok {| Background.success := true;
                         Background.originalSrc := "https://a.example/1.png";
                         Background.resultBlocks := [];
                         Background.imgWidth := 640;
                         Background.imgHeight := 480 |})
  /\ forall (world : Background.World) (blocks : list Background.OcrBlock)
            (t : Background.Tally) (b : Background.Browser),
       match snd (Background.translateBlocks world blocks t b) with
       | Background.Ok t' =>
           Background.skippedNoBbox t' = Background.skippedNoBbox t
       | Background.Throw _ => True
       end.
Proof.
  split; [vm_compute; reflexivity|]. split; [vm_compute; reflexivity|].
  intros world blocks t b.
  pose proof (translateBlocks_spec world blocks t b) as H. cbv zeta in H.
  destruct H as (_ & _ & _ & H).
  destruct (snd (Background.translateBlocks world blocks t b)); [|exact I].
  destruct H as (_ & _ & _ & H & _). exact H.
Qed.

(** ** Overlay renderer *)

Ltac qc_compute :=
  vm_compute;
  repeat match goal with
         | |- @eq Qc _ _ => apply Qc_is_canon; reflexivity
         | |- _ /\ _ => split
         | |- _ => progress f_equal
         end.

Lemma div_nonzero (a : Qc) (z : Z) :
  z <> 0%Z -> Content.div a (JS.ofZ z) = Some (a / JS.ofZ z)%Qc.
Proof.
  intro Hz. unfold Content.div.
  destruct (JS.eqb (JS.ofZ z) (JS.ofZ 0)) eqn:E; [|reflexivity].
  apply eqb_eq in E. unfold JS.ofZ in E. apply Q2Qc_eq_iff in E.
  unfold Qeq in E. cbn in E. lia.
Qed.

Lemma overlayBoxes_laid (img : Content.Img) (blocks : list Content.TranslatedBlock)
      (originalWidth originalHeight : Z) :
  originalWidth <> 0%Z -> originalHeight <> 0%Z ->
  Forall2 (laidAt (JS.ofZ (Content.width img) / JS.ofZ originalWidth)%Qc
                  (JS.ofZ (Content.height img) / JS.ofZ originalHeight)%Qc)
          blocks
          (Content.overlayBoxes img blocks originalWidth originalHeight).
Proof.
  intros Hw Hh. unfold Content.overlayBoxes.
  rewrite (div_nonzero _ _ Hw), (div_nonzero _ _ Hh).
  induction blocks as [|block rest IH]; cbn [map]; constructor; [|exact IH].
  unfold laidAt, Content.times. cbn. repeat split; reflexivity.
Qed.

(** C6.  The overlay renderer takes [scaleX] as the displayed width over
    the native width and [scaleY] as the displayed height over the native
    height (the native sizes not being zero), and lays one box per block,
    in order, at the block's native top-left corner scaled by
    [(scaleX, scaleY)], as wide and high as the native box scaled by
    [(scaleX, scaleY)].  The box (100,100,200,150) of an image 1000 by 800
    shown at 500 by 400 is laid at (50,50), 50 wide and 25 high. *)
Theorem overlay_scaling :
  (forall (img : Content.Img) (blocks : list Content.TranslatedBlock)
          (nativeWidth nativeHeight : Z),
      nativeWidth <> 0%Z -> nativeHeight <> 0%Z ->
      let scaleX := (JS.ofZ (Content.width img) / JS.ofZ nativeWidth)%Qc in
      let scaleY := (JS.ofZ (Content.height img) / JS.ofZ nativeHeight)%Qc in
      Content.overlays (Content.overlayTranslations img blocks nativeWidth nativeHeight)
      = (Content.overlays img
         ++ Content.overlayBoxes img blocks nativeWidth nativeHeight)%list
      /\ Forall2 (laidAt scaleX scaleY) blocks
                 (Content.overlayBoxes img blocks nativeWidth nativeHeight))
  /\ map (fun d => (Content.d_left d, Content.d_top d,
                    Content.d_width d, Content.d_height d))
         (Content.overlayBoxes halfSizeImg [sampleBlock] 1000 800)
     = [(Some (JS.ofZ 50), Some (JS.ofZ 50), Some (JS.ofZ 50), Some (JS.ofZ 25))].
Proof.
  split.
  - intros img blocks W H Hw Hh scaleX scaleY. split; [reflexivity|].
    apply overlayBoxes_laid; assumption.
  - qc_compute.
Qed.

Lemma overlay_scaling_witness :
  Forall2 (laidAt (JS.ofZ 500 / JS.ofZ 1000)%Qc (JS.ofZ 400 / JS.ofZ 800)%Qc)
          [sampleBlock]
          (Content.overlayBoxes halfSizeImg [sampleBlock] 1000 800).
Proof.
  apply (proj1 overlay_scaling halfSizeImg [sampleBlock] 1000%Z 800%Z);
    discriminate.
Defined.

(** ** Queue and scheduler *)

Section Scheduler.
Import Content.

Variable minSide : Z.
Variable present : Img -> list TranslatedBlock -> Z -> Z -> Img.

Lemma replay_app (log1 log2 : list Event) : forall busy,
  replay busy (log1 ++ log2)
  = match replay busy log1 with
    | Some busy' => replay busy' log2
    | None => None
    end.
Proof.
  induction log1 as [|e log1 IH]; intro busy; cbn [app replay].
  - reflexivity.
  - destruct e as [i|i|i]; destruct busy as [j|]; try reflexivity;
      try apply IH; destruct (i =? j)%nat; try reflexivity; apply IH.
Qed.

Lemma processQueue_scheduled (st : State) :
  scheduled st -> scheduled (processQueue st).
Proof.
  intros (Hc & Hl & Hr). unfold processQueue, MAX_CONCURRENT.
  destruct (Z.geb_spec (activeProcessors st) 1) as [Hge|Hlt]; [repeat split; assumption|].
  destruct (imageQueue st) as [|task rest]; [repeat split; assumption|].
  destruct (inFlight st) as [|t ts] eqn:Ef; cbn [List.length] in Hc; [|lia].
  unfold scheduled. cbn [activeProcessors inFlight log app List.length hd_error
                         option_map].
  repeat split; try lia.
  rewrite replay_app, Hr. reflexivity.
Qed.

Lemma scanAndTranslate_scheduled (s : Settings) (st : State) :
  scheduled st -> scheduled (scanAndTranslate minSide s st).
Proof.
  intro H. unfold scanAndTranslate.
  destruct (discover minSide s 0 (document st)) as [doc tasks].
  apply processQueue_scheduled. exact H.
Qed.

Lemma settle_scheduled (k : nat) (r : Settled) (st st' : State) :
  scheduled st -> settle present k r st = Some st' -> scheduled st'.
Proof.
  intros (Hc & Hl & Hr) Hs. unfold settle in Hs.
  destruct (nth_error (inFlight st) k) as [task|] eqn:En; [|discriminate Hs].
  destruct (inFlight st) as [|t ts] eqn:Ef; [destruct k; discriminate En|].
  destruct ts as [|t2 ts]; [|cbn in Hl; lia].
  destruct k as [|k]; [|destruct k; discriminate En].
  injection En as <-.
  cbn [List.length hd_error option_map] in *.
  destruct (usable r) as [[response bs]|]; injection Hs as <-;
    apply processQueue_scheduled; unfold scheduled;
    cbn [activeProcessors inFlight log removeAt List.length hd_error option_map];
    (repeat split; [lia | lia |]);
    rewrite replay_app, Hr; cbn [replay]; rewrite Nat.eqb_refl; reflexivity.
Qed.

Lemma perform_scheduled (a : Action) (st st' : State) :
  scheduled st -> perform minSide present a st = Some st' -> scheduled st'.
Proof.
  intros H Hp. destruct a as [s|k r|x]; cbn [perform] in Hp.
  - injection Hp as <-. apply scanAndTranslate_scheduled. exact H.
  - eapply settle_scheduled; eassumption.
  - injection Hp as <-. exact H.
Qed.

Lemma run_scheduled (actions : list Action) : forall st st',
  scheduled st -> run minSide present actions st = Some st' -> scheduled st'.
Proof.
  induction actions as [|a rest IH]; intros st st' H Hr; cbn [run] in Hr.
  - injection Hr as <-. exact H.
  - destruct (perform minSide present a st) as [st1|] eqn:Ep; [|discriminate Hr].
    eapply IH; [|exact Hr]. eapply perform_scheduled; eassumption.
Qed.

Lemma loaded_scheduled (doc : list Img) : scheduled (loaded doc).
Proof. unfold scheduled, loaded. cbn. repeat split. lia. Qed.

End Scheduler.

(** C3.  With [MAX_CONCURRENT = 1], in every state the content script
    can reach from a freshly loaded page (by scans, by settled messages,
    by images added to the page) the counter of active processors is the
    number of tasks being processed and is at most one; and the log of
    dispatches and terminal events keeps the discipline of [replay]: a
    task is dispatched only when the task dispatched before it has ended
    as done or failed. *)
Theorem at_most_one_processing
        (minSide : Z)
        (present : Content.Img -> list Content.TranslatedBlock -> Z -> Z -> Content.Img)
        (doc : list Content.Img) (actions : list Content.Action)
        (st : Content.State) :
  Content.run minSide present actions (Content.loaded doc) = Some st ->
  Content.MAX_CONCURRENT = 1%Z
  /\ (Content.activeProcessors st <= 1)%Z
  /\ Content.activeProcessors st = Z.of_nat (List.length (Content.inFlight st))
  /\ (List.length (Content.inFlight st) <= 1)%nat
  /\ replay None (Content.log st)
     = Some (option_map Content.img (hd_error (Content.inFlight st))).
Proof.
  intro Hr.
  destruct (run_scheduled minSide present actions _ _ (loaded_scheduled doc) Hr)
    as (Hc & Hl & Hlog).
  split; [reflexivity|]. repeat split; try assumption. lia.
Qed.

Lemma at_most_one_processing_witness :
  match overlayScript_run threeTasks (Content.loaded threeImages) with
  | Some st =>
      Content.MAX_CONCURRENT = 1%Z
      /\ (Content.activeProcessors st <= 1)%Z
      /\ Content.activeProcessors st = Z.of_nat (List.length (Content.inFlight st))
      /\ (List.length (Content.inFlight st) <= 1)%nat
      /\ replay None (Content.log st)
         = Some (option_map Content.img (hd_error (Content.inFlight st)))
  | None => False
  end.
Proof.
  destruct (overlayScript_run threeTasks (Content.loaded threeImages))
    as [st|] eqn:E.
  - exact (at_most_one_processing 50 Content.overlayTranslations threeImages
             threeTasks st E).
  - vm_compute in E. discriminate E.
Defined.

(** Three images found by one scan: the second is dispatched when the
    first is done, the third when the second has failed. *)
Example three_tasks_one_at_a_time :
  option_map Content.log (overlayScript_run threeTasks (Content.loaded threeImages))
  = Some [Content.Dispatched 0; Content.Done 0;
          Content.Dispatched 2; Content.Failed 2;
          Content.Dispatched 3].
Proof. vm_compute. reflexivity. Qed.

(** ** Discovery *)

Section Discovery.
Import Content.

Variable minSide : Z.
Variable present : Img -> list TranslatedBlock -> Z -> Z -> Img.

Lemma discover_nothing (s : Settings) (doc : list Img) : forall i,
  Forall (fun x => skipped minSide x = true) doc ->
  discover minSide s i doc = (doc, []).
Proof.
  induction doc as [|x rest IH]; intros i H; cbn [discover].
  - reflexivity.
  - inversion H as [|? ? Hx Hrest]; subst.
    rewrite (IH (S i) Hrest), Hx. reflexivity.
Qed.

Lemma skipped_of_status (x : Img) :
  JS.truthy (status x) = true -> skipped minSide x = true.
Proof.
  intro H. unfold skipped. rewrite H. apply orb_true_r.
Qed.

Lemma discover_settles (s : Settings) (doc : list Img) : forall i,
  Forall (fun x => skipped minSide x = true) (fst (discover minSide s i doc)).
Proof.
  induction doc as [|x rest IH]; intro i; cbn [discover].
  - constructor.
  - specialize (IH (S i)).
    destruct (discover minSide s (S i) rest) as [rest' tasks]. cbn [fst] in IH.
    destruct (skipped minSide x) eqn:Hx; cbn [fst]; constructor; try assumption.
    apply skipped_of_status. reflexivity.
Qed.

(** A task pushed by [discover] names an element that had no status and
    now has the status [queued]. *)
Lemma discover_marks (s : Settings) (doc : list Img) : forall i task,
  In task (snd (discover minSide s i doc)) ->
  (i <= img task)%nat
  /\ exists x,
      nth_error doc (img task - i) = Some x
      /\ JS.truthy (status x) = false
      /\ option_map status (nth_error (fst (discover minSide s i doc)) (img task - i))
         = Some "queued".
Proof.
  induction doc as [|x rest IH]; intros i task Hin; cbn [discover] in *.
  - contradiction.
  - specialize (IH (S i) task).
    destruct (discover minSide s (S i) rest) as [rest' tasks]. cbn [fst snd] in *.
    destruct (skipped minSide x) eqn:Hx; cbn [fst snd] in *.
    + destruct (IH Hin) as (Hle & y & Hy & Hs & Hq).
      split; [lia|]. exists y.
      replace (img task - i)%nat with (S (img task - S i)) by lia.
      cbn [nth_error]. repeat split; assumption.
    + destruct Hin as [<-|Hin].
      * cbn [img]. split; [lia|]. exists x. rewrite Nat.sub_diag. cbn.
        repeat split; try reflexivity.
        unfold skipped in Hx. apply orb_false_elim in Hx. apply Hx.
      * destruct (IH Hin) as (Hle & y & Hy & Hs & Hq).
        split; [lia|]. exists y.
        replace (img task - i)%nat with (S (img task - S i)) by lia.
        cbn [nth_error]. repeat split; assumption.
Qed.

Lemma update_Forall (P : Img -> Prop) (f : Img -> Img) (doc : list Img) :
  forall i, Forall P doc -> (forall x, P (f x)) -> Forall P (update doc i f).
Proof.
  induction doc as [|x rest IH]; intros i H Hf; cbn [update].
  - destruct i; constructor.
  - inversion H; subst. destruct i; constructor; auto.
Qed.

Lemma processQueue_document (st : State) :
  document (processQueue st) = document st.
Proof.
  unfold processQueue. destruct (activeProcessors st >=? MAX_CONCURRENT)%Z;
    [reflexivity|]. destruct (imageQueue st); reflexivity.
Qed.

Lemma scan_settles (s : Settings) (st : State) :
  Forall (fun x => skipped minSide x = true)
         (document (scanAndTranslate minSide s st)).
Proof.
  unfold scanAndTranslate.
  pose proof (discover_settles s (document st) 0) as H.
  destruct (discover minSide s 0 (document st)) as [doc tasks].
  rewrite processQueue_document. exact H.
Qed.

Lemma quiet_keeps_settled (a : Action) (st st' : State) :
  quiet a = true ->
  Forall (fun x => skipped minSide x = true) (document st) ->
  perform minSide present a st = Some st' ->
  Forall (fun x => skipped minSide x = true) (document st').
Proof.
  intros Hq H Hp. destruct a as [s|k r|x]; cbn [perform quiet] in *.
  - injection Hp as <-. apply scan_settles.
  - unfold settle in Hp.
    destruct (nth_error (inFlight st) k) as [task|]; [|discriminate Hp].
    destruct (usable r) as [[response bs]|]; [|discriminate Hq].
    injection Hp as <-. rewrite processQueue_document. cbn [document].
    apply update_Forall; [exact H|].
    intro x. apply skipped_of_status. reflexivity.
  - discriminate Hq.
Qed.

Lemma quiet_run_settled (actions : list Action) : forall st st',
  forallb quiet actions = true ->
  Forall (fun x => skipped minSide x = true) (document st) ->
  run minSide present actions st = Some st' ->
  Forall (fun x => skipped minSide x = true) (document st').
Proof.
  induction actions as [|a rest IH]; intros st st' Hq H Hr; cbn [run forallb] in *.
  - injection Hr as <-. exact H.
  - apply andb_prop in Hq. destruct Hq as [Ha Hrest].
    destruct (perform minSide present a st) as [st1|] eqn:Ep; [|discriminate Hr].
    eapply IH; [exact Hrest| |exact Hr].
    eapply quiet_keeps_settled; eassumption.
Qed.

End Discovery.

(** C9.  Discovery is idempotent.  A task is enqueued only for an
    element that carries no status, and enqueuing it gives the element
    the status [queued]; and once the page has been scanned, as long as
    no image is added and no task fails (whatever other scans and
    successful completions happen), a further scan finds nothing: it
    enqueues no task and leaves the elements as they are. *)
Theorem discovery_idempotent
        (minSide : Z)
        (present : Content.Img -> list Content.TranslatedBlock -> Z -> Z -> Content.Img) :
  (forall (s : Content.Settings) (doc : list Content.Img) (task : Content.Task),
      In task (snd (Content.discover minSide s 0 doc)) ->
      exists x,
        nth_error doc (Content.img task) = Some x
        /\ JS.truthy (Content.status x) = false
        /\ option_map Content.status
             (nth_error (fst (Content.discover minSide s 0 doc)) (Content.img task))
           = Some "queued")
  /\ (forall (s s' : Content.Settings) (st st' : Content.State)
             (actions : list Content.Action),
         forallb quiet actions = true ->
         Content.run minSide present actions
                     (Content.scanAndTranslate minSide s st) = Some st' ->
         Content.discover minSide s' 0 (Content.document st')
         = (Content.document st', [])).
Proof.
  split.
  - intros s doc task Hin.
    destruct (discover_marks minSide s doc 0 task Hin) as (_ & x & Hx).
    rewrite Nat.sub_0_r in Hx. exists x. exact Hx.
  - intros s s' st st' actions Hq Hr.
    apply discover_nothing.
    eapply quiet_run_settled; [exact Hq| |exact Hr].
    apply scan_settles.
Qed.

Lemma discovery_idempotent_witness :
  match Content.run 50 Content.overlayTranslations
          [Content.Settle 0 goodResponse; Content.Scan enEs]
          (Content.scanAndTranslate 50 enEs (Content.loaded threeImages)) with
  | Some st' =>
      Content.discover 50 enEs 0 (Content.document st')
      = (Content.document st', [])
  | None => False
  end.
Proof.
  destruct (Content.run 50 Content.overlayTranslations
              [Content.Settle 0 goodResponse; Content.Scan enEs]
              (Content.scanAndTranslate 50 enEs (Content.loaded threeImages)))
    as [st'|] eqn:E.
  - exact (proj2 (discovery_idempotent 50 Content.overlayTranslations)
             enEs enEs (Content.loaded threeImages) st'
             [Content.Settle 0 goodResponse; Content.Scan enEs]
             eq_refl E).
  - vm_compute in E. discriminate E.
Defined.

(** A failed task resets the status, and the next scan enqueues the
    element again. *)
Example failed_task_is_found_again :
  option_map
    (fun st => snd (Content.discover 50 enEs 0 (Content.document st)))
    (Content.settle Content.overlayTranslations 0 (Content.Rejected "timeout")
       (Content.scanAndTranslate 50 enEs (Content.loaded [bigImg])))
  = Some [{| Content.img := 0; Content.settings := enEs |}].
Proof. vm_compute. reflexivity. Qed.

(** ** Normalizer: trimmed texts *)

Arguments JS.isWhiteSpace : simpl never.

Lemma trimEnd_fixed (s : string) : lastKept s = true -> JS.trimEnd s = s.
Proof.
  induction s as [|c s IH]; intro H.
  - discriminate H.
  - cbn [lastKept] in H. cbn [JS.trimEnd]. destruct s as [|c' s'].
    + cbn [JS.trimEnd]. destruct (JS.isWhiteSpace c); [discriminate H|reflexivity].
    + rewrite (IH H). reflexivity.
Qed.

Lemma trimStart_fixed (s : string) : headKept s = true -> JS.trimStart s = s.
Proof.
  destruct s as [|c s]; cbn; intro H; [discriminate H|].
  destruct (JS.isWhiteSpace c); [discriminate H|reflexivity].
Qed.

Lemma trim_fixed (s : string) :
  headKept s = true -> lastKept s = true -> JS.trim s = s.
Proof.
  intros Hh Hl. unfold JS.trim. rewrite (trimEnd_fixed s Hl).
  apply trimStart_fixed. exact Hh.
Qed.

Lemma trimEnd_lastKept (s : string) :
  JS.trimEnd s = "" \/ lastKept (JS.trimEnd s) = true.
Proof.
  induction s as [|c s IH]; cbn [JS.trimEnd].
  - left. reflexivity.
  - destruct (JS.trimEnd s) as [|c' t] eqn:E.
    + destruct (JS.isWhiteSpace c) eqn:W; [left; reflexivity|].
      right. cbn. rewrite W. reflexivity.
    + right. destruct IH as [IH|IH]; [discriminate IH|]. exact IH.
Qed.

Lemma trimStart_lastKept (s : string) :
  lastKept s = true -> lastKept (JS.trimStart s) = true.
Proof.
  induction s as [|c s IH]; intro H; cbn [JS.trimStart].
  - discriminate H.
  - destruct (JS.isWhiteSpace c) eqn:W; [|exact H].
    apply IH. cbn [lastKept] in H. destruct s as [|c' s'].
    + rewrite W in H. discriminate H.
    + exact H.
Qed.

Lemma trimStart_headKept (s : string) :
  JS.trimStart s = "" \/ headKept (JS.trimStart s) = true.
Proof.
  induction s as [|c s IH]; cbn [JS.trimStart].
  - left. reflexivity.
  - destruct (JS.isWhiteSpace c) eqn:W; [exact IH|].
    right. cbn. rewrite W. reflexivity.
Qed.

(** A trimmed text that is not empty starts and ends with a character
    [trim] keeps. *)
Lemma trim_kept (s : string) :
  JS.truthy (JS.trim s) = true ->
  headKept (JS.trim s) = true /\ lastKept (JS.trim s) = true.
Proof.
  unfold JS.trim. intro H. split.
  - destruct (trimStart_headKept (JS.trimEnd s)) as [E|E]; [|exact E].
    rewrite E in H. discriminate H.
  - apply trimStart_lastKept.
    destruct (trimEnd_lastKept s) as [E|E]; [|exact E].
    rewrite E in H. discriminate H.
Qed.

Lemma headKept_app (a b : string) :
  headKept a = true -> headKept (a ++ b) = true.
Proof. destruct a; cbn; [discriminate|auto]. Qed.

Lemma lastKept_app (a b : string) :
  lastKept b = true -> lastKept (a ++ b) = true.
Proof.
  intro H. induction a as [|c a IH]; cbn [append]; [exact H|].
  cbn [lastKept]. destruct (a ++ b) as [|c' r] eqn:E; [|exact IH].
  destruct a; cbn in E; [subst b; discriminate H|discriminate E].
Qed.

Lemma join_kept (joiner : string) (p : string) (ps : list string) :
  Forall (fun q => headKept q = true /\ lastKept q = true) (p :: ps) ->
  headKept (JS.join joiner (p :: ps)) = true
  /\ lastKept (JS.join joiner (p :: ps)) = true.
Proof.
  revert p. induction ps as [|q ps IH]; intros p H.
  - inversion H as [|? ? Hp _]; subst. exact Hp.
  - inversion H as [|? ? [Hh Hl] Hrest]; subst.
    destruct (IH q Hrest) as [_ Hl'].
    change (JS.join joiner (p :: q :: ps))
      with (p ++ joiner ++ JS.join joiner (q :: ps)).
    split.
    + apply headKept_app. exact Hh.
    + apply lastKept_app, lastKept_app. exact Hl'.
Qed.

Lemma headKept_truthy (s : string) : headKept s = true -> JS.truthy s = true.
Proof. destruct s; cbn; [discriminate|reflexivity]. Qed.

(** ** Normalizer: which rows take part *)

Section Rows.
Import Background.

Variable Number : string -> option Qc.

Lemma readWord_inv (c : Columns) (row : string) (w : Word) :
  readWord Number c row = Some w ->
  let cols := JS.split JS.TAB row in
  (textIdx c < Z.of_nat (List.length cols))%Z
  /\ toNumber Number (JS.at_ cols (levelIdx c)) = Some (JS.ofZ 5)
  /\ (exists n, toNumber Number (JS.at_ cols (wordIdx c)) = Some n
                /\ (JS.ofZ 0 < n)%Qc)
  /\ toNumber Number (JS.at_ cols (confIdx c)) = Some (wconf w)
  /\ (JS.ofZ 0 <= wconf w)%Qc
  /\ wtext w = JS.trim (match JS.at_ cols (textIdx c) with
                        | Some s => s
                        | None => ""
                        end)
  /\ JS.truthy (wtext w) = true
  /\ cells w = (JS.at_ cols (pageIdx c), JS.at_ cols (blockIdx c),
                JS.at_ cols (parIdx c), JS.at_ cols (lineIdx c))
  /\ exists left_ top width height,
      toNumber Number (JS.at_ cols (leftIdx c)) = Some left_
      /\ toNumber Number (JS.at_ cols (topIdx c)) = Some top
      /\ toNumber Number (JS.at_ cols (widthIdx c)) = Some width
      /\ toNumber Number (JS.at_ cols (heightIdx c)) = Some height
      /\ (JS.ofZ 0 < width)%Qc /\ (JS.ofZ 0 < height)%Qc
      /\ wbox w = {| x0 := left_; y0 := top;
                     x1 := (left_ + width)%Qc; y1 := (top + height)%Qc |}.
Proof.
  intros H cols. unfold readWord in H. fold cols in H.
  destruct (Z.leb_spec (Z.of_nat (List.length cols)) (textIdx c)) as [|Hlen];
    [discriminate H|].
  destruct (toNumber Number (JS.at_ cols (levelIdx c))) as [level|];
    [|discriminate H].
  destruct (toNumber Number (JS.at_ cols (wordIdx c))) as [wordNum|];
    [|discriminate H].
  destruct (JS.eqb level (JS.ofZ 5)) eqn:El; [|discriminate H].
  destruct (JS.leb wordNum (JS.ofZ 0)) eqn:Ew; [discriminate H|].
  cbn [negb orb] in H.
  destruct (toNumber Number (JS.at_ cols (confIdx c))) as [conf|];
    [|discriminate H].
  destruct (JS.ltb conf (JS.ofZ 0)) eqn:Ec; [discriminate H|].
  destruct (JS.truthy (JS.trim match JS.at_ cols (textIdx c) with
                               | Some s => s
                               | None => ""
                               end)) eqn:Et; [|discriminate H].
  cbn [negb] in H.
  destruct (toNumber Number (JS.at_ cols (leftIdx c))) as [left_|];
    [|discriminate H].
  destruct (toNumber Number (JS.at_ cols (topIdx c))) as [top|];
    [|discriminate H].
  destruct (toNumber Number (JS.at_ cols (widthIdx c))) as [width|];
    [|discriminate H].
  destruct (toNumber Number (JS.at_ cols (heightIdx c))) as [height|];
    [|discriminate H].
  destruct (JS.leb width (JS.ofZ 0)) eqn:Ewd; [discriminate H|].
  destruct (JS.leb height (JS.ofZ 0)) eqn:Eht; [discriminate H|].
  cbn [orb] in H. injection H as <-. cbn [wconf wtext wbox cells wpage wblock
                                          wpar wline].
  apply eqb_eq in El. subst level.
  assert (Hpos : forall q, JS.leb q (JS.ofZ 0) = false -> (JS.ofZ 0 < q)%Qc).
  { intros q E. apply Qcnot_le_lt. intro L. apply leb_le in L. congruence. }
  repeat split; try assumption; try reflexivity.
  - exists wordNum. split; [reflexivity|]. apply Hpos. exact Ew.
  - apply ltb_ge. exact Ec.
  - exists left_, top, width, height. repeat split; auto.
Qed.

(** A participating row carries a trimmed text that is not empty. *)
Lemma readWord_text (c : Columns) (row : string) (w : Word) :
  readWord Number c row = Some w ->
  headKept (wtext w) = true /\ lastKept (wtext w) = true.
Proof.
  intro H. destruct (readWord_inv c row w H) as (_ & _ & _ & _ & _ & Et & Hn & _).
  rewrite Et in *. apply trim_kept. exact Hn.
Qed.

Lemma collect_text (c : Columns) (rows : list string) :
  Forall (fun w => headKept (wtext w) = true /\ lastKept (wtext w) = true)
         (collect Number c rows).
Proof.
  induction rows as [|row rest IH]; cbn [collect]; [constructor|].
  destruct (readWord Number c row) as [w|] eqn:E; [|exact IH].
  constructor; [|exact IH]. eapply readWord_text. exact E.
Qed.

(** The loop is the fold of [addWord] over the participating rows. *)
Lemma loop_collect (c : Columns) (rows : list string) : forall groups,
  fold_left (step Number c) rows groups
  = fold_left addWord (collect Number c rows) groups.
Proof.
  induction rows as [|row rest IH]; intro groups; cbn [fold_left collect].
  - reflexivity.
  - unfold step at 2. destruct (readWord Number c row) as [w|]; cbn [fold_left];
      apply IH.
Qed.

Lemma collect_app (c : Columns) (rows1 rows2 : list string) :
  collect Number c (rows1 ++ rows2)
  = (collect Number c rows1 ++ collect Number c rows2)%list.
Proof.
  induction rows1 as [|row rest IH]; cbn [collect app]; [reflexivity|].
  destruct (readWord Number c row); cbn [app]; rewrite IH; reflexivity.
Qed.

(** A row the loop skips leaves what the other rows produce as it is. *)
Lemma skipped_row_harmless (c : Columns) (before after : list string)
      (row joiner : string) :
  readWord Number c row = None ->
  blocksFrom Number c (before ++ row :: after) joiner
  = blocksFrom Number c (before ++ after) joiner.
Proof.
  intro H. unfold blocksFrom. rewrite !loop_collect, !collect_app.
  cbn [collect]. rewrite H. reflexivity.
Qed.

End Rows.

(** ** Normalizer: grouping *)

Section Grouping.
Import Background.

Lemma onLine_true (k : Key) (w : Word) : onLine k w = true <-> cells w = k.
Proof.
  unfold onLine. destruct (Key_eq_dec (cells w) k); split; intro H;
    congruence.
Qed.

Lemma firstOccurrences_In (ks : list Key) (k : Key) :
  In k (firstOccurrences ks) <-> In k ks.
Proof.
  induction ks as [|a ks IH]; cbn [firstOccurrences In]; [tauto|].
  rewrite filter_In, IH.
  destruct (Key_eq_dec k a) as [E|E]; split; intro H.
  - left. symmetry. exact E.
  - left. symmetry. exact E.
  - destruct H as [H|[H _]]; auto.
  - destruct H as [H|H]; [left; exact H|right; split; [exact H|reflexivity]].
Qed.

Lemma firstOccurrences_NoDup (ks : list Key) : NoDup (firstOccurrences ks).
Proof.
  induction ks as [|a ks IH]; cbn [firstOccurrences]; constructor.
  - rewrite filter_In. intros [_ H].
    destruct (Key_eq_dec a a); [discriminate H|congruence].
  - apply NoDup_filter. exact IH.
Qed.

Lemma firstOccurrences_snoc (ks : list Key) (k : Key) :
  firstOccurrences (ks ++ [k])
  = if in_dec Key_eq_dec k ks then firstOccurrences ks
    else (firstOccurrences ks ++ [k])%list.
Proof.
  induction ks as [|a ks IH]; cbn [app firstOccurrences].
  - destruct (in_dec Key_eq_dec k []) as [[]|_]. reflexivity.
  - rewrite IH.
    destruct (in_dec Key_eq_dec k ks) as [Hin|Hout];
      destruct (in_dec Key_eq_dec k (a :: ks)) as [Hin'|Hout'];
      try reflexivity.
    + exfalso. apply Hout'. right. exact Hin.
    + destruct Hin' as [<-|Hin']; [|contradiction].
      rewrite filter_app. cbn [filter].
      destruct (Key_eq_dec a a); [|congruence]. rewrite app_nil_r. reflexivity.
    + rewrite filter_app. cbn [filter].
      destruct (Key_eq_dec k a) as [->|_]; [|reflexivity].
      exfalso. apply Hout'. left. reflexivity.
Qed.

Lemma filter_snoc (k : Key) (ws : list Word) (w : Word) :
  filter (onLine k) (ws ++ [w])
  = (filter (onLine k) ws ++ (if onLine k w then [w] else []))%list.
Proof. rewrite filter_app. reflexivity. Qed.

Lemma filter_none (k : Key) (ws : list Word) :
  ~ In k (map cells ws) -> filter (onLine k) ws = [].
Proof.
  induction ws as [|a ws IH]; intro H; cbn [filter]; [reflexivity|].
  destruct (onLine k a) eqn:E.
  - apply onLine_true in E. exfalso. apply H. left. exact E.
  - apply IH. intro K. apply H. right. exact K.
Qed.

Lemma filter_some (k : Key) (ws : list Word) :
  In k (map cells ws) -> filter (onLine k) ws <> [].
Proof.
  induction ws as [|a ws IH]; intro H; cbn [filter]; [destruct H|].
  destruct (onLine k a) eqn:E; [discriminate|].
  apply IH. destruct H as [H|H]; [|exact H].
  apply onLine_true in H. congruence.
Qed.

Lemma wkey_keyString (w : Word) : wkey w = keyString (cells w).
Proof. reflexivity. Qed.

Lemma groups_get_none (g : Key -> Group) (l : list Key) (key : string) :
  (forall k, In k l -> keyString k <> key) ->
  groups_get (map (fun k => (keyString k, g k)) l) key = None.
Proof.
  induction l as [|a l IH]; intro H; cbn [map groups_get]; [reflexivity|].
  destruct (String.eqb_spec (keyString a) key) as [E|_].
  - exfalso. exact (H a (or_introl eq_refl) E).
  - apply IH. intros k Hk. apply H. right. exact Hk.
Qed.

Lemma groups_get_some (g : Key -> Group) (l : list Key) (k0 : Key) :
  In k0 l ->
  groups_get (map (fun k => (keyString k, g k)) l) (keyString k0) <> None.
Proof.
  induction l as [|a l IH]; intro H; cbn [map groups_get]; [destruct H|].
  destruct (String.eqb_spec (keyString a) (keyString k0)) as [_|Hne];
    [discriminate|].
  apply IH. destruct H as [->|H]; [congruence|exact H].
Qed.

Lemma groups_mutate_map (g g' : Key -> Group) (f : Group -> Group)
      (k0 : Key) (l : list Key) :
  NoDup l ->
  (forall k, In k l -> keyString k = keyString k0 -> k = k0) ->
  (forall k, In k l -> k <> k0 -> g' k = g k) ->
  (In k0 l -> g' k0 = f (g k0)) ->
  groups_mutate (map (fun k => (keyString k, g k)) l) (keyString k0) f
  = map (fun k => (keyString k, g' k)) l.
Proof.
  induction l as [|a l IH]; intros Hnd Hinj Hother Hself;
    cbn [map groups_mutate]; [reflexivity|].
  inversion Hnd as [|? ? Hnotin Hnd']; subst.
  destruct (String.eqb_spec (keyString a) (keyString k0)) as [E|Hne].
  - assert (a = k0) by (apply Hinj; [left; reflexivity|exact E]). subst a.
    rewrite (Hself (or_introl eq_refl)). f_equal.
    apply map_ext_in. intros k Hk. f_equal. symmetry. apply Hother.
    + right. exact Hk.
    + intro. subst k. contradiction.
  - rewrite Hother; [|left; reflexivity|congruence]. f_equal.
    apply IH; auto.
    + intros k Hk. apply Hinj. right. exact Hk.
    + intros k Hk. apply Hother. right. exact Hk.
    + intro Hk. apply Hself. right. exact Hk.
Qed.

Lemma groupOf_snoc (ws : list Word) (w : Word) :
  ws <> [] ->
  groupOf (ws ++ [w])
  = {| parts := (parts (groupOf ws) ++ [wtext w])%list;
       confs := (confs (groupOf ws) ++ [wconf w])%list;
       gbox := {| x0 := JS.min (x0 (gbox (groupOf ws))) (x0 (wbox w));
                  y0 := JS.min (y0 (gbox (groupOf ws))) (y0 (wbox w));
                  x1 := JS.max (x1 (gbox (groupOf ws))) (x1 (wbox w));
                  y1 := JS.max (y1 (gbox (groupOf ws))) (y1 (wbox w)) |} |}.
Proof.
  destruct ws as [|a ws]; intro H; [congruence|].
  unfold groupOf. cbn [app map parts confs gbox]. rewrite !map_app.
  unfold unionAll. rewrite fold_left_app. reflexivity.
Qed.

(** The loop builds the map that grouping by key describes. *)
Lemma addWord_grouped (ws : list Word) :
  unambiguous ws -> fold_left addWord ws [] = grouped ws.
Proof.
  induction ws as [|w ws IH] using rev_ind; intro Hu; [reflexivity|].
  assert (Hu' : unambiguous ws).
  { intros a b Ha Hb. apply Hu; apply in_or_app; left; assumption. }
  rewrite fold_left_app. cbn [fold_left]. rewrite (IH Hu').
  unfold grouped. rewrite map_app. cbn [map].
  rewrite firstOccurrences_snoc.
  assert (Hinj : forall k, In k (firstOccurrences (map cells ws)) ->
                           keyString k = keyString (cells w) -> k = cells w).
  { intros k Hk E. apply firstOccurrences_In, in_map_iff in Hk.
    destruct Hk as (a & <- & Ha). apply Hu.
    - apply in_or_app. left. exact Ha.
    - apply in_or_app. right. left. reflexivity.
    - exact E. }
  assert (Hother : forall k, k <> cells w ->
                             filter (onLine k) (ws ++ [w]) = filter (onLine k) ws).
  { intros k Hk. rewrite filter_snoc.
    destruct (onLine k w) eqn:E; [|apply app_nil_r].
    apply onLine_true in E. congruence. }
  assert (Hself : onLine (cells w) w = true) by (apply onLine_true; reflexivity).
  unfold addWord. rewrite wkey_keyString.
  destruct (in_dec Key_eq_dec (cells w) (map cells ws)) as [Hin|Hout].
  - destruct (groups_get _ (keyString (cells w))) eqn:Eg.
    + apply groups_mutate_map.
      * apply firstOccurrences_NoDup.
      * exact Hinj.
      * intros k _ Hk. rewrite (Hother k Hk). reflexivity.
      * intros _. rewrite filter_snoc, Hself.
        apply groupOf_snoc. apply filter_some. exact Hin.
    + exfalso. revert Eg. apply groups_get_some.
      apply firstOccurrences_In. exact Hin.
  - rewrite groups_get_none.
    + unfold groups_set. rewrite map_app. cbn [map]. f_equal.
      * apply map_ext_in. intros k Hk. f_equal. rewrite Hother; [reflexivity|].
        intro. subst k. apply Hout. apply firstOccurrences_In. exact Hk.
      * rewrite filter_snoc, Hself, (filter_none _ _ Hout). reflexivity.
    + intros k Hk E. apply Hout.
      rewrite <- (Hinj k Hk E). apply firstOccurrences_In. exact Hk.
Qed.

End Grouping.

(** ** Normalizer: keys, means and blocks *)

Section Blocks.
Import Background.

Lemma hyphen_split (a a' r r' : string) :
  hyphenFree a = true -> hyphenFree a' = true ->
  a ++ String "-" r = a' ++ String "-" r' -> a = a' /\ r = r'.
Proof.
  revert a'. induction a as [|c a IH]; intros [|c' a'] Ha Ha' E;
    cbn [append hyphenFree] in *.
  - injection E as E. split; [reflexivity|exact E].
  - injection E as Ec _. subst c'. cbn in Ha'. discriminate Ha'.
  - injection E as Ec _. subst c. cbn in Ha. discriminate Ha.
  - injection E as Ec E. subst c'.
    apply andb_prop in Ha. apply andb_prop in Ha'.
    destruct (IH a' (proj2 Ha) (proj2 Ha') E) as [-> ->]. split; reflexivity.
Qed.

Lemma indexed_keyString (a b : Word) :
  indexed a = true -> indexed b = true ->
  wkey a = wkey b -> cells a = cells b.
Proof.
  unfold indexed, wkey, cells, indexCell. intros Ha Hb E.
  destruct (wpage a) as [pa|], (wblock a) as [ba|], (wpar a) as [ra|],
    (wline a) as [la|]; cbn in Ha; try discriminate Ha;
    try (rewrite ?andb_false_r in Ha; discriminate Ha).
  destruct (wpage b) as [pb|], (wblock b) as [bb|], (wpar b) as [rb|],
    (wline b) as [lb|]; cbn in Hb; try discriminate Hb;
    try (rewrite ?andb_false_r in Hb; discriminate Hb).
  repeat (apply andb_prop in Ha; destruct Ha as [Ha ?]).
  repeat (apply andb_prop in Hb; destruct Hb as [Hb ?]).
  cbn [JS.interpolate] in E.
  change ("-" ++ ?x) with (String "-" x) in E.
  apply hyphen_split in E; try assumption. destruct E as [-> E].
  change ("-" ++ ?x) with (String "-" x) in E.
  apply hyphen_split in E; try assumption. destruct E as [-> E].
  change ("-" ++ ?x) with (String "-" x) in E.
  apply hyphen_split in E; try assumption. destruct E as [-> ->].
  reflexivity.
Qed.

Lemma indexed_unambiguous (ws : list Word) :
  Forall (fun w => indexed w = true) ws -> unambiguous ws.
Proof.
  intros H a b Ha Hb. rewrite Forall_forall in H.
  apply indexed_keyString; apply H; assumption.
Qed.

Lemma sum_fold (cs : list Qc) :
  fold_left Qcplus cs (JS.ofZ 0) = fold_right Qcplus (JS.ofZ 0) cs.
Proof.
  apply fold_symmetric.
  - intros x y z. apply Qcplus_assoc.
  - intro y. apply Qcplus_comm.
Qed.

(** A group of rows with trimmed texts becomes the line block of those
    rows. *)
Lemma blockOfGroup_lineBlockOf (joiner : string) (ws : list Word) :
  ws <> [] ->
  Forall (fun w => headKept (wtext w) = true /\ lastKept (wtext w) = true) ws ->
  blockOfGroup joiner (groupOf ws) = Some (lineBlockOf joiner ws).
Proof.
  intros Hne Hk. destruct ws as [|w rest]; [congruence|].
  unfold blockOfGroup, lineBlockOf, groupOf. cbn [parts confs gbox].
  assert (Hj : headKept (JS.join joiner (map wtext (w :: rest))) = true
               /\ lastKept (JS.join joiner (map wtext (w :: rest))) = true).
  { cbn [map]. apply join_kept.
    change (wtext w :: map wtext rest) with (map wtext (w :: rest)).
    apply Forall_map. exact Hk. }
  destruct Hj as [Hh Hl].
  rewrite (trim_fixed _ Hh Hl), (headKept_truthy _ Hh). cbn [negb].
  rewrite sum_fold. unfold mean. cbn [map List.length Nat.eqb].
  reflexivity.
Qed.

Lemma blocksOfGroups_grouped (joiner : string) (ws : list Word) :
  Forall (fun w => headKept (wtext w) = true /\ lastKept (wtext w) = true) ws ->
  blocksOfGroups joiner (map snd (grouped ws))
  = map (lineBlockOf joiner) (groupByLine ws).
Proof.
  intro Hk. unfold grouped, groupByLine. rewrite map_map. cbn [snd].
  assert (H : forall k, In k (firstOccurrences (map cells ws)) ->
                        blockOfGroup joiner (groupOf (filter (onLine k) ws))
                        = Some (lineBlockOf joiner (filter (onLine k) ws))).
  { intros k Hin. apply blockOfGroup_lineBlockOf.
    - apply filter_some. apply firstOccurrences_In. exact Hin.
    - rewrite Forall_forall in *. intros w Hw. apply Hk.
      apply filter_In in Hw. apply Hw. }
  induction (firstOccurrences (map cells ws)) as [|k l IH];
    cbn [map blocksOfGroups]; [reflexivity|].
  rewrite (H k (or_introl eq_refl)), IH; [reflexivity|].
  intros k' Hk'. apply H. right. exact Hk'.
Qed.

(** The union of boxes reaches the least left and top and the greatest
    right and bottom of the boxes. *)
Lemma min_le (a b : Qc) : (JS.min a b <= a)%Qc /\ (JS.min a b <= b)%Qc.
Proof.
  unfold JS.min. destruct (JS.ltb b a) eqn:E.
  - apply ltb_lt in E. split; [apply Qclt_le_weak; exact E|apply Qcle_refl].
  - apply ltb_ge in E. split; [apply Qcle_refl|exact E].
Qed.

Lemma max_ge (a b : Qc) : (a <= JS.max a b)%Qc /\ (b <= JS.max a b)%Qc.
Proof.
  unfold JS.max. destruct (JS.ltb a b) eqn:E.
  - apply ltb_lt in E. split; [apply Qclt_le_weak; exact E|apply Qcle_refl].
  - apply ltb_ge in E. split; [apply Qcle_refl|exact E].
Qed.

Lemma covers_trans (u v b : BBox) : covers u v -> covers v b -> covers u b.
Proof.
  intros (A1 & A2 & A3 & A4) (B1 & B2 & B3 & B4).
  repeat split; eapply Qcle_trans; eassumption.
Qed.

Lemma unionBox_covers (a b : BBox) :
  covers (unionBox a b) a /\ covers (unionBox a b) b.
Proof.
  unfold covers, unionBox. cbn [x0 y0 x1 y1].
  repeat split; first [apply min_le | apply max_ge].
Qed.

Lemma unionAll_covers (bs : list BBox) : forall b b',
  In b' (b :: bs) -> covers (unionAll b bs) b'.
Proof.
  unfold unionAll. induction bs as [|a bs IH]; intros b b' Hin; cbn [fold_left].
  - destruct Hin as [<-|[]]. repeat split; apply Qcle_refl.
  - destruct Hin as [<-|[<-|Hin]].
    + eapply covers_trans; [apply IH; left; reflexivity|apply unionBox_covers].
    + eapply covers_trans; [apply IH; left; reflexivity|apply unionBox_covers].
    + apply IH. right. exact Hin.
Qed.

End Blocks.

Lemma readWord_skips (Number : string -> option Qc) (c : Background.Columns)
      (row : string) :
  let cols := JS.split JS.TAB row in
  Background.toNumber Number (JS.at_ cols (Background.levelIdx c)) <> Some (JS.ofZ 5)
  \/ match Background.toNumber Number (JS.at_ cols (Background.wordIdx c)) with
     | Some wordNum => (wordNum <= JS.ofZ 0)%Qc
     | None => True
     end
  \/ match Background.toNumber Number (JS.at_ cols (Background.confIdx c)) with
     | Some conf => (conf < JS.ofZ 0)%Qc
     | None => True
     end
  \/ JS.trim (match JS.at_ cols (Background.textIdx c) with
              | Some s => s
              | None => ""
              end) = "" ->
  Background.readWord Number c row = None.
Proof.
  intros cols H.
  destruct (Background.readWord Number c row) as [w|] eqn:E; [|reflexivity].
  exfalso. apply readWord_inv in E. fold cols in E.
  destruct E as (_ & El & (n & En & Hn) & Ec & Hc & Et & Hne & _).
  destruct H as [H|[H|[H|H]]].
  - exact (H El).
  - rewrite En in H. exact (Qclt_not_le _ _ Hn H).
  - rewrite Ec in H. exact (Qcle_not_lt _ _ Hc H).
  - rewrite H in Et. rewrite Et in Hne. discriminate Hne.
Qed.

(** C1.  For a table whose rows carry index cells as the recognizer
    prints them (present, without a hyphen), the normalizer returns, in
    reading order, one line block per group of the participating rows
    that share the key (page, block, paragraph, line): its text is the
    texts of the rows joined with the joiner in row order, its confidence
    their arithmetic mean, and its box the union of their boxes, which
    covers each of them.  The rows "Hello" (0,0,10,10) at 90 and "World"
    (10,0,20,10) at 80 of one line give, with the space joiner, the one
    block "Hello World" of confidence 85 and box (0,0,20,10). *)
Theorem line_grouping :
  (forall (Number : string -> option Qc) (tsv joiner : string),
      Forall (fun w => indexed w = true) (wordsOf Number tsv) ->
      Background.parseTsvToLineBlocks Number (Some tsv) joiner
      = JS.sort Background.readingOrder
          (map (lineBlockOf joiner) (groupByLine (wordsOf Number tsv))))
  /\ (forall (joiner : string) (ws : list Background.Word) (w : Background.Word),
         In w ws ->
         covers (Background.bbox (lineBlockOf joiner ws)) (Background.wbox w))
  /\ Background.parseTsvToLineBlocks Numeral.Number
       (Some Background.helloWorld) " "
     = [ {| Background.text := "Hello World";
            Background.confidence := JS.ofZ 85;
            Background.bbox := Background.box 0 0 20 10 |} ].
Proof.
  split; [|split].
  - intros Number tsv joiner H.
    unfold Background.parseTsvToLineBlocks. unfold wordsOf, wellShaped in *.
    destruct (JS.truthy tsv); cbn [negb andb] in *; [|reflexivity].
    destruct (List.length (Background.rowsOf tsv) <? 2)%nat;
      cbn [negb andb] in *; [reflexivity|].
    destruct (Background.someMissing
                (Background.locate (Background.headerOf tsv)));
      cbn [negb] in *; [reflexivity|].
    unfold Background.blocksFrom.
    rewrite loop_collect, addWord_grouped by (apply indexed_unambiguous; exact H).
    rewrite blocksOfGroups_grouped by apply collect_text.
    reflexivity.
  - intros joiner ws w Hin. destruct ws as [|a rest]; [destruct Hin|].
    cbn [lineBlockOf Background.bbox]. apply unionAll_covers.
    change (Background.wbox a :: map Background.wbox rest)
      with (map Background.wbox (a :: rest)).
    apply in_map. exact Hin.
  - qc_compute.
Qed.

Lemma line_grouping_witness :
  Background.parseTsvToLineBlocks Numeral.Number (Some Background.helloWorld) " "
  = JS.sort Background.readingOrder
      (map (lineBlockOf " ")
           (groupByLine (wordsOf Numeral.Number Background.helloWorld))).
Proof.
  apply (proj1 line_grouping Numeral.Number Background.helloWorld " ").
  vm_compute. repeat constructor.
Defined.

(** C4, as stated, fails: a word row of confidence 0 is not skipped; it
    gives a block of confidence 0. *)
Lemma zero_confidence_row_takes_part :
  ~ (forall (Number : string -> option Qc) (c : Background.Columns)
            (row : string) (conf : Qc),
        Background.toNumber Number
          (JS.at_ (JS.split JS.TAB row) (Background.confIdx c)) = Some conf ->
        (conf <= JS.ofZ 0)%Qc ->
        Background.readWord Number c row = None)
  /\ Background.parseTsvToLineBlocks Numeral.Number (Some zeroConfTable) " "
     = [ {| Background.text := "Hello";
            Background.confidence := JS.ofZ 0;
            Background.bbox := Background.box 0 0 10 10 |} ].
Proof.
  split.
  - intro H.
    specialize (H Numeral.Number (Background.locate Background.requiredColumns)
                  zeroConfRow (JS.ofZ 0)).
    assert (E : Background.readWord Numeral.Number
                  (Background.locate Background.requiredColumns) zeroConfRow
                = None).
    { apply H; [vm_compute; reflexivity|apply Qcle_refl]. }
    vm_compute in E. discriminate E.
  - qc_compute.
Qed.

(** C4, amended.  Only rows of level 5 with a positive word number take
    part, and a row whose confidence is negative or not a number, or
    whose trimmed text is empty, is skipped; a skipped row is skipped on
    its own: the rows before and after it give the blocks they would give
    without it.  A word row of confidence 0 is not skipped. *)
Theorem rows_skipped_one_by_one :
  (forall (Number : string -> option Qc) (c : Background.Columns) (row : string),
      let cols := JS.split JS.TAB row in
      Background.toNumber Number (JS.at_ cols (Background.levelIdx c))
      <> Some (JS.ofZ 5)
      \/ match Background.toNumber Number (JS.at_ cols (Background.wordIdx c)) with
         | Some wordNum => (wordNum <= JS.ofZ 0)%Qc
         | None => True
         end
      \/ match Background.toNumber Number (JS.at_ cols (Background.confIdx c)) with
         | Some conf => (conf < JS.ofZ 0)%Qc
         | None => True
         end
      \/ JS.trim (match JS.at_ cols (Background.textIdx c) with
                  | Some s => s
                  | None => ""
                  end) = "" ->
      Background.readWord Number c row = None)
  /\ (forall (Number : string -> option Qc) (c : Background.Columns)
             (before after : list string) (row joiner : string),
         Background.readWord Number c row = None ->
         Background.blocksFrom Number c (before ++ row :: after) joiner
         = Background.blocksFrom Number c (before ++ after) joiner)
  /\ option_map Background.wconf
       (Background.readWord Numeral.Number
          (Background.locate Background.requiredColumns) zeroConfRow)
     = Some (JS.ofZ 0).
Proof.
  split; [|split].
  - intros Number c row. apply readWord_skips.
  - intros Number c before after row joiner. apply skipped_row_harmless.
  - qc_compute.
Qed.

Lemma rows_skipped_one_by_one_witness :
  Background.blocksFrom Numeral.Number
    (Background.locate Background.requiredColumns) noisyRows " "
  = Background.blocksFrom Numeral.Number
      (Background.locate Background.requiredColumns)
      [nth 0 noisyRows ""; nth 2 noisyRows ""] " ".
Proof.
  apply (proj1 (proj2 rows_skipped_one_by_one) Numeral.Number
           (Background.locate Background.requiredColumns)
           [nth 0 noisyRows ""] [nth 2 noisyRows ""] (nth 1 noisyRows "") " ").
  vm_compute. reflexivity.
Defined.

(** The row of negative confidence between "Hello" and "World" leaves
    the line as it is without it. *)
Example noisy_row_skipped :
  Background.blocksFrom Numeral.Number
    (Background.locate Background.requiredColumns) noisyRows " "
  = [ {| Background.text := "Hello World";
         Background.confidence := JS.ofZ 85;
         Background.bbox := Background.box 0 0 20 10 |} ].
Proof. qc_compute. Qed.

(** Blocks whose tops are 50, 10, 10 and lefts 0, 20, 5 come out in
    reading order: (10,5), (10,20), (50,0). *)
Example reading_order_sorted :
  map (fun b => (Background.y0 (Background.bbox b), Background.x0 (Background.bbox b)))
      (JS.sort Background.readingOrder
         [ {| Background.text := "c"; Background.confidence := JS.ofZ 90;
              Background.bbox := Background.box 0 50 10 60 |};
           {| Background.text := "b"; Background.confidence := JS.ofZ 90;
              Background.bbox := Background.box 20 10 30 20 |};
           {| Background.text := "a"; Background.confidence := JS.ofZ 90;
              Background.bbox := Background.box 5 10 15 20 |} ])
  = [ (JS.ofZ 10, JS.ofZ 5); (JS.ofZ 10, JS.ofZ 20); (JS.ofZ 50, JS.ofZ 0) ].
Proof. qc_compute. Qed.

(* ================================================================== *)
(** * Further properties *)
(* ================================================================== *)

(** ** Sorting *)

Section SortFacts.
Context {A : Type} (cmp : A -> A -> Qc).

Lemma insert_perm (x : A) (l : list A) :
  Permutation (JS.insert cmp x l) (x :: l).
Proof.
  induction l as [|y l IH]; cbn [JS.insert]; [reflexivity|].
  destruct (JS.ltb (JS.ofZ 0) (cmp x y)); [|reflexivity].
  rewrite IH. apply perm_swap.
Qed.

Lemma sort_perm (l : list A) : Permutation (JS.sort cmp l) l.
Proof.
  unfold JS.sort. induction l as [|x l IH]; cbn [fold_right]; [reflexivity|].
  rewrite insert_perm, IH. reflexivity.
Qed.

Lemma sort_Forall (P : A -> Prop) (l : list A) :
  Forall P l -> Forall P (JS.sort cmp l).
Proof.
  intro H. eapply Permutation_Forall; [|exact H].
  symmetry. apply sort_perm.
Qed.

End SortFacts.

(** ** Arithmetic of finite numbers *)

Lemma Qc_lt_add_pos (l w : Qc) : (JS.ofZ 0 < w)%Qc -> (l < l + w)%Qc.
Proof.
  intro H. apply Qclt_minus_iff.
  replace (l + w + - l)%Qc with w by ring. exact H.
Qed.

Lemma Qc_sum_nonneg (cs : list Qc) : forall acc,
  (JS.ofZ 0 <= acc)%Qc -> Forall (fun c => (JS.ofZ 0 <= c)%Qc) cs ->
  (JS.ofZ 0 <= fold_left Qcplus cs acc)%Qc.
Proof.
  induction cs as [|c cs IH]; intros acc Ha H; cbn [fold_left]; [exact Ha|].
  inversion H as [|? ? Hc Hcs]; subst. apply IH; [|exact Hcs].
  change (JS.ofZ 0) with 0%Qc in *.
  replace 0%Qc with (0 + 0)%Qc by ring.
  apply Qcplus_le_compat; assumption.
Qed.

Lemma ofNat_pos (n : nat) : (0 < n)%nat -> (JS.ofZ 0 < JS.ofNat n)%Qc.
Proof.
  intro H. unfold JS.ofNat, JS.ofZ, Qclt. cbn [this Q2Qc].
  rewrite !Qred_correct. unfold Qlt. cbn. lia.
Qed.

Lemma Qc_div_nonneg (a b : Qc) :
  (JS.ofZ 0 <= a)%Qc -> (JS.ofZ 0 < b)%Qc -> (JS.ofZ 0 <= a / b)%Qc.
Proof.
  intros Ha Hb. change (JS.ofZ 0) with 0%Qc in *.
  replace 0%Qc with (0 * / b)%Qc by ring.
  unfold Qcdiv. apply Qcmult_le_compat_r; [exact Ha|].
  apply Qclt_le_weak.
  unfold Qclt, Qcinv in *.
  change (0 < Qred (/ b))%Q. change (0 < b)%Q in Hb.
  rewrite (Qred_correct (/ b)). apply Qinv_lt_0_compat. exact Hb.
Qed.

(** ** Normalizer: what every block is like *)

Section BlockInvariant.
Import Background.

Variable Number : string -> option Qc.

Lemma readWord_good (c : Columns) (row : string) (w : Word) :
  readWord Number c row = Some w -> goodWord w.
Proof.
  intro H. pose proof (readWord_text Number c row w H) as Ht.
  apply readWord_inv in H. cbv zeta in H.
  destruct H as (_ & _ & _ & _ & Hc & _ & _ & _ &
                 l & t & wd & ht & _ & _ & _ & _ & Hw & Hh & Eb).
  split; [exact Ht|]. split; [exact Hc|].
  rewrite Eb. split; cbn [x0 x1 y0 y1]; apply Qc_lt_add_pos; assumption.
Qed.

Lemma groups_mutate_good (groups : Groups) (key : string) (f : Group -> Group) :
  Forall (fun kv => goodGroup (snd kv)) groups ->
  (forall g, goodGroup g -> goodGroup (f g)) ->
  Forall (fun kv => goodGroup (snd kv)) (groups_mutate groups key f).
Proof.
  intros H Hf. induction H as [|[k v] rest Hv Hrest IH]; cbn [groups_mutate];
    [constructor|].
  destruct (String.eqb k key); constructor; cbn [snd] in *;
    first [apply Hf; assumption | assumption].
Qed.

Lemma addWord_good (groups : Groups) (w : Word) :
  Forall (fun kv => goodGroup (snd kv)) groups -> goodWord w ->
  Forall (fun kv => goodGroup (snd kv)) (addWord groups w).
Proof.
  intros H (Ht & Hc & Hx & Hy). unfold addWord.
  destruct (groups_get groups (wkey w)) as [existing|].
  - apply groups_mutate_good; [exact H|].
    intros g (Hp & Hk & Hcs & Hcn & Hgx & Hgy).
    unfold goodGroup. cbn [parts confs gbox].
    repeat split.
    + intro E. apply app_eq_nil in E. destruct E as [_ E]. discriminate E.
    + apply Forall_app. split; [exact Hk|]. constructor; [exact Ht|constructor].
    + intro E. apply app_eq_nil in E. destruct E as [_ E]. discriminate E.
    + apply Forall_app. split; [exact Hcn|]. constructor; [exact Hc|constructor].
    + cbn [x0 x1]. eapply Qcle_lt_trans; [exact (proj1 (min_le _ _))|].
      eapply Qclt_le_trans; [exact Hgx|exact (proj1 (max_ge _ _))].
    + cbn [y0 y1]. eapply Qcle_lt_trans; [exact (proj1 (min_le _ _))|].
      eapply Qclt_le_trans; [exact Hgy|exact (proj1 (max_ge _ _))].
  - unfold groups_set. apply Forall_app. split; [exact H|].
    constructor; [|constructor]. cbn [snd]. unfold goodGroup. cbn [parts confs gbox].
    repeat split; try discriminate; try (constructor; [assumption|constructor]);
      assumption.
Qed.

Lemma loop_good (c : Columns) (rows : list string) : forall groups,
  Forall (fun kv => goodGroup (snd kv)) groups ->
  Forall (fun kv => goodGroup (snd kv)) (fold_left (step Number c) rows groups).
Proof.
  induction rows as [|row rest IH]; intros groups H; cbn [fold_left]; [exact H|].
  apply IH. unfold step. destruct (readWord Number c row) as [w|] eqn:E;
    [|exact H].
  apply addWord_good; [exact H|]. eapply readWord_good. exact E.
Qed.

Lemma blockOfGroup_good (joiner : string) (g : Group) :
  goodGroup g ->
  exists b, blockOfGroup joiner g = Some b /\ wellFormedBlock b
            /\ bbox b = gbox g.
Proof.
  intros (Hp & Hk & Hcs & Hcn & Hbox). unfold blockOfGroup.
  destruct (parts g) as [|p ps] eqn:Ep; [congruence|].
  destruct (join_kept joiner p ps Hk) as [Hh Hl].
  rewrite (trim_fixed _ Hh Hl), (headKept_truthy _ Hh). cbn [negb].
  eexists. split; [reflexivity|]. split; [|reflexivity].
  unfold wellFormedBlock. cbn [text confidence bbox].
  repeat split; try apply Hbox.
  - apply trim_fixed; assumption.
  - apply headKept_truthy. exact Hh.
  - destruct (confs g) as [|c0 cs] eqn:Ec; [congruence|].
    cbn [List.length Nat.eqb]. apply Qc_div_nonneg.
    + apply Qc_sum_nonneg; [apply Qcle_refl|exact Hcn].
    + apply ofNat_pos. lia.
Qed.

Lemma blocksOfGroups_good (joiner : string) (groups : list Group) :
  Forall goodGroup groups ->
  Forall wellFormedBlock (blocksOfGroups joiner groups)
  /\ List.length (blocksOfGroups joiner groups) = List.length groups.
Proof.
  induction 1 as [|g rest Hg _ [IH1 IH2]]; cbn [blocksOfGroups List.length].
  - split; [constructor|reflexivity].
  - destruct (blockOfGroup_good joiner g Hg) as (b & -> & Hb & _).
    cbn [List.length]. split; [constructor; assumption|congruence].
Qed.

Lemma blocksFrom_good (c : Columns) (rows : list string) (joiner : string) :
  Forall wellFormedBlock (blocksFrom Number c rows joiner).
Proof.
  unfold blocksFrom. apply sort_Forall. apply blocksOfGroups_good.
  apply Forall_map. apply loop_good. constructor.
Qed.

End BlockInvariant.

Lemma parseTsv_good
      (Number : string -> option Qc) (tsv : option string) (joiner : string) :
  Forall wellFormedBlock (Background.parseTsvToLineBlocks Number tsv joiner).
Proof.
  unfold Background.parseTsvToLineBlocks.
  destruct tsv as [tsv|]; [|constructor].
  destruct (negb (JS.truthy tsv)); [constructor|].
  destruct (List.length (Background.rowsOf tsv) <? 2)%nat; [constructor|].
  destruct (Background.someMissing _); [constructor|].
  apply blocksFrom_good.
Qed.


(** ** Normalizer: reading order *)

Section ReadingOrder.
Import Background.

Lemma Qc_minus_zero (a b : Qc) : (a - b)%Qc = JS.ofZ 0 -> a = b.
Proof.
  intro H. replace a with ((a - b) + b)%Qc by ring. rewrite H.
  change (JS.ofZ 0) with 0%Qc. ring.
Qed.

Lemma Qc_minus_pos (a b : Qc) : (JS.ofZ 0 < a - b)%Qc <-> (b < a)%Qc.
Proof. symmetry. apply Qclt_minus_iff. Qed.

(** The comparator puts [b] strictly before [a] exactly when [a] may not
    stand before [b]. *)
Lemma readingOrder_after (a b : LineBlock) :
  JS.ltb (JS.ofZ 0) (readingOrder a b) = true -> before b a.
Proof.
  unfold readingOrder, before. intro H. apply ltb_lt in H.
  destruct (JS.eqb (y0 (bbox a) - y0 (bbox b))%Qc (JS.ofZ 0)) eqn:E.
  - apply eqb_eq, Qc_minus_zero in E. right. split; [congruence|].
    apply Qclt_le_weak, Qc_minus_pos. exact H.
  - left. apply Qc_minus_pos. exact H.
Qed.

Lemma readingOrder_before (a b : LineBlock) :
  JS.ltb (JS.ofZ 0) (readingOrder a b) = false -> before a b.
Proof.
  unfold readingOrder, before. intro H. apply ltb_ge in H.
  destruct (JS.eqb (y0 (bbox a) - y0 (bbox b))%Qc (JS.ofZ 0)) eqn:E.
  - apply eqb_eq, Qc_minus_zero in E. right. split; [exact E|].
    apply Qcnot_lt_le. intro L. apply Qc_minus_pos in L.
    exact (Qclt_not_le _ _ L H).
  - left. destruct (Qc_dec (y0 (bbox a)) (y0 (bbox b))) as [[L|G]|Eq].
    + exact L.
    + exfalso. apply Qc_minus_pos in G. exact (Qclt_not_le _ _ G H).
    + exfalso. rewrite Eq in E.
      replace (y0 (bbox b) - y0 (bbox b))%Qc with (JS.ofZ 0) in E
        by (change (JS.ofZ 0) with 0%Qc; ring).
      assert (K : JS.eqb (JS.ofZ 0) (JS.ofZ 0) = true) by (apply eqb_eq; reflexivity).
      congruence.
Qed.

Lemma insert_sorted (x : LineBlock) (l : list LineBlock) :
  Sorted before l -> Sorted before (JS.insert readingOrder x l).
Proof.
  induction 1 as [|y l Hs IH Hd]; cbn [JS.insert].
  - constructor; constructor.
  - destruct (JS.ltb (JS.ofZ 0) (readingOrder x y)) eqn:E.
    + constructor; [exact IH|].
      destruct l as [|z l]; cbn [JS.insert].
      * constructor. apply readingOrder_after. exact E.
      * destruct (JS.ltb (JS.ofZ 0) (readingOrder x z)).
        -- constructor. inversion Hd; assumption.
        -- constructor. apply readingOrder_after. exact E.
    + constructor; [constructor; assumption|].
      constructor. apply readingOrder_before. exact E.
Qed.

Lemma sort_sorted (l : list LineBlock) : Sorted before (JS.sort readingOrder l).
Proof.
  unfold JS.sort. induction l as [|x l IH]; cbn [fold_right]; [constructor|].
  apply insert_sorted. exact IH.
Qed.

Lemma before_trans (a b c : LineBlock) : before a b -> before b c -> before a c.
Proof.
  unfold before. intros [H1|[E1 H1]] [H2|[E2 H2]].
  - left. eapply Qclt_trans; eassumption.
  - left. rewrite <- E2. exact H1.
  - left. rewrite E1. exact H2.
  - right. split; [congruence|]. eapply Qcle_trans; eassumption.
Qed.

End ReadingOrder.

(** X2.  The blocks come out in reading order: each block stands higher
    than all the blocks after it, or as high and not further right; and
    sorting loses and adds no block of the groups. *)
Theorem normalized_blocks_in_reading_order
        (Number : string -> option Qc) (tsv : option string) (joiner : string) :
  StronglySorted before (Background.parseTsvToLineBlocks Number tsv joiner)
  /\ forall (c : Background.Columns) (rows : list string),
       Permutation
         (Background.blocksFrom Number c rows joiner)
         (Background.blocksOfGroups joiner
            (map snd (fold_left (Background.step Number c) rows []))).
Proof.
  split.
  - unfold Background.parseTsvToLineBlocks.
    destruct tsv as [tsv|]; [|constructor].
    destruct (negb (JS.truthy tsv)); [constructor|].
    destruct (List.length (Background.rowsOf tsv) <? 2)%nat; [constructor|].
    destruct (Background.someMissing _); [constructor|].
    apply Sorted_StronglySorted.
    + intros x y z. apply before_trans.
    + apply sort_sorted.
  - intros c rows. apply sort_perm.
Qed.

(** X5.  In the table fallback the confidence filter is the only one
    that can drop a block: a block the normalizer returns is translated
    when its confidence reaches 30, with the text and the box it has, and
    dropped for low confidence otherwise, never for its text or its box. *)
Theorem fallback_block_verdict
        (Number : string -> option Qc) (tsv : option string) (joiner : string) :
  Forall (fun b =>
            verdict (Background.ofLineBlock b)
            = if JS.ltb (Background.confidence b) Background.MIN_CONFIDENCE
              then LowConfidence
              else Survives (Background.text b) (Background.bbox b))
         (Background.parseTsvToLineBlocks Number tsv joiner).
Proof.
  eapply Forall_impl; [|apply parseTsv_good].
  intros b (Ht & Hn & _). unfold verdict, confidenceOf, Background.ofLineBlock.
  cbn [Background.ob_confidence Background.ob_conf Background.ob_text
       Background.ob_bbox].
  destruct (JS.ltb (Background.confidence b) Background.MIN_CONFIDENCE);
    [reflexivity|].
  rewrite Ht. destruct (Background.text b); [discriminate Hn|reflexivity].
Qed.

(** ** Normalizer: lines and cells *)

Section Splitting.

Lemma splitLines_LF (s : string) :
  JS.splitLines (String JS.LF s) = "" :: JS.splitLines s.
Proof. reflexivity. Qed.

Lemma splitLines_CRLF (s : string) :
  JS.splitLines (String JS.CR (String JS.LF s)) = "" :: JS.splitLines s.
Proof. reflexivity. Qed.

Lemma splitLines_nonempty (s : string) : JS.splitLines s <> [].
Proof.
  induction s as [|c s IH]; [discriminate|].
  cbn [JS.splitLines]. destruct (Ascii.eqb c JS.LF); [discriminate|].
  destruct (Ascii.eqb c JS.CR).
  - destruct s as [|c2 s2].
    + discriminate.
    + destruct (Ascii.eqb c2 JS.LF); [discriminate|].
      destruct (JS.splitLines (String c2 s2)); discriminate.
  - destruct (JS.splitLines s); discriminate.
Qed.

(** A character that does not end a line goes to the head of the first
    line of what follows. *)
Lemma splitLines_keep (c : ascii) (s : string) :
  Ascii.eqb c JS.LF = false ->
  (Ascii.eqb c JS.CR = true ->
   match s with String c2 _ => Ascii.eqb c2 JS.LF = false | EmptyString => True end) ->
  JS.splitLines (String c s)
  = match JS.splitLines s with
    | h :: t => String c h :: t
    | [] => [String c ""]
    end.
Proof.
  intros Hlf Hcr. cbn [JS.splitLines]. rewrite Hlf.
  destruct (Ascii.eqb c JS.CR); [|reflexivity].
  destruct s as [|c2 s2]; [reflexivity|].
  rewrite (Hcr eq_refl). reflexivity.
Qed.

Lemma lineOk_head (c : ascii) (s : string) :
  lineOk (String c s) = true ->
  Ascii.eqb c JS.LF = false
  /\ (Ascii.eqb c JS.CR = true -> s <> "")
  /\ lineOk s = true.
Proof.
  cbn [lineOk]. intro H.
  apply andb_prop in H. destruct H as [H Hs].
  apply andb_prop in H. destruct H as [Hlf Hcr].
  apply negb_true_iff in Hlf. apply negb_true_iff in Hcr.
  repeat split; try assumption.
  intros Ec ->. rewrite Ec in Hcr. discriminate Hcr.
Qed.

Lemma lineOk_first (s : string) :
  lineOk s = true ->
  match s with String c2 _ => Ascii.eqb c2 JS.LF = false | EmptyString => True end.
Proof.
  destruct s as [|c s]; [trivial|]. intro H. apply lineOk_head in H. apply H.
Qed.

(** A line followed by a line end is split off whole. *)
Lemma splitLines_line (s sep rest : string) :
  lineOk s = true -> sep = NL \/ sep = CRLF ->
  JS.splitLines (s ++ sep ++ rest) = s :: JS.splitLines rest.
Proof.
  intros Hs Hsep. induction s as [|c s IH].
  - destruct Hsep as [-> | ->]; reflexivity.
  - apply lineOk_head in Hs. destruct Hs as (Hlf & Hcr & Hs).
    cbn [append]. rewrite splitLines_keep.
    + rewrite (IH Hs). reflexivity.
    + exact Hlf.
    + intro Ec. specialize (Hcr Ec).
      destruct s as [|c2 s2]; [congruence|].
      cbn [append]. apply lineOk_head in Hs. apply Hs.
Qed.

Lemma splitLines_last (s : string) : lineOk s = true -> JS.splitLines s = [s].
Proof.
  induction s as [|c s IH]; intro Hs; [reflexivity|].
  apply lineOk_head in Hs. destruct Hs as (Hlf & Hcr & Hs).
  rewrite splitLines_keep.
  - rewrite (IH Hs). reflexivity.
  - exact Hlf.
  - intro Ec. apply lineOk_first. exact Hs.
Qed.

(** Lines joined with line feeds, or with carriage return and line feed,
    are split into those lines. *)
Lemma splitLines_join (sep : string) (l : string) (ls : list string) :
  sep = NL \/ sep = CRLF ->
  Forall (fun s => lineOk s = true) (l :: ls) ->
  JS.splitLines (JS.join sep (l :: ls)) = l :: ls.
Proof.
  intros Hsep. revert l. induction ls as [|l2 ls IH]; intros l H.
  - inversion H; subst. apply splitLines_last. assumption.
  - inversion H as [|? ? Hl Hrest]; subst.
    change (JS.join sep (l :: l2 :: ls))
      with (l ++ sep ++ JS.join sep (l2 :: ls)).
    rewrite (splitLines_line l sep _ Hl Hsep), (IH l2 Hrest). reflexivity.
Qed.

Lemma rowsOf_join (sep : string) (ls : list string) :
  sep = NL \/ sep = CRLF ->
  Forall (fun s => lineOk s = true) ls ->
  Background.rowsOf (JS.join sep ls) = filter JS.truthy ls.
Proof.
  intros Hsep H. unfold Background.rowsOf. destruct ls as [|l ls].
  - reflexivity.
  - rewrite (splitLines_join sep l ls Hsep H). reflexivity.
Qed.

Lemma truthy_join (sep : string) (ls : list string) :
  sep = NL \/ sep = CRLF ->
  JS.truthy (JS.join sep ls) = JS.truthy (JS.join NL ls).
Proof.
  intro Hsep. destruct ls as [|l [|l2 ls]]; try reflexivity.
  change (JS.join sep (l :: l2 :: ls)) with (l ++ sep ++ JS.join sep (l2 :: ls)).
  change (JS.join NL (l :: l2 :: ls)) with (l ++ NL ++ JS.join NL (l2 :: ls)).
  destruct l; destruct Hsep as [-> | ->]; reflexivity.
Qed.

Lemma split_cell (cell : string) (rest : string) :
  plainCell cell = true ->
  JS.split JS.TAB (cell ++ String JS.TAB rest) = cell :: JS.split JS.TAB rest.
Proof.
  induction cell as [|c cell IH]; intro H; cbn [append JS.split].
  - rewrite Ascii.eqb_refl. reflexivity.
  - cbn [plainCell] in H. repeat (apply andb_prop in H; destruct H as [H ?]).
    apply negb_true_iff in H. rewrite H, IH by assumption. reflexivity.
Qed.

Lemma split_last (cell : string) :
  plainCell cell = true -> JS.split JS.TAB cell = [cell].
Proof.
  induction cell as [|c cell IH]; intro H; cbn [JS.split]; [reflexivity|].
  cbn [plainCell] in H. repeat (apply andb_prop in H; destruct H as [H ?]).
  apply negb_true_iff in H. rewrite H, IH by assumption. reflexivity.
Qed.

Lemma split_join (cell : string) (cells : list string) :
  forallb plainCell (cell :: cells) = true ->
  JS.split JS.TAB (JS.join (String JS.TAB "") (cell :: cells)) = cell :: cells.
Proof.
  revert cell. induction cells as [|c2 cells IH]; intros cell H;
    cbn [forallb] in H; apply andb_prop in H; destruct H as [Hc Hrest].
  - apply split_last. exact Hc.
  - change (JS.join (String JS.TAB "") (cell :: c2 :: cells))
      with (cell ++ String JS.TAB (JS.join (String JS.TAB "") (c2 :: cells))).
    rewrite (split_cell _ _ Hc), (IH c2 Hrest). reflexivity.
Qed.

Lemma plainCell_app (a b : string) :
  plainCell a = true -> plainCell b = true -> plainCell (a ++ b) = true.
Proof.
  induction a as [|c a IH]; intros Ha Hb; cbn [append plainCell] in *;
    [exact Hb|].
  apply andb_prop in Ha. destruct Ha as [Hc Ha].
  rewrite Hc, (IH Ha Hb). reflexivity.
Qed.

Lemma unbroken_app (a b : string) :
  unbroken a = true -> unbroken b = true -> unbroken (a ++ b) = true.
Proof.
  induction a as [|c a IH]; intros Ha Hb; cbn [append unbroken] in *;
    [exact Hb|].
  apply andb_prop in Ha. destruct Ha as [Hc Ha].
  rewrite Hc, (IH Ha Hb). reflexivity.
Qed.

Lemma plainCell_unbroken (s : string) : plainCell s = true -> unbroken s = true.
Proof.
  induction s as [|c s IH]; intro H; cbn [plainCell unbroken] in *;
    [reflexivity|].
  apply andb_prop in H. destruct H as [H Hs].
  apply andb_prop in H. destruct H as [H Hcr].
  apply andb_prop in H. destruct H as [_ Hlf].
  rewrite (IH Hs), Hlf, Hcr. reflexivity.
Qed.

Lemma unbroken_lineOk (s : string) : unbroken s = true -> lineOk s = true.
Proof.
  induction s as [|c s IH]; intro H; cbn [lineOk unbroken] in *;
    [reflexivity|].
  apply andb_prop in H. destruct H as [H Hs].
  apply andb_prop in H. destruct H as [Hlf Hcr].
  rewrite (IH Hs), Hlf. apply negb_true_iff in Hcr. rewrite Hcr. reflexivity.
Qed.

Lemma join_unbroken (cells : list string) :
  forallb plainCell cells = true ->
  unbroken (JS.join (String JS.TAB "") cells) = true.
Proof.
  induction cells as [|c cells IH]; intro H; [reflexivity|].
  cbn [forallb] in H. apply andb_prop in H. destruct H as [Hc Hrest].
  destruct cells as [|c2 cells]; [apply plainCell_unbroken; exact Hc|].
  change (JS.join (String JS.TAB "") (c :: c2 :: cells))
    with (c ++ String JS.TAB "" ++ JS.join (String JS.TAB "") (c2 :: cells)).
  apply unbroken_app; [apply plainCell_unbroken; exact Hc|].
  apply unbroken_app; [reflexivity|]. apply IH. exact Hrest.
Qed.

Lemma plainRow_line (row : list string) :
  plainRow row = true ->
  lineOk (JS.join (String JS.TAB "") row) = true
  /\ JS.truthy (JS.join (String JS.TAB "") row) = true
  /\ JS.split JS.TAB (JS.join (String JS.TAB "") row) = row.
Proof.
  unfold plainRow. intro H. apply andb_prop in H. destruct H as [Hc Hn].
  split; [apply unbroken_lineOk, join_unbroken; exact Hc|].
  destruct row as [|c cells]; [discriminate Hn|].
  split; [|apply split_join; exact Hc].
  destruct cells as [|c2 cells].
  - destruct c; [discriminate Hn|reflexivity].
  - change (JS.join (String JS.TAB "") (c :: c2 :: cells))
      with (c ++ String JS.TAB "" ++ JS.join (String JS.TAB "") (c2 :: cells)).
    destruct c; reflexivity.
Qed.

End Splitting.

(** X3.  Line ends do not matter: a table whose lines end in carriage
    return and line feed is normalized to the same blocks as the table
    with the same lines ended by line feeds, and empty lines count for
    nothing in either. *)
Theorem line_ends_do_not_matter
        (Number : string -> option Qc) (lines : list string) (joiner : string) :
  forallb lineOk lines = true ->
  Background.parseTsvToLineBlocks Number (Some (JS.join CRLF lines)) joiner
  = Background.parseTsvToLineBlocks Number (Some (JS.join NL lines)) joiner
  /\ Background.rowsOf (JS.join CRLF lines) = filter JS.truthy lines.
Proof.
  intro H.
  assert (H' : Forall (fun s => lineOk s = true) lines)
    by (apply Forall_forall; apply (proj1 (forallb_forall _ _) H)).
  pose proof (rowsOf_join CRLF lines (or_intror eq_refl) H') as E1.
  pose proof (rowsOf_join NL lines (or_introl eq_refl) H') as E2.
  split; [|exact E1].
  unfold Background.parseTsvToLineBlocks, Background.headerOf.
  rewrite (truthy_join CRLF lines (or_intror eq_refl)), E1, E2. reflexivity.
Qed.

Lemma line_ends_do_not_matter_witness :
  Background.parseTsvToLineBlocks Numeral.Number
    (Some (JS.join CRLF (headerLine :: noisyRows))) " "
  = Background.parseTsvToLineBlocks Numeral.Number
      (Some (JS.join NL (headerLine :: noisyRows))) " "
  /\ Background.rowsOf (JS.join CRLF (headerLine :: noisyRows))
     = filter JS.truthy (headerLine :: noisyRows).
Proof.
  apply (line_ends_do_not_matter Numeral.Number
           (headerLine :: noisyRows) " ").
  vm_compute. reflexivity.
Defined.

(** X4.  Reading back a table: rows of cells without tab, line feed or
    carriage return, written with tabs between the cells and line feeds
    between the rows, are split into those rows and cells. *)
Theorem table_read_back (table : list (list string)) :
  forallb plainRow table = true ->
  map (JS.split JS.TAB) (Background.rowsOf (Background.tsvOf table)) = table.
Proof.
  intro H. unfold Background.tsvOf.
  assert (Hrows : Forall (fun row => plainRow row = true) table)
    by (apply Forall_forall; apply (proj1 (forallb_forall _ _) H)).
  change (String JS.LF "") with NL.
  rewrite rowsOf_join.
  - clear H. induction Hrows as [|row rest Hr _ IH]; [reflexivity|].
    destruct (plainRow_line row Hr) as (_ & Ht & Es).
    cbn [map filter]. rewrite Ht. cbn [map]. rewrite Es, IH. reflexivity.
  - left. reflexivity.
  - apply Forall_map. eapply Forall_impl; [|exact Hrows].
    intros row Hr. apply plainRow_line. exact Hr.
Qed.

Lemma table_read_back_witness :
  map (JS.split JS.TAB)
      (Background.rowsOf
         (Background.tsvOf
            [Background.requiredColumns;
             ["5"; "1"; "1"; "1"; "1"; "1"; "0"; "0"; "10"; "10"; "90"; "Hello"]]))
  = [Background.requiredColumns;
     ["5"; "1"; "1"; "1"; "1"; "1"; "0"; "0"; "10"; "10"; "90"; "Hello"]].
Proof.
  apply (table_read_back
           [Background.requiredColumns;
            ["5"; "1"; "1"; "1"; "1"; "1"; "0"; "0"; "10"; "10"; "90"; "Hello"]]).
  vm_compute. reflexivity.
Defined.

(** ** The pipeline as a whole *)

Section WholePipeline.
Import Background.

Variable Number : string -> option Qc.
Variable world : World.

(** The pipeline, stage by stage. *)
Lemma pipeline_stages (msg : Message) (tabId : nat) (b : Browser) :
  handleImagePipeline Number world msg tabId b
  = match getTranslator world with
    | Throw e => (b, Throw (stepError "Loading Translator" e))
    | Ok _ =>
        match fetchImage (network world) (src msg) (pageUrl msg) tabId b with
        | (b1, Throw e) => (b1, Throw (stepError "Fetching Image" e))
        | (b1, Ok _) =>
            match createImageBitmap world with
            | Throw e => (b1, Throw (stepError "Creating Bitmap" e))
            | Ok bitmap =>
                match initOCR world with
                | Throw e => (b1, Throw (stepError "Initializing OCR" e))
                | Ok _ =>
                    match recognize world with
                    | Throw e => (b1, Throw (stepError "Running OCR" e))
                    | Ok data =>
                        match translateBlocks world (chooseBlocks Number msg data)
                                noTally b1 with
                        | (b2, Throw e) => (b2, Throw (stepError "Translating" e))
                        | (b2, Ok t) =>
                            ({| onBeforeSendHeaders := onBeforeSendHeaders b2;
                                onHeadersReceived := onHeadersReceived b2;
                                nextClosure := nextClosure b2;
                                trace :=
                                  (trace b2
                                   ++ [Summary (List.length (translatedBlocks t))
                                         (skippedLowConfidence t) (skippedNoText t)
                                         (skippedNoBbox t)])%list |},
                             Ok {| success := true; originalSrc := src msg;
                                   resultBlocks := translatedBlocks t;
                                   imgWidth := fst bitmap;
                                   imgHeight := snd bitmap |})
                        end
                    end
                end
            end
        end
    end.
Proof.
  cbv beta iota zeta delta [handleImagePipeline bind atStep tryCatch await throw
                            ret emit stepError].
  destruct (getTranslator world); [|reflexivity].
  destruct (fetchImage (network world) (src msg) (pageUrl msg) tabId b)
    as [b1 [blob|e]]; [|reflexivity].
  destruct (createImageBitmap world); [|reflexivity].
  destruct (initOCR world); [|reflexivity].
  destruct (recognize world) as [data|]; [|reflexivity].
  destruct (translateBlocks world (chooseBlocks Number msg data) noTally b1)
    as [b2 [t|e]]; reflexivity.
Qed.

Lemma stepError_tagged (step e : string) :
  In step pipelineSteps -> tagged (stepError step e).
Proof.
  intro H. exists step, (if JS.truthy e then e else "Unknown error").
  split; [exact H|]. split; [|reflexivity].
  destruct (JS.truthy e) eqn:E; [exact E|reflexivity].
Qed.

Lemma fetchImage_listeners (msg : Message) (tabId : nat) (b : Browser) :
  createdBefore b ->
  let b1 := fst (fetchImage (network world) (src msg) (pageUrl msg) tabId b) in
  onBeforeSendHeaders b1 = onBeforeSendHeaders b
  /\ onHeadersReceived b1 = onHeadersReceived b.
Proof.
  intros H b1. subst b1. unfold fetchImage, tryCatch.
  pose proof (spoofed_fetch_listeners (network world) (src msg) (pageUrl msg) b H)
    as (E1 & E2 & _).
  destruct (fetchImageWithReferrer (network world) (src msg) (pageUrl msg) b)
    as [b1 [blob|e1]]; cbn [fst] in *; [split; assumption|].
  rewrite direct_tier.
  destruct (snd (fetchDirect (network world) (src msg) b1)) as [blob|e2];
    cbn [fst onBeforeSendHeaders onHeadersReceived]; [split; assumption|].
  rewrite relayed_tier. cbn [fst onBeforeSendHeaders onHeadersReceived].
  split; assumption.
Qed.

(** X7.  The pipeline leaks no interceptor: whatever happens in it (any
    tier failing or not, any later stage failing or not), the listeners
    installed on the two request events are afterwards those installed
    before. *)
Theorem pipeline_leaves_no_interceptor (msg : Message) (tabId : nat) (b : Browser) :
  createdBefore b ->
  onBeforeSendHeaders (fst (handleImagePipeline Number world msg tabId b))
  = onBeforeSendHeaders b
  /\ onHeadersReceived (fst (handleImagePipeline Number world msg tabId b))
     = onHeadersReceived b.
Proof.
  intros H. rewrite pipeline_stages.
  pose proof (fetchImage_listeners msg tabId b H) as F. cbv zeta in F.
  destruct (getTranslator world); [|split; reflexivity].
  destruct (fetchImage (network world) (src msg) (pageUrl msg) tabId b)
    as [b1 [blob|e]]; cbn [fst] in *; [|exact F].
  destruct (createImageBitmap world); [|exact F].
  destruct (initOCR world); [|exact F].
  destruct (recognize world) as [data|]; [|exact F].
  pose proof (translateBlocks_spec world (chooseBlocks Number msg data)
                noTally b1) as T. cbv zeta in T.
  destruct T as (T1 & T2 & _).
  destruct (translateBlocks world (chooseBlocks Number msg data) noTally b1)
    as [b2 [t|e]]; cbn [fst onBeforeSendHeaders onHeadersReceived] in *;
    destruct F as [F1 F2]; split; congruence.
Qed.

(** X6.  However the pipeline ends, it ends in one of two ways: with a
    result flagged as a success, naming the image, carrying the size of
    the bitmap and one translated block per block that passed the filter,
    in order; or with an error whose message is [[step] detail], the step
    being one of the six the pipeline goes through and the detail not
    empty. *)
Theorem pipeline_outcome (msg : Message) (tabId : nat) (b : Browser) :
  match snd (handleImagePipeline Number world msg tabId b) with
  | Ok result =>
      success result = true
      /\ originalSrc result = src msg
      /\ exists bitmap data,
          createImageBitmap world = Ok bitmap
          /\ recognize world = Ok data
          /\ imgWidth result = fst bitmap /\ imgHeight result = snd bitmap
          /\ Forall2 (answers world)
                     (survivors (chooseBlocks Number msg data))
                     (resultBlocks result)
  | Throw e => tagged e
  end.
Proof.
  rewrite pipeline_stages. unfold pipelineSteps.
  destruct (getTranslator world);
    [|apply stepError_tagged; unfold pipelineSteps; cbn; tauto].
  destruct (fetchImage (network world) (src msg) (pageUrl msg) tabId b)
    as [b1 [blob|e]]; cbn [snd];
    [|apply stepError_tagged; unfold pipelineSteps; cbn; tauto].
  destruct (createImageBitmap world) as [bitmap|]; cbn [snd];
    [|apply stepError_tagged; unfold pipelineSteps; cbn; tauto].
  destruct (initOCR world); cbn [snd];
    [|apply stepError_tagged; unfold pipelineSteps; cbn; tauto].
  destruct (recognize world) as [data|]; cbn [snd];
    [|apply stepError_tagged; unfold pipelineSteps; cbn; tauto].
  pose proof (translateBlocks_calls world (chooseBlocks Number msg data)
                noTally b1) as T. cbv zeta in T.
  destruct (translateBlocks world (chooseBlocks Number msg data) noTally b1)
    as [b2 [t|e]]; cbn [snd] in *;
    [|apply stepError_tagged; unfold pipelineSteps; cbn; tauto].
  cbn [success originalSrc imgWidth imgHeight resultBlocks].
  split; [reflexivity|]. split; [reflexivity|].
  exists bitmap, data. repeat split.
  destruct T as (_ & new & Hnew & Hall). cbn in Hnew. rewrite Hnew. exact Hall.
Qed.

End WholePipeline.

Lemma pipeline_leaves_no_interceptor_witness :
  Background.onBeforeSendHeaders
    (fst (Background.handleImagePipeline Numeral.Number boxlessWorld pageMessage 7
            busyBrowser))
  = Background.onBeforeSendHeaders busyBrowser
  /\ Background.onHeadersReceived
       (fst (Background.handleImagePipeline Numeral.Number boxlessWorld
               pageMessage 7 busyBrowser))
     = Background.onHeadersReceived busyBrowser.
Proof.
  apply (pipeline_leaves_no_interceptor Numeral.Number boxlessWorld pageMessage 7
           busyBrowser).
  unfold createdBefore, busyBrowser; cbn. split; repeat constructor.
Defined.

(** ** Message transport *)

Section RetryFacts.
Import Background Transport.

Context {R : Type}.
Variable sendMessage : nat -> Result R.

Lemma attemptsFrom_spec (delay : nat) : forall remaining i,
  let steps := fst (attemptsFrom sendMessage remaining i delay) in
  let out := snd (attemptsFrom sendMessage remaining i delay) in
  (sentCount steps <= remaining)%nat
  /\ waitedTotal steps = (delay * pred (sentCount steps))%nat
  /\ match out with
     | Ok (Some r) =>
         exists k, (k < remaining)%nat /\ sendMessage (i + k)%nat = Ok r
                   /\ (forall j, (j < k)%nat ->
                                 exists e, sendMessage (i + j)%nat = Throw e)
                   /\ sentCount steps = S k
     | Ok None => remaining = 0%nat /\ steps = []
     | Throw e =>
         (0 < remaining)%nat
         /\ sendMessage (i + pred remaining)%nat = Throw e
         /\ (forall j, (j < remaining)%nat ->
                       exists e', sendMessage (i + j)%nat = Throw e')
         /\ sentCount steps = remaining
     end.
Proof.
  induction remaining as [|remaining IH]; intro i; cbn [attemptsFrom].
  - cbn. split; [lia|]. split; [lia|]. split; reflexivity.
  - destruct (sendMessage i) as [r|err] eqn:Es.
    + cbn [fst snd sentCount waitedTotal pred].
      split; [lia|]. split; [lia|].
      exists 0%nat. rewrite Nat.add_0_r.
      split; [lia|]. split; [exact Es|]. split; [|reflexivity].
      intros j Hj. lia.
    + destruct remaining as [|remaining'].
      * cbn [fst snd sentCount waitedTotal pred].
        split; [lia|]. split; [lia|]. split; [lia|].
        rewrite Nat.add_0_r. split; [exact Es|]. split; [|reflexivity].
        intros j Hj. assert (j = 0)%nat by lia. subst j.
        rewrite Nat.add_0_r. eauto.
      * specialize (IH (S i)). cbv zeta in IH.
        destruct (attemptsFrom sendMessage (S remaining') (S i) delay)
          as [steps out]. cbn [fst snd] in *.
        destruct IH as (Hc & Hw & Ho).
        cbn [sentCount waitedTotal pred]. split; [lia|]. split.
        -- rewrite Hw. destruct out as [[r|]|e].
           ++ destruct Ho as (k & _ & _ & _ & ->). cbn [pred]. lia.
           ++ destruct Ho as [Ho _]. discriminate Ho.
           ++ destruct Ho as (_ & _ & _ & ->). cbn [pred]. lia.
        -- assert (Hshift : forall j, (S i + j = i + S j)%nat) by (intro; lia).
           destruct out as [[r|]|e].
           ++ destruct Ho as (k & Hk & Er & Hfail & Hs).
              exists (S k). split; [lia|]. split; [rewrite <- Hshift; exact Er|].
              split; [|lia].
              intros j Hj. destruct j as [|j].
              ** rewrite Nat.add_0_r. eauto.
              ** rewrite <- Hshift. apply Hfail. lia.
           ++ destruct Ho as [Ho _]. discriminate Ho.
           ++ destruct Ho as (_ & Ee & Hfail & Hs).
              split; [lia|]. split.
              ** cbn [pred] in *. rewrite <- Hshift. exact Ee.
              ** split; [|lia]. intros j Hj. destruct j as [|j].
                 --- rewrite Nat.add_0_r. eauto.
                 --- rewrite <- Hshift. apply Hfail. lia.
Qed.

End RetryFacts.

(** X8.  [sendMessageWithRetry] sends at most [retries] times and waits
    [delay] between two attempts, never after the last.  It resolves with
    the answer of the first attempt that succeeds, all attempts before it
    having failed; it rejects, with the error of the last attempt, exactly
    when all [retries] attempts fail; and with [retries = 0] it sends
    nothing and resolves with nothing. *)
Theorem retry_is_bounded
        (R : Type) (sendMessage : nat -> Background.Result R)
        (retries delay : nat) :
  let steps := fst (Transport.sendMessageWithRetry sendMessage retries delay) in
  let out := snd (Transport.sendMessageWithRetry sendMessage retries delay) in
  (Transport.sentCount steps <= retries)%nat
  /\ Transport.waitedTotal steps = (delay * pred (Transport.sentCount steps))%nat
  /\ match out with
     | Background.Ok (Some r) =>
         exists k, (k < retries)%nat /\ sendMessage k = Background.Ok r
                   /\ (forall j, (j < k)%nat ->
                                 exists e, sendMessage j = Background.Throw e)
                   /\ Transport.sentCount steps = S k
     | Background.Ok None => retries = 0%nat /\ steps = []
     | Background.Throw e =>
         (0 < retries)%nat
         /\ sendMessage (pred retries) = Background.Throw e
         /\ (forall j, (j < retries)%nat ->
                       exists e', sendMessage j = Background.Throw e')
         /\ Transport.sentCount steps = retries
     end.
Proof.
  exact (attemptsFrom_spec sendMessage delay retries 0).
Qed.

(** The third of five attempts succeeds after two waits of a second. *)
Example retry_third_attempt :
  Transport.sendMessageWithRetry flakyChannel 5 1000
  = ([Transport.Sent 0; Transport.Waited 1000; Transport.Sent 1;
      Transport.Waited 1000; Transport.Sent 2],
     Background.Ok (Some "response")).
Proof. reflexivity. Qed.

(** X9.  The relay round trip: when the content script answers
    [FETCH_IMAGE], the background's relayed fetch returns the bytes the
    page's fetch read, if that fetch was answered with a success status
    and its body could be read; otherwise it fails, with the message
    [HTTP status] for a response that is not ok, and in every case with
    a message that is not empty. *)
Theorem relay_round_trip
        (errorName : string)
        (fetched : Background.Result Background.Response)
        (net : Background.Network) (tabId : nat) (url : string)
        (b : Background.Browser) :
  match snd (Background.fetchImageViaContent (relayedBy errorName fetched net)
               tabId url b) with
  | Background.Ok buffer =>
      exists resp, fetched = Background.Ok resp
                   /\ Background.ok resp = true
                   /\ Background.blob resp = Background.Ok buffer
  | Background.Throw e =>
      JS.truthy e = true
      /\ match fetched with
         | Background.Ok resp =>
             if Background.ok resp
             then exists e', Background.blob resp = Background.Throw e'
             else e = "HTTP " ++ Background.showNat (Background.status resp)
         | Background.Throw _ => True
         end
  end.
Proof.
  unfold Background.fetchImageViaContent, relayedBy, Transport.fetchImageListener,
    Background.bind, Background.emit, Background.await, Background.ret,
    Background.throw.
  cbn [Background.relay fst snd].
  destruct fetched as [[[] st stt [buffer|e]]|e];
    cbn [Background.ok Background.blob Background.status negb
         Background.r_ok Background.r_buffer Background.r_error snd].
  - eexists. repeat split.
  - split; [|eauto].
    destruct (JS.truthy e) eqn:E; [rewrite E; exact E|].
    destruct errorName; reflexivity.
  - split; reflexivity.
  - split; reflexivity.
  - split; [|exact I].
    destruct (JS.truthy e) eqn:E; [rewrite E; exact E|].
    destruct errorName; reflexivity.
Qed.

(** ** A run without text, seen from the page *)

Section NoText.
Import Content.

Variable minSide : Z.
Variable present : Img -> list TranslatedBlock -> Z -> Z -> Img.

Lemma update_nth (doc : list Img) (f : Img -> Img) : forall i x,
  nth_error doc i = Some x -> nth_error (update doc i f) i = Some (f x).
Proof.
  induction doc as [|y doc IH]; intros [|i] x H; cbn in *; try discriminate H.
  - injection H as <-. reflexivity.
  - apply IH. exact H.
Qed.

Lemma discover_finds (s : Settings) (doc : list Img) : forall i n x,
  nth_error doc n = Some x -> skipped minSide x = false ->
  In {| img := (i + n)%nat; settings := s |} (snd (discover minSide s i doc)).
Proof.
  induction doc as [|y doc IH]; intros i [|n] x H Hs; cbn [nth_error] in H;
    try discriminate H; cbn [discover].
  - injection H as <-.
    destruct (discover minSide s (S i) doc) as [rest' tasks].
    rewrite Hs. cbn [snd]. left. rewrite Nat.add_0_r. reflexivity.
  - specialize (IH (S i) n x H Hs).
    destruct (discover minSide s (S i) doc) as [rest' tasks]. cbn [snd] in IH.
    replace (i + S n)%nat with (S i + n)%nat by lia.
    destruct (skipped minSide y); cbn [snd]; [exact IH|right; exact IH].
Qed.

Lemma failure_requeues (st : State) (k : nat) (task : Task) (x : Img)
      (r : Settled) (s : Settings) :
  nth_error (inFlight st) k = Some task ->
  nth_error (document st) (img task) = Some x ->
  (minSide <= width x)%Z -> (minSide <= height x)%Z ->
  usable r = None ->
  exists st',
    settle present k r st = Some st'
    /\ option_map status (nth_error (document st') (img task)) = Some ""
    /\ In (Failed (img task)) (log st')
    /\ In {| img := img task; settings := s |}
          (snd (discover minSide s 0 (document st'))).
Proof.
  intros Hk Hx Hw Hh Hu. unfold settle. rewrite Hk, Hu.
  eexists. split; [reflexivity|].
  rewrite processQueue_document. cbn [document].
  pose proof (update_nth (document st)
                (fun x => setScaffold false false (setStatus "" x))
                (img task) x Hx) as E.
  split; [rewrite E; reflexivity|]. split.
  - unfold processQueue. cbn [activeProcessors imageQueue log].
    destruct (_ >=? MAX_CONCURRENT)%Z; cbn [log];
      [apply in_or_app; right; left; reflexivity|].
    destruct (imageQueue st); cbn [log]; apply in_or_app.
    + right. left. reflexivity.
    + left. apply in_or_app. right. left. reflexivity.
  - apply (discover_finds s _ 0%nat (img task) _ E).
    unfold skipped. cbn [width height status setScaffold setStatus JS.truthy].
    destruct (Z.ltb_spec (width x) minSide); [lia|].
    destruct (Z.ltb_spec (height x) minSide); [lia|]. reflexivity.
Qed.

End NoText.

(** X10.  A pipeline run that succeeds with no block counts as a failure
    on the page: the content script logs the task as failed, clears the
    status of the image, and, the image being large enough, the next scan
    queues it again. *)
Theorem no_text_is_a_failure
        (minSide : Z)
        (present : Content.Img -> list Content.TranslatedBlock -> Z -> Z -> Content.Img)
        (st : Content.State) (k : nat) (task : Content.Task) (x : Content.Img)
        (result : Background.PipelineResult) (s : Content.Settings) :
  nth_error (Content.inFlight st) k = Some task ->
  nth_error (Content.document st) (Content.img task) = Some x ->
  (minSide <= Content.width x)%Z -> (minSide <= Content.height x)%Z ->
  Background.resultBlocks result = [] ->
  exists st',
    Content.settle present k
      (Content.Resolved (Some (Content.answer (Background.Ok result)))) st
    = Some st'
    /\ option_map Content.status
         (nth_error (Content.document st') (Content.img task)) = Some ""
    /\ In (Content.Failed (Content.img task)) (Content.log st')
    /\ In {| Content.img := Content.img task; Content.settings := s |}
          (snd (Content.discover minSide s 0 (Content.document st'))).
Proof.
  intros Hk Hx Hw Hh Hb.
  apply (failure_requeues minSide present st k task x _ s Hk Hx Hw Hh).
  unfold Content.usable, Content.answer. cbn [Content.success Content.blocks].
  rewrite Hb. destruct (Background.success result); reflexivity.
Qed.

Lemma no_text_is_a_failure_witness :
  exists st',
    Content.settle Content.overlayTranslations 0
      (Content.Resolved (Some (Content.answer (Background.Ok emptyResult))))
      (Content.scanAndTranslate 50 enEs (Content.loaded [bigImg]))
    = Some st'
    /\ option_map Content.status (nth_error (Content.document st') 0) = Some ""
    /\ In (Content.Failed 0) (Content.log st')
    /\ In {| Content.img := 0; Content.settings := enEs |}
          (snd (Content.discover 50 enEs 0 (Content.document st'))).
Proof.
  apply (no_text_is_a_failure 50 Content.overlayTranslations
           (Content.scanAndTranslate 50 enEs (Content.loaded [bigImg])) 0
           {| Content.img := 0; Content.settings := enEs |}
           (Content.setScaffold true true (Content.setStatus "queued" bigImg))
           emptyResult enEs);
    try reflexivity; cbn; lia.
Defined.

(** ** Every queued image has exactly one task *)

Section Accounting.
Import Content.

Variable minSide : Z.
Variable present : Img -> list TranslatedBlock -> Z -> Z -> Img.

Lemma accounts_perm (l l' : list nat) (doc : list Img) :
  Permutation l l' -> accounts l doc -> accounts l' doc.
Proof.
  intros Hp [Hnd Hiff]. split.
  - eapply Permutation_NoDup; eassumption.
  - intro i. rewrite <- Hiff. split; apply Permutation_in;
      [symmetry; exact Hp | exact Hp].
Qed.

Lemma processQueue_tracked (st : State) :
  Permutation (tracked (processQueue st)) (tracked st).
Proof.
  unfold processQueue.
  destruct (activeProcessors st >=? MAX_CONCURRENT)%Z; [reflexivity|].
  destruct (imageQueue st) as [|task rest] eqn:Eq; [reflexivity|].
  unfold tracked. rewrite Eq. cbn [imageQueue inFlight].
  apply Permutation_map.
  rewrite app_assoc. cbn [app]. symmetry. apply Permutation_cons_append.
Qed.

Lemma processQueue_accounts (st : State) :
  accounts (tracked st) (document st) ->
  accounts (tracked (processQueue st)) (document (processQueue st)).
Proof.
  intro H. rewrite processQueue_document.
  eapply accounts_perm; [|exact H]. symmetry. apply processQueue_tracked.
Qed.

Lemma skipped_not_queued (x : Img) :
  skipped minSide x = false -> isQueued x = false.
Proof.
  unfold skipped, isQueued. intro H.
  apply orb_false_elim in H. destruct H as [_ H].
  destruct (status x); [reflexivity|discriminate H].
Qed.

(** What [discover] does to each element, and which tasks it pushes. *)
Lemma discover_each (s : Settings) (doc : list Img) : forall i,
  let doc' := fst (discover minSide s i doc) in
  let found := map img (snd (discover minSide s i doc)) in
  (forall n,
      match nth_error doc n with
      | None => nth_error doc' n = None
      | Some x =>
          exists x', nth_error doc' n = Some x'
                     /\ if skipped minSide x
                        then x' = x /\ ~ In (i + n)%nat found
                        else isQueued x' = true /\ In (i + n)%nat found
      end)
  /\ (forall j, In j found -> (i <= j < i + List.length doc)%nat)
  /\ NoDup found.
Proof.
  induction doc as [|x doc IH]; intro i; cbn [discover].
  - cbn. split; [intros [|n]; reflexivity|]. split; [intros j []|constructor].
  - specialize (IH (S i)). cbv zeta in IH.
    destruct (discover minSide s (S i) doc) as [rest' tasks].
    cbn [fst snd] in IH. destruct IH as (Heach & Hrange & Hnd).
    destruct (skipped minSide x) eqn:Hs; cbn [fst snd map List.length].
    + split; [|split].
      * intros [|n]; cbn [nth_error].
        -- exists x. rewrite Hs. split; [reflexivity|]. split; [reflexivity|].
           intro Hin. apply Hrange in Hin. lia.
        -- specialize (Heach n).
           replace (i + S n)%nat with (S i + n)%nat by lia. exact Heach.
      * intros j Hj. apply Hrange in Hj. lia.
      * exact Hnd.
    + split; [|split].
      * intros [|n]; cbn [nth_error].
        -- eexists. rewrite Hs. split; [reflexivity|].
           split; [reflexivity|]. cbn [map In img]. left. lia.
        -- specialize (Heach n).
           replace (i + S n)%nat with (S i + n)%nat by lia.
           destruct (nth_error doc n) as [y|]; [|exact Heach].
           destruct Heach as (y' & Ey & Hy). exists y'. split; [exact Ey|].
           destruct (skipped minSide y).
           ++ destruct Hy as [-> Hy]. split; [reflexivity|].
              cbn [map In img]. intros [E|Hin]; [lia|contradiction].
           ++ destruct Hy as [Hq Hin]. split; [exact Hq|].
              cbn [map In img]. right. exact Hin.
      * cbn [map In img]. intros j [<-|Hj]; [lia|]. apply Hrange in Hj. lia.
      * cbn [map img]. constructor; [|exact Hnd].
        intro Hin. apply Hrange in Hin. lia.
Qed.

Lemma scan_accounts (s : Settings) (st : State) :
  accounts (tracked st) (document st) ->
  accounts (tracked (scanAndTranslate minSide s st))
           (document (scanAndTranslate minSide s st)).
Proof.
  intros [Hnd Hiff]. unfold scanAndTranslate.
  pose proof (discover_each s (document st) 0) as D. cbv zeta in D.
  destruct (discover minSide s 0 (document st)) as [doc' tasks].
  cbn [fst snd] in D. destruct D as (Heach & Hrange & Hnew).
  apply processQueue_accounts. cbn [document]. unfold tracked in *.
  cbn [imageQueue inFlight].
  apply (accounts_perm (map img (imageQueue st ++ inFlight st) ++ map img tasks)).
  { rewrite <- map_app. apply Permutation_map.
    rewrite <- !app_assoc. apply Permutation_app_head. apply Permutation_app_comm. }
  assert (Hfresh : forall j, In j (map img tasks) ->
                             ~ In j (map img (imageQueue st ++ inFlight st))).
  { intros j Hj Hold. apply Hiff in Hold. destruct Hold as (x & Ex & Hq).
    specialize (Heach j). rewrite Ex in Heach.
    destruct Heach as (x' & _ & Hx).
    destruct (skipped minSide x) eqn:Hs.
    - destruct Hx as [_ Hx]. apply Hx. exact Hj.
    - apply skipped_not_queued in Hs. congruence. }
  split.
  - apply NoDup_app; try assumption.
    intros j Hold Hj. exact (Hfresh j Hj Hold).
  - intro i. rewrite in_app_iff, Hiff. specialize (Heach i). cbn [Nat.add] in Heach.
    split.
    + intros [(x & Ex & Hq)|Hj].
      * rewrite Ex in Heach. destruct Heach as (x' & Ex' & Hx).
        exists x'. split; [exact Ex'|].
        destruct (skipped minSide x); [destruct Hx as [-> _]; exact Hq|apply Hx].
      * destruct (nth_error (document st) i) as [x|] eqn:Ex.
        -- destruct Heach as (x' & Ex' & Hx). exists x'. split; [exact Ex'|].
           destruct (skipped minSide x); [destruct Hx as [_ Hx]; contradiction|apply Hx].
        -- apply Hrange in Hj. apply nth_error_None in Ex. lia.
    + intros (x' & Ex' & Hq').
      destruct (nth_error (document st) i) as [x|] eqn:Ex; [|congruence].
      destruct Heach as (y & Ey & Hx). rewrite Ex' in Ey. injection Ey as <-.
      destruct (skipped minSide x).
      * destruct Hx as [-> _]. left. exists x. split; [reflexivity|exact Hq'].
      * right. apply Hx.
Qed.

Lemma update_other (doc : list Img) (f : Img -> Img) : forall i j,
  i <> j -> nth_error (update doc i f) j = nth_error doc j.
Proof.
  induction doc as [|y doc IH]; intros [|i] [|j] H; cbn; try reflexivity;
    try congruence.
  apply IH. congruence.
Qed.

Lemma update_same (doc : list Img) (f : Img -> Img) : forall i,
  nth_error (update doc i f) i = option_map f (nth_error doc i).
Proof.
  induction doc as [|y doc IH]; intros [|i]; cbn; try reflexivity. apply IH.
Qed.

Lemma removeAt_perm {A : Type} (l : list A) : forall k x,
  nth_error l k = Some x -> Permutation l (x :: removeAt k l).
Proof.
  induction l as [|y l IH]; intros [|k] x H; cbn in *; try discriminate H.
  - injection H as <-. reflexivity.
  - rewrite (IH k x H) at 1. apply perm_swap.
Qed.

Lemma settle_accounts (k : nat) (r : Settled) (st st' : State) :
  accounts (tracked st) (document st) ->
  settle present k r st = Some st' ->
  accounts (tracked st') (document st').
Proof.
  intros H Hs. unfold settle in Hs.
  destruct (nth_error (inFlight st) k) as [task|] eqn:Ek; [|discriminate Hs].
  assert (Hp : Permutation (tracked st)
                 (img task :: map img (imageQueue st ++ removeAt k (inFlight st)))).
  { unfold tracked. rewrite (removeAt_perm _ _ _ Ek) at 1.
    rewrite !map_app. cbn [map].
    symmetry. apply Permutation_middle. }
  apply (accounts_perm _ _ _ Hp) in H. destruct H as [Hnd Hiff].
  inversion Hnd as [|? ? Hnotin Hnd']; subst.
  assert (Hgen : forall f : Img -> Img,
             (forall x, isQueued (f x) = false) ->
             accounts (map img (imageQueue st ++ removeAt k (inFlight st)))
                      (update (document st) (img task) f)).
  { intros f Hf. split; [exact Hnd'|]. intro i. split.
    - intro Hin. assert (i <> img task) by congruence.
      rewrite update_other by congruence.
      apply Hiff. right. exact Hin.
    - intros (x & Ex & Hq).
      destruct (Nat.eq_dec (img task) i) as [<-|Hne].
      + rewrite update_same in Ex.
        destruct (nth_error (document st) (img task)); [|discriminate Ex].
        injection Ex as <-. rewrite Hf in Hq. discriminate Hq.
      + rewrite update_other in Ex by exact Hne.
        assert (Hin : In i (img task :: map img (imageQueue st
                                                   ++ removeAt k (inFlight st))))
          by (apply Hiff; exists x; split; assumption).
        destruct Hin as [E|Hin]; [congruence|exact Hin]. }
  destruct (usable r) as [[response bs]|]; injection Hs as <-;
    apply processQueue_accounts; unfold tracked; cbn [document imageQueue inFlight];
    apply Hgen; intro x; reflexivity.
Qed.

Lemma addImage_accounts (x : Img) (l : list nat) (doc : list Img) :
  isQueued x = false -> accounts l doc -> accounts l (doc ++ [x]).
Proof.
  intros Hx [Hnd Hiff]. split; [exact Hnd|]. intro i. rewrite Hiff. split.
  - intros (y & Ey & Hq). exists y. split; [|exact Hq].
    rewrite nth_error_app1; [exact Ey|]. apply nth_error_Some. congruence.
  - intros (y & Ey & Hq).
    destruct (Nat.lt_ge_cases i (List.length doc)) as [Hlt|Hge].
    + rewrite nth_error_app1 in Ey by exact Hlt. exists y. split; assumption.
    + rewrite nth_error_app2 in Ey by exact Hge.
      destruct (i - List.length doc)%nat as [|m]; cbn in Ey.
      * injection Ey as <-. congruence.
      * destruct m; discriminate Ey.
Qed.

Lemma run_accounts (actions : list Action) : forall st st',
  forallb ordinary actions = true ->
  accounts (tracked st) (document st) ->
  run minSide present actions st = Some st' ->
  accounts (tracked st') (document st').
Proof.
  induction actions as [|a rest IH]; intros st st' Ho H Hr; cbn [run forallb] in *.
  - injection Hr as <-. exact H.
  - apply andb_prop in Ho. destruct Ho as [Ha Hrest].
    destruct (perform minSide present a st) as [st1|] eqn:Ep; [|discriminate Hr].
    apply (IH st1 st' Hrest); [|exact Hr].
    destruct a as [s|k r|x]; cbn [perform ordinary] in *.
    + injection Ep as <-. apply scan_accounts. exact H.
    + eapply settle_accounts; eassumption.
    + injection Ep as <-. unfold tracked. cbn [document imageQueue inFlight].
      apply addImage_accounts; [|exact H]. apply negb_true_iff. exact Ha.
Qed.

End Accounting.

(** X11.  On a page the script finds without a [queued] mark, and as long
    as the page adds no image so marked, the images marked [queued] are in
    every reachable state exactly those with a task waiting or in flight,
    and each has one task: no image is queued twice and none is
    forgotten. *)
Theorem queued_images_have_one_task
        (minSide : Z)
        (present : Content.Img -> list Content.TranslatedBlock -> Z -> Z -> Content.Img)
        (doc : list Content.Img) (actions : list Content.Action)
        (st : Content.State) :
  forallb (fun x => negb (isQueued x)) doc = true ->
  forallb ordinary actions = true ->
  Content.run minSide present actions (Content.loaded doc) = Some st ->
  NoDup (tracked st)
  /\ forall i,
       In i (tracked st)
       <-> exists x, nth_error (Content.document st) i = Some x
                     /\ Content.status x = "queued".
Proof.
  intros Hdoc Ho Hr.
  assert (H0 : accounts (tracked (Content.loaded doc))
                        (Content.document (Content.loaded doc))).
  { split; [constructor|]. intro i. split; [intros []|].
    intros (x & Ex & Hq). cbn in Ex. apply nth_error_In in Ex.
    rewrite forallb_forall in Hdoc. apply Hdoc in Ex.
    rewrite Hq in Ex. discriminate Ex. }
  destruct (run_accounts minSide present actions _ _ Ho H0 Hr) as [Hnd Hiff].
  split; [exact Hnd|]. intro i. rewrite Hiff.
  split; intros (x & Ex & Hq); exists x; (split; [exact Ex|]);
    unfold isQueued in *; [apply String.eqb_eq; exact Hq|].
  rewrite Hq. reflexivity.
Qed.

Lemma queued_images_have_one_task_witness :
  match overlayScript_run threeTasks (Content.loaded threeImages) with
  | Some st =>
      NoDup (tracked st)
      /\ forall i,
           In i (tracked st)
           <-> exists x, nth_error (Content.document st) i = Some x
                         /\ Content.status x = "queued"
  | None => False
  end.
Proof.
  destruct (overlayScript_run threeTasks (Content.loaded threeImages))
    as [st|] eqn:E.
  - exact (queued_images_have_one_task 50 Content.overlayTranslations threeImages
             threeTasks st eq_refl eq_refl E).
  - vm_compute in E. discriminate E.
Defined.

(** ** Interceptors *)

Section InterceptorFacts.
Import Interceptors.

Lemma filter_filter_neg {A : Type} (p : A -> bool) (l : list A) :
  filter p (filter (fun x => negb (p x)) l) = [].
Proof.
  induction l as [|x l IH]; cbn [filter]; [reflexivity|].
  destruct (p x) eqn:E; cbn [negb filter]; [exact IH|].
  rewrite E. exact IH.
Qed.

Lemma filter_idem {A : Type} (p : A -> bool) (l : list A) :
  filter p (filter p l) = filter p l.
Proof.
  induction l as [|x l IH]; cbn [filter]; [reflexivity|].
  destruct (p x) eqn:E; cbn [filter]; [rewrite E, IH; reflexivity|exact IH].
Qed.

Lemma prefix_app (p rest : string) : String.prefix p (p ++ rest) = true.
Proof.
  induction p as [|c p IH]; cbn [append String.prefix].
  - destruct rest; reflexivity.
  - destruct (ascii_dec c c); [exact IH|congruence].
Qed.

Lemma includes_inside (before p rest : string) :
  includes p (before ++ p ++ rest) = true.
Proof.
  induction before as [|c before IH]; cbn [append].
  - pose proof (prefix_app p rest) as H.
    destruct (p ++ rest); cbn [includes]; rewrite H; reflexivity.
  - cbn [includes]. rewrite IH. apply orb_true_r.
Qed.

End InterceptorFacts.

(** X12.  When [onBeforeSendHeaders] rewrites a request, the new headers
    hold exactly one header named [referer] in any letter case, the one
    with the page's URL; every other header is kept, in order; and
    rewriting the rewritten request again changes nothing. *)
Theorem referer_is_replaced
        (pathname : string -> option string) (url referrer : string)
        (details : Interceptors.Details) (headers : list Interceptors.Header) :
  Interceptors.onBeforeSendHeaders pathname url referrer details
  = Interceptors.RequestHeaders headers ->
  filter Interceptors.isReferer headers
  = [{| Interceptors.name := "Referer"; Interceptors.value := referrer |}]
  /\ filter (fun h => negb (Interceptors.isReferer h)) headers
     = filter (fun h => negb (Interceptors.isReferer h))
              (match Interceptors.requestHeaders details with
               | Some hs => hs
               | None => []
               end)
  /\ Interceptors.onBeforeSendHeaders pathname url referrer
       {| Interceptors.url := Interceptors.url details;
          Interceptors.requestHeaders := Some headers;
          Interceptors.responseHeaders := Interceptors.responseHeaders details |}
     = Interceptors.RequestHeaders headers.
Proof.
  unfold Interceptors.onBeforeSendHeaders, Interceptors.passes.
  cbn [Interceptors.url Interceptors.requestHeaders].
  intro H.
  destruct (match
               (if negb (Interceptors.url details =? url)%string
                then match pathname url with
                     | Some p =>
                         Some (negb (Interceptors.includes p (Interceptors.url details)))
                     | None => None
                     end
                else Some false)
             with
             | Some true => true
             | _ => false
             end) eqn:Hskip.
  - destruct (negb (Interceptors.url details =? url)%string);
      [destruct (pathname url) as [p|];
       [destruct (negb (Interceptors.includes p (Interceptors.url details)))|]|];
      discriminate.
  - destruct (if negb (Interceptors.url details =? url)%string
              then match pathname url with
                   | Some p =>
                       Some (negb (Interceptors.includes p (Interceptors.url details)))
                   | None => None
                   end
              else Some false) as [[|]|]; try discriminate.
    injection H as <-.
    rewrite !filter_app. cbn [filter].
    change (Interceptors.isReferer
              {| Interceptors.name := "Referer"; Interceptors.value := referrer |})
      with true. cbn [negb].
    rewrite filter_filter_neg, filter_idem, !app_nil_r. cbn [app].
    repeat split; reflexivity.
Qed.

Lemma referer_is_replaced_witness :
  filter Interceptors.isReferer
    [{| Interceptors.name := "Accept"; Interceptors.value := "image/*" |};
     {| Interceptors.name := "Referer"; Interceptors.value := "https://a.example/" |}]
  = [{| Interceptors.name := "Referer"; Interceptors.value := "https://a.example/" |}]
  /\ filter (fun h => negb (Interceptors.isReferer h))
       [{| Interceptors.name := "Accept"; Interceptors.value := "image/*" |};
        {| Interceptors.name := "Referer"; Interceptors.value := "https://a.example/" |}]
     = filter (fun h => negb (Interceptors.isReferer h))
              (match Interceptors.requestHeaders mirrorRequest with
               | Some hs => hs
               | None => []
               end)
  /\ Interceptors.onBeforeSendHeaders samplePathname "https://a.example/img/1.png"
       "https://a.example/"
       {| Interceptors.url := Interceptors.url mirrorRequest;
          Interceptors.requestHeaders :=
            Some [{| Interceptors.name := "Accept"; Interceptors.value := "image/*" |};
                  {| Interceptors.name := "Referer";
                     Interceptors.value := "https://a.example/" |}];
          Interceptors.responseHeaders := Interceptors.responseHeaders mirrorRequest |}
     = Interceptors.RequestHeaders
         [{| Interceptors.name := "Accept"; Interceptors.value := "image/*" |};
          {| Interceptors.name := "Referer"; Interceptors.value := "https://a.example/" |}].
Proof.
  apply (referer_is_replaced samplePathname "https://a.example/img/1.png"
           "https://a.example/" mirrorRequest).
  reflexivity.
Defined.

(** X13.  The interceptors match by containment: while they are
    installed, a request to the very URL is rewritten even when that URL
    cannot be parsed, and so is every request, to whatever host, whose URL
    contains the path of the image's URL: it gets the page's URL as
    referer, and its response the permissive cross-origin header.  The
    two listeners act on the same requests. *)
Theorem interceptors_match_by_containment
        (pathname : string -> option string) (url referrer : string)
        (details : Interceptors.Details) :
  (Interceptors.url details = url ->
   exists hs hs',
     Interceptors.onBeforeSendHeaders pathname url referrer details
     = Interceptors.RequestHeaders hs
     /\ Interceptors.onHeadersReceived pathname url details
        = Interceptors.ResponseHeaders hs')
  /\ (forall p before rest,
         pathname url = Some p ->
         Interceptors.url details = before ++ p ++ rest ->
         exists hs hs',
           Interceptors.onBeforeSendHeaders pathname url referrer details
           = Interceptors.RequestHeaders hs
           /\ In {| Interceptors.name := "Referer"; Interceptors.value := referrer |} hs
           /\ Interceptors.onHeadersReceived pathname url details
              = Interceptors.ResponseHeaders hs'
           /\ In {| Interceptors.name := "Access-Control-Allow-Origin";
                    Interceptors.value := "*" |} hs')
  /\ (Interceptors.onBeforeSendHeaders pathname url referrer details
      = Interceptors.Untouched
      <-> Interceptors.onHeadersReceived pathname url details
          = Interceptors.Untouched).
Proof.
  unfold Interceptors.onBeforeSendHeaders, Interceptors.onHeadersReceived,
    Interceptors.passes.
  split; [|split].
  - intros ->. rewrite String.eqb_refl. cbn [negb]. eauto.
  - intros p before rest Hp Hu. rewrite Hp, Hu, includes_inside. cbn [negb].
    destruct (negb (before ++ p ++ rest =? url)%string);
      (eexists; eexists; split; [reflexivity|];
       split; [apply in_or_app; right; left; reflexivity|];
       split; [reflexivity|apply in_or_app; right; left; reflexivity]).
  - destruct (negb (Interceptors.url details =? url)%string).
    + destruct (pathname url) as [p|].
      * destruct (negb (Interceptors.includes p (Interceptors.url details)));
          split; intro H; try reflexivity; discriminate H.
      * split; intro H; discriminate H.
    + split; intro H; discriminate H.
Qed.

Lemma interceptors_match_by_containment_witness :
  exists hs hs',
    Interceptors.onBeforeSendHeaders samplePathname "https://a.example/img/1.png"
      "https://a.example/" mirrorRequest
    = Interceptors.RequestHeaders hs
    /\ In {| Interceptors.name := "Referer"; Interceptors.value := "https://a.example/" |} hs
    /\ Interceptors.onHeadersReceived samplePathname "https://a.example/img/1.png"
         mirrorRequest
       = Interceptors.ResponseHeaders hs'
    /\ In {| Interceptors.name := "Access-Control-Allow-Origin";
             Interceptors.value := "*" |} hs'.
Proof.
  apply (proj1 (proj2 (interceptors_match_by_containment samplePathname
                         "https://a.example/img/1.png" "https://a.example/"
                         mirrorRequest))
           "/img/1.png" "https://mirror.example" "?x=1");
    reflexivity.
Defined.

(** ** Languages *)

Section LanguageFacts.
Import Languages.

Lemma own_absent (table : Table) (code : string) :
  ~ In code (map fst table) -> own table code = None.
Proof.
  induction table as [|[k v] table IH]; cbn [own map fst In]; [reflexivity|].
  intro H. destruct (String.eqb_spec k code) as [->|_].
  - exfalso. apply H. left. reflexivity.
  - apply IH. intro Hin. apply H. right. exact Hin.
Qed.

Lemma existsb_absent (code : string) (keys : list string) :
  ~ In code keys -> existsb (String.eqb code) keys = false.
Proof.
  induction keys as [|k keys IH]; cbn [existsb In]; [reflexivity|].
  intro H. destruct (String.eqb_spec code k) as [->|_].
  - exfalso. apply H. left. reflexivity.
  - apply IH. intro Hin. apply H. right. exact Hin.
Qed.

Lemma get_absent (table : Table) (code : string) :
  ~ In code (map fst table) -> ~ In code objectPrototype ->
  get table code = Undefined.
Proof.
  intros Ht Hp. unfold get. rewrite (own_absent _ _ Ht).
  rewrite (existsb_absent _ _ Hp). reflexivity.
Qed.

Lemma unknown_code (code : string) :
  ~ In code knownCodes -> ~ In code objectPrototype ->
  toNllbLang code = Null /\ toNllbLang_two_paths code = Null
  /\ tessLang code = Str "eng" /\ nllbLang code = Str "eng_Latn".
Proof.
  intros Hk Hp.
  assert (H1 : get tesseractLangMap code = Undefined).
  { apply get_absent; [|exact Hp]. intro H. apply Hk. right.
    apply in_or_app. left. exact H. }
  assert (H2 : get langMap code = Undefined).
  { apply get_absent; [|exact Hp]. intro H. apply Hk. right.
    apply in_or_app. right. apply in_or_app. left. exact H. }
  assert (H3 : get uiLangToNllb code = Undefined).
  { apply get_absent; [|exact Hp]. intro H. apply Hk. right.
    apply in_or_app. right. apply in_or_app. right. exact H. }
  assert (Hn : toNllbLang code = Null).
  { unfold toNllbLang. rewrite H1, H2, H3. cbn [truthy andb getAt].
    destruct (negb (JS.truthy code) || (code =? "auto")%string); reflexivity. }
  repeat split.
  - exact Hn.
  - unfold toNllbLang_two_paths. rewrite H2, H3. cbn [truthy].
    destruct (negb (JS.truthy code) || (code =? "auto")%string); reflexivity.
  - unfold tessLang. rewrite H1. reflexivity.
  - unfold nllbLang. rewrite Hn. reflexivity.
Qed.

End LanguageFacts.

(** X14.  The languages of a request, for every code that is not the
    name of an inherited member of objects: the translator is handed one
    of the five NLLB codes; the third, best-effort path of [toNllbLang]
    never decides anything; and the language of the OCR worker and the
    language handed to the translator agree, except for [de], [pt],
    [ru], [zh], which are read in their own language and translated as
    English, and for the Tesseract codes [fra], [ita], [spa], [jpn],
    which are translated from their own language and read as English. *)
Theorem ocr_and_translator_languages (code : string) :
  ~ In code Languages.objectPrototype ->
  exists tess nllb,
    Languages.tessLang code = Languages.Str tess
    /\ Languages.nllbLang code = Languages.Str nllb
    /\ In nllb (map snd Languages.uiLangToNllb)
    /\ Languages.toNllbLang code = toNllbLang_two_paths code
    /\ (Languages.own Languages.langMap tess = Some nllb
        \/ (In code ["de"; "pt"; "ru"; "zh"]
            /\ tess <> "eng" /\ nllb = "eng_Latn")
        \/ (In code ["fra"; "ita"; "spa"; "jpn"]
            /\ tess = "eng" /\ nllb <> "eng_Latn")).
Proof.
  intro Hp.
  destruct (in_dec string_dec code knownCodes) as [Hk|Hk].
  - cbv [knownCodes Languages.tesseractLangMap Languages.langMap
           Languages.uiLangToNllb map fst app In] in Hk.
    repeat (destruct Hk as [<-|Hk];
            [eexists; eexists;
             split; [vm_compute; reflexivity|];
             split; [vm_compute; reflexivity|];
             split; [vm_compute; tauto|];
             split; [vm_compute; reflexivity|];
             first [left; vm_compute; reflexivity
                   |right; left; vm_compute;
                    split; [tauto|split; [discriminate|reflexivity]]
                   |right; right; vm_compute;
                    split; [tauto|split; [reflexivity|discriminate]]]|]).
    contradiction.
  - destruct (unknown_code code Hk Hp) as (Hn & H2 & Ht & Hl).
    exists "eng", "eng_Latn".
    split; [exact Ht|]. split; [exact Hl|].
    split; [vm_compute; tauto|].
    split; [rewrite Hn, H2; reflexivity|].
    left. reflexivity.
Qed.

Lemma ocr_and_translator_languages_witness :
  exists tess nllb,
    Languages.tessLang "de" = Languages.Str tess
    /\ Languages.nllbLang "de" = Languages.Str nllb
    /\ In nllb (map snd Languages.uiLangToNllb)
    /\ Languages.toNllbLang "de" = toNllbLang_two_paths "de"
    /\ (Languages.own Languages.langMap tess = Some nllb
        \/ (In "de" ["de"; "pt"; "ru"; "zh"]
            /\ tess <> "eng" /\ nllb = "eng_Latn")
        \/ (In "de" ["fra"; "ita"; "spa"; "jpn"]
            /\ tess = "eng" /\ nllb <> "eng_Latn")).
Proof.
  apply (ocr_and_translator_languages "de").
  vm_compute. intros [H|[H|[H|[H|[H|[H|[H|[H|[H|[H|[H|[H|[]]]]]]]]]]]]];
    discriminate H.
Defined.

(** ** The OCR worker *)

Section OcrFacts.
Import Languages Ocr.

Lemma value_eqb_eq (a b : Value) : value_eqb a b = true <-> a = b.
Proof.
  destruct a, b; cbn [value_eqb]; try (split; [discriminate|discriminate]);
    try (split; reflexivity).
  - rewrite String.eqb_eq. split; [intros ->; reflexivity|congruence].
  - rewrite String.eqb_eq. split; [intros ->; reflexivity|congruence].
Qed.

Lemma live_app (evs : list Event) (e : Event) :
  live (evs ++ [e])
  = match e with
    | Created w => (live evs ++ [w])%list
    | Terminated w => filter (fun x => negb (id x =? id w)%nat) (live evs)
    end.
Proof. unfold live. rewrite fold_left_app. reflexivity. Qed.

Lemma initOCR_settled (outside : Outside) (langCode : string) (g : Globals) :
  settled g -> settled (fst (initOCR outside langCode g)).
Proof.
  intros [Hl Hw]. unfold initOCR.
  destruct (tesseractWorker g) as [w|] eqn:Ew.
  - destruct (negb (value_eqb (currentTesseractLang g) (tessLang langCode))).
    + destruct (terminate outside) as [[]|e].
      * cbn [tesseractWorker fst snd].
        assert (Hlive : live (events g ++ [Terminated w]) = []).
        { rewrite live_app, Hl. unfold held. rewrite Ew. cbn [filter].
          rewrite Nat.eqb_refl. reflexivity. }
        destruct (createWorker outside) as [[]|e]; cbn [fst].
        -- split.
           ++ cbn [events]. rewrite live_app, Hlive. reflexivity.
           ++ cbn [tesseractWorker currentTesseractLang made].
              intros w' [= <-]. cbn [lang id]. split; [reflexivity|lia].
        -- split.
           ++ cbn [events]. rewrite Hlive. reflexivity.
           ++ cbn [tesseractWorker]. discriminate.
      * cbn [fst]. split; [exact Hl|]. intros x Hx. apply Hw. congruence.
    + rewrite Ew. cbn [fst]. split; [exact Hl|]. intros x Hx. apply Hw. congruence.
  - rewrite Ew.
    destruct (createWorker outside) as [[]|e]; cbn [fst].
    + split.
      * cbn [events]. rewrite live_app, Hl. unfold held. rewrite Ew. reflexivity.
      * cbn [tesseractWorker currentTesseractLang made].
        intros w' [= <-]. cbn [lang id]. split; [reflexivity|lia].
    + split; [exact Hl|]. intros x Hx. apply Hw. congruence.
Qed.

Lemma after_settled (calls : list (Outside * string)) : settled (after calls).
Proof.
  unfold after.
  assert (H : settled initial).
  { split; [reflexivity|]. cbn. discriminate. }
  revert H. generalize initial.
  induction calls as [|[outside code] calls IH]; intros g Hg; cbn [fold_left].
  - exact Hg.
  - apply IH. apply initOCR_settled. exact Hg.
Qed.

End OcrFacts.

(** X15.  However earlier calls of [initOCR] ended, as long as calls do
    not overlap: the workers created and not terminated are at most one,
    the worker the globals hold; a call that returns gives that worker,
    and it was made for the language asked for; a worker that is held
    for that language already is returned as it is, with nothing created
    or terminated; and a call that fails leaves the globals with at most
    one live worker too, its error being the one of [terminate] or one
    that starts with [Tesseract initialization failed: ]. *)
Theorem one_worker_for_the_language
        (calls : list (Ocr.Outside * string))
        (outside : Ocr.Outside) (langCode : string) :
  let g := Ocr.after calls in
  let g' := fst (Ocr.initOCR outside langCode g) in
  Ocr.live (Ocr.events g') = Ocr.held g'
  /\ (List.length (Ocr.live (Ocr.events g')) <= 1)%nat
  /\ match snd (Ocr.initOCR outside langCode g) with
     | Background.Ok w =>
         Ocr.tesseractWorker g' = Some w
         /\ Ocr.lang w = Languages.tessLang langCode
         /\ (forall w0, Ocr.tesseractWorker g = Some w0 ->
                        Ocr.lang w0 = Languages.tessLang langCode ->
                        w = w0 /\ g' = g)
     | Background.Throw e =>
         (Ocr.terminate outside = Background.Throw e /\ g' = g)
         \/ exists message,
              Ocr.createWorker outside = Background.Throw message
              /\ e = "Tesseract initialization failed: " ++ Ocr.detail message
              /\ Ocr.tesseractWorker g' = None
     end.
Proof.
  intros g g'.
  pose proof (after_settled calls) as Hg. fold g in Hg.
  pose proof (initOCR_settled outside langCode g Hg) as Hg'. fold g' in Hg'.
  destruct Hg' as [Hl' Hw']. destruct Hg as [Hl Hw].
  split; [exact Hl'|].
  split; [rewrite Hl'; unfold Ocr.held; destruct (Ocr.tesseractWorker g'); cbn; lia|].
  subst g'. clear Hl' Hw'. unfold Ocr.initOCR.
  destruct (Ocr.tesseractWorker g) as [w|] eqn:Ew.
  - destruct (Hw w eq_refl) as [Hlang _].
    destruct (Ocr.value_eqb (Ocr.currentTesseractLang g)
                (Languages.tessLang langCode)) eqn:Eeq; cbn [negb].
    + rewrite Ew. cbn [fst snd]. apply value_eqb_eq in Eeq.
      split; [exact Ew|]. split; [congruence|].
      intros w0 [= <-] _. split; reflexivity.
    + destruct (Ocr.terminate outside) as [[]|e].
      * cbn [Ocr.tesseractWorker].
        destruct (Ocr.createWorker outside) as [[]|e]; cbn [fst snd].
        -- split; [reflexivity|]. split; [reflexivity|].
           intros w0 [= <-] Hw0. exfalso.
           assert (Hne : Ocr.value_eqb (Ocr.currentTesseractLang g)
                           (Languages.tessLang langCode) = true)
             by (apply value_eqb_eq; congruence).
           congruence.
        -- right. exists e. repeat split; reflexivity.
      * cbn [fst snd]. left. split; reflexivity.
  - rewrite Ew.
    destruct (Ocr.createWorker outside) as [[]|e]; cbn [fst snd].
    + split; [reflexivity|]. split; [reflexivity|]. discriminate.
    + right. exists e. repeat split; try reflexivity. exact Ew.
Qed.


(** ** Loading the translation model *)

Section ModelFacts.
Import Model.

Lemma find_coherent (p : nat) (w : Worker) (l : Load) :
  coherent w -> find p w = Some l -> loads w = [l] /\ promise l = p.
Proof.
  unfold coherent, find. intros Hc Hf.
  destruct (loads w) as [|l1 [|l2 ls]]; [discriminate| |contradiction].
  cbn [List.find] in Hf.
  destruct (promise l1 =? p)%nat eqn:E; [|discriminate].
  injection Hf as <-. apply Nat.eqb_eq in E. split; [reflexivity|exact E].
Qed.

Lemma filter_all (p : nat) (qs : list nat) :
  Forall (fun q => q = p) qs ->
  filter (fun q => negb (q =? p)%nat) qs = [].
Proof.
  induction 1 as [|q qs -> _ IH]; cbn [filter]; [reflexivity|].
  rewrite Nat.eqb_refl. exact IH.
Qed.

Lemma getTranslator_coherent (cb : bool) (w : Worker) :
  coherent w -> coherent (fst (getTranslator cb w)).
Proof.
  unfold getTranslator, coherent. intro Hc.
  destruct (translator w) eqn:Et; [cbn [fst]; rewrite Et; exact Hc|].
  destruct (translatorPromise w) as [p|] eqn:Ep;
    [cbn [fst]; rewrite Et, Ep; exact Hc|].
  cbn [fst loads translatorPromise started failed translator downloads].
  destruct (loads w) as [|l [|l2 ls]]; [|destruct Hc; discriminate|contradiction].
  destruct Hc as (Hd & _ & Hs). cbn [app promise stage].
  rewrite Hd, Hs. repeat split. constructor.
Qed.

Lemma getTranslator_pending (cb : bool) (w : Worker) (p : nat) :
  coherent w -> snd (getTranslator cb w) = Pending p ->
  exists l, loads (fst (getTranslator cb w)) = [l] /\ promise l = p.
Proof.
  unfold getTranslator, coherent. intros Hc.
  destruct (translator w) eqn:Et; [discriminate|].
  destruct (translatorPromise w) as [q|] eqn:Ep; cbn [fst snd loads].
  - intros [= <-].
    destruct (loads w) as [|l [|l2 ls]]; [| |contradiction].
    + destruct Hc as (_ & Hn & _). discriminate.
    + destruct Hc as (Hq & _). exists l. split; [reflexivity|congruence].
  - intros [= <-].
    destruct (loads w) as [|l [|l2 ls]]; [|destruct Hc; discriminate|contradiction].
    cbn [app]. eexists. split; reflexivity.
Qed.

Lemma coherent_same (w w' : Worker) :
  loads w' = loads w -> downloads w' = downloads w ->
  translator w' = translator w -> translatorPromise w' = translatorPromise w ->
  started w' = started w -> failed w' = failed w ->
  coherent w -> coherent w'.
Proof.
  unfold coherent. intros -> -> -> -> -> ->. exact (fun H => H).
Qed.

Ltac same w Hc :=
  apply (coherent_same w); [| | | | | |exact Hc];
  cbn [loads downloads translator translatorPromise started failed send answer];
  first [reflexivity|assumption|symmetry; assumption].

Lemma send_coherent (ms : list Message) (w : Worker) :
  coherent w -> coherent (send ms w).
Proof. intro H. exact H. Qed.

Lemma answer_coherent (s : Status) (w : Worker) :
  coherent w -> coherent (answer s w).
Proof. intro H. exact H. Qed.

Lemma reject_coherent (p : nat) (e : string) (w : Worker) (l : Load) :
  coherent w -> find p w = Some l -> coherent (reject p e w).
Proof.
  intros Hc Hf. destruct (find_coherent p w l Hc Hf) as [Hl Hp].
  unfold coherent in *. unfold reject, settle.
  cbn [loads downloads translator translatorPromise started failed].
  rewrite Hl in *. cbn [filter]. rewrite Hp, Nat.eqb_refl. cbn [negb].
  destruct Hc as (_ & Hs & _ & Hd). rewrite <- Hp.
  rewrite (filter_all _ _ Hd). split; [reflexivity|].
  destruct (translator w); [lia|]. split; [reflexivity|exact Hs].
Qed.

Lemma step_coherent (a : Action) (w : Worker) :
  coherent w -> coherent (step a w).
Proof.
  intro Hc. destruct a; cbn [step].
  - apply getTranslator_coherent. exact Hc.
  - unfold downloadModel.
    pose proof (getTranslator_coherent true w Hc) as Hc'.
    pose proof (getTranslator_pending true w) as Hp.
    destruct (getTranslator true w) as [w' [|p]]; cbn [fst snd] in *.
    + exact Hc'.
    + destruct (Hp p Hc eq_refl) as (l & Hl & Hpl).
      unfold coherent in *.
      cbn [loads downloads translator translatorPromise started failed].
      rewrite Hl in *. destruct Hc' as (H1 & H2 & H3 & H4).
      repeat split; try assumption.
      apply Forall_app. split; [exact H4|]. constructor; [congruence|constructor].
  - unfold checkModelStatus. destruct (translator w) eqn:Et; same w Hc.
  - unfold checkModelStatus_resumed. destruct (checks w) as [|n]; [exact Hc|].
    cbn [model_downloaded]. destruct (model_downloaded w).
    + apply answer_coherent. apply getTranslator_coherent. same w Hc.
    + same w Hc.
  - same w Hc.
  - destruct (find p w) as [[q [|] [|]]|]; same w Hc.
  - destruct (find p w) as [[q f [|]]|] eqn:Ef; try exact Hc.
    destruct (find_coherent p w _ Hc Ef) as [Hl Hp]. cbn [promise] in Hp. subst q.
    unfold coherent in *.
    cbn [loads downloads translator translatorPromise started failed].
    rewrite Hl in *. cbn [map promise stage] in *. rewrite Nat.eqb_refl.
    cbn [promise stage]. destruct Hc as (H1 & H2 & _ & H4).
    repeat split; assumption.
  - destruct (find p w) as [[q f [|]]|] eqn:Ef; try exact Hc.
    apply (reject_coherent p e w _ Hc Ef).
  - destruct (find p w) as [[q f [|]]|] eqn:Ef; try exact Hc.
    destruct (find_coherent p w _ Hc Ef) as [Hl Hp]. cbn [promise] in Hp. subst q.
    unfold coherent in *. unfold settle.
    cbn [loads downloads translator translatorPromise started failed].
    rewrite Hl in *. cbn [filter promise stage] in *. rewrite Nat.eqb_refl.
    cbn [negb]. destruct Hc as (_ & Hs & Ht & Hd).
    rewrite (filter_all _ _ Hd). split; [reflexivity|]. rewrite Ht. lia.
  - destruct (find p w) as [[q f [|]]|] eqn:Ef; try exact Hc.
    apply (reject_coherent p e w _ Hc Ef).
  - same w Hc.
Qed.

Lemma run_coherent (actions : list Action) (w : Worker) :
  coherent w -> coherent (run actions w).
Proof.
  revert w. induction actions as [|a actions IH]; intros w Hc; cbn [run fold_left].
  - exact Hc.
  - apply IH. apply step_coherent. exact Hc.
Qed.

Lemma initial_coherent : coherent initial.
Proof. cbn. repeat split. Qed.

Lemma run_app (xs ys : list Action) (w : Worker) :
  run (xs ++ ys) w = run ys (run xs w).
Proof. unfold run. apply fold_left_app. Qed.

(** Once the translator is set, it stays, and [pipeline] is not called
    again. *)
Lemma step_loaded (a : Action) (w : Worker) :
  translator w = true ->
  translator (step a w) = true /\ started (step a w) = started w.
Proof.
  intro Ht.
  destruct a; cbn [step];
    unfold downloadModel, checkModelStatus, checkModelStatus_resumed,
      getTranslator, reject, settle, send, answer;
    cbn [translator model_downloaded]; rewrite ?Ht;
    repeat match goal with
           | |- context [match ?x with _ => _ end] => destruct x
           end;
    cbn [translator started fst]; rewrite ?Ht; split; reflexivity.
Qed.

Lemma run_loaded (actions : list Action) (w : Worker) :
  translator w = true ->
  translator (run actions w) = true /\ started (run actions w) = started w.
Proof.
  revert w. induction actions as [|a actions IH]; intros w Ht; cbn [run fold_left].
  - split; [exact Ht|reflexivity].
  - destruct (step_loaded a w Ht) as [Ht' Hs].
    destruct (IH _ Ht') as [Ht'' Hs'].
    split; [exact Ht''|]. unfold run in Hs'. rewrite Hs'. exact Hs.
Qed.







End ModelFacts.

(** X16.  Loads of the translation model never overlap, whatever the
    order in which messages arrive and promises settle: at every moment
    at most one body of [getTranslator] is under way; [pipeline] has been
    called at most once more than loads have failed; and once the
    translator is set it stays set and [pipeline] is never called
    again. *)
Theorem model_loads_never_overlap (actions : list Model.Action) :
  let w := Model.run actions Model.initial in
  (List.length (Model.loads w) <= 1)%nat
  /\ (Model.started w <= S (Model.failed w))%nat
  /\ (forall more,
         Model.translator w = true ->
         Model.translator (Model.run (actions ++ more) Model.initial) = true
         /\ Model.started (Model.run (actions ++ more) Model.initial)
            = Model.started w).
Proof.
  intro w.
  pose proof (run_coherent actions _ initial_coherent) as Hc. fold w in Hc.
  split; [|split].
  - unfold Model.coherent in Hc.
    destruct (Model.loads w) as [|l [|l2 ls]]; cbn [List.length]; [lia|lia|contradiction].
  - unfold Model.coherent in Hc.
    destruct (Model.loads w) as [|l [|l2 ls]]; [| |contradiction].
    + destruct Hc as [_ Hc]. destruct (Model.translator w); [exact Hc|].
      destruct Hc as [_ ->]. lia.
    + destruct Hc as (_ & -> & _). lia.
  - intros more Ht. rewrite run_app. fold w. apply run_loaded. exact Ht.
Qed.


(** ** The remote variant: the boxes of the lines *)

Section RemoteBoxes.
Import Background RemoteBackground.

Lemma min_either (a b : Qc) : JS.min a b = a \/ JS.min a b = b.
Proof. unfold JS.min. destruct (JS.ltb b a); [right|left]; reflexivity. Qed.

Lemma max_either (a b : Qc) : JS.max a b = a \/ JS.max a b = b.
Proof. unfold JS.max. destruct (JS.ltb a b); [right|left]; reflexivity. Qed.

(** What the loop keeps: the box so far lies within the result, every
    word met does, and each side of the result is a side of the box so
    far or of a word met. *)
Lemma grow_all (ws : list OverlayWord) (b : BBox) :
  let r := fold_left grow ws b in
  ((x0 r <= x0 b /\ y0 r <= y0 b /\ x1 b <= x1 r /\ y1 b <= y1 r)%Qc
   /\ (forall word, In word ws -> wordInside word r))
  /\ (x0 r = x0 b \/ In (x0 r) (map Left ws))
  /\ (y0 r = y0 b \/ In (y0 r) (map Top ws))
  /\ (x1 r = x1 b \/ In (x1 r) (map (fun w => Left w + Width w)%Qc ws))
  /\ (y1 r = y1 b \/ In (y1 r) (map (fun w => Top w + Height w)%Qc ws)).
Proof.
  revert b. induction ws as [|w ws IH]; intro b; cbn [fold_left].
  - cbn zeta. split; [split|].
    + repeat split; apply Qcle_refl.
    + intros wd [].
    + repeat split; left; reflexivity.
  - specialize (IH (grow b w)). cbn zeta in *.
    set (r := fold_left grow ws (grow b w)) in *.
    destruct IH as (((Hx0 & Hy0 & Hx1 & Hy1) & Hin) & Tx0 & Ty0 & Tx1 & Ty1).
    cbn [grow x0 y0 x1 y1] in *.
    pose proof (min_le (x0 b) (Left w)) as [Mx0 Mx0'].
    pose proof (min_le (y0 b) (Top w)) as [My0 My0'].
    pose proof (max_ge (x1 b) (Left w + Width w)%Qc) as [Mx1 Mx1'].
    pose proof (max_ge (y1 b) (Top w + Height w)%Qc) as [My1 My1'].
    split; [split|].
    + repeat split; eapply Qcle_trans; eassumption.
    + intros wd [<-|Hw]; [|apply Hin; exact Hw].
      unfold wordInside. repeat split; eapply Qcle_trans; eassumption.
    + cbn [map In].
      repeat split.
      * destruct Tx0 as [T|T]; [|right; right; exact T].
        rewrite T. destruct (min_either (x0 b) (Left w)) as [E|E]; rewrite E;
          [left|right; left]; reflexivity.
      * destruct Ty0 as [T|T]; [|right; right; exact T].
        rewrite T. destruct (min_either (y0 b) (Top w)) as [E|E]; rewrite E;
          [left|right; left]; reflexivity.
      * destruct Tx1 as [T|T]; [|right; right; exact T].
        rewrite T.
        destruct (max_either (x1 b) (Left w + Width w)%Qc) as [E|E]; rewrite E;
          [left|right; left]; reflexivity.
      * destruct Ty1 as [T|T]; [|right; right; exact T].
        rewrite T.
        destruct (max_either (y1 b) (Top w + Height w)%Qc) as [E|E]; rewrite E;
          [left|right; left]; reflexivity.
Qed.

Lemma lineBox_grow (w : OverlayWord) (ws : list OverlayWord) :
  lineBox w ws
  = fold_left grow ws
      {| x0 := Left w; y0 := Top w;
         x1 := (Left w + Width w)%Qc; y1 := (Top w + Height w)%Qc |}.
Proof. reflexivity. Qed.

Lemma lineBox_words (w : OverlayWord) (ws : list OverlayWord) :
  (forall word, In word (w :: ws) -> wordInside word (lineBox w ws))
  /\ touched (w :: ws) (lineBox w ws).
Proof.
  rewrite lineBox_grow.
  pose proof (grow_all ws
                {| x0 := Left w; y0 := Top w;
                   x1 := (Left w + Width w)%Qc; y1 := (Top w + Height w)%Qc |}) as H.
  cbn zeta in H. cbn [x0 y0 x1 y1] in H.
  destruct H as (((Hx0 & Hy0 & Hx1 & Hy1) & Hin) & Tx0 & Ty0 & Tx1 & Ty1).
  split.
  - intros wd [<-|Hw]; [|apply Hin; exact Hw].
    unfold wordInside. repeat split; assumption.
  - unfold touched. cbn [map In].
    repeat split;
      [destruct Tx0 as [T|T]|destruct Ty0 as [T|T]
       |destruct Tx1 as [T|T]|destruct Ty1 as [T|T]];
      first [left; symmetry; exact T|right; exact T].
Qed.

End RemoteBoxes.

(** X18.  The blocks that the remote variant makes of the lines of the
    OCR answer: one for every line that has words, in the order of the
    lines, with the line's text; its box contains every word of the line
    and each of its sides is a side of one of the words; and the block
    is vertical exactly when the box is more than twice as high as it is
    wide.  Lines without words leave no block. *)
Theorem remote_line_boxes (lines : list RemoteBackground.OverlayLine) :
  Forall2
    (fun line block =>
       RemoteBackground.text block = RemoteBackground.LineText line
       /\ exists words,
            RemoteBackground.Words line = Some words
            /\ (forall word, In word words ->
                             wordInside word (RemoteBackground.bbox block))
            /\ touched words (RemoteBackground.bbox block)
            /\ (RemoteBackground.isVertical block = true
                <-> ((Background.x1 (RemoteBackground.bbox block)
                      - Background.x0 (RemoteBackground.bbox block)) * JS.ofZ 2
                     < Background.y1 (RemoteBackground.bbox block)
                       - Background.y0 (RemoteBackground.bbox block))%Qc))
    (filter hasWords lines) (RemoteBackground.blocksOfLines lines).
Proof.
  induction lines as [|line lines IH];
    cbn [filter RemoteBackground.blocksOfLines]; [constructor|].
  unfold hasWords at 1.
  destruct (RemoteBackground.Words line) as [[|w ws]|] eqn:Ew; try exact IH.
  constructor; [|exact IH].
  cbn [RemoteBackground.text RemoteBackground.bbox RemoteBackground.isVertical].
  split; [reflexivity|].
  exists (w :: ws). split; [exact Ew|].
  destruct (lineBox_words w ws) as [Hin Ht].
  split; [exact Hin|]. split; [exact Ht|].
  apply ltb_lt.
Qed.

(** ** The canvas *)

Lemma middle (a b : Qc) : (a + (b - a) / JS.ofZ 2 = (a + b) / JS.ofZ 2)%Qc.
Proof.
  assert (H2 : JS.ofZ 2 = (1 + 1)%Qc) by (apply Qc_is_canon; reflexivity).
  rewrite H2. field. intro H. discriminate H.
Qed.

(** X19.  What [replaceImageWithTranslation] paints: the image first,
    then for each block, in the order of the blocks, a box that is
    exactly the block's box in the image's own coordinates and the
    translated text anchored at the middle of that box; the font is
    never smaller than 12 pixels, 14 for a vertical block, and never
    smaller than eight tenths of the box's height, six tenths of its
    width for a vertical block. *)
Theorem translation_painted_over_its_box
        (blocks : list RemoteBackground.TranslatedBlock) :
  exists sizes,
    Canvas.replaceImageWithTranslation blocks
    = Canvas.DrawImage
        :: flat_map (fun bs => paints (fst bs) (snd bs)) (combine blocks sizes)
    /\ Forall2
         (fun block size =>
            let b := RemoteBackground.t_bbox block in
            if RemoteBackground.t_isVertical block
            then (JS.ofZ 14 <= size
                  /\ (Background.x1 b - Background.x0 b) * (JS.ofZ 6 / JS.ofZ 10)
                     <= size)%Qc
            else (JS.ofZ 12 <= size
                  /\ (Background.y1 b - Background.y0 b) * (JS.ofZ 8 / JS.ofZ 10)
                     <= size)%Qc)
         blocks sizes.
Proof.
  unfold Canvas.replaceImageWithTranslation.
  induction blocks as [|block blocks (sizes & Heq & Hall)].
  - exists []. split; [reflexivity|constructor].
  - injection Heq as Heq.
    destruct (RemoteBackground.t_isVertical block) eqn:Ev.
    + exists (JS.max (JS.ofZ 14)
                ((Background.x1 (RemoteBackground.t_bbox block)
                  - Background.x0 (RemoteBackground.t_bbox block))
                 * (JS.ofZ 6 / JS.ofZ 10))%Qc :: sizes).
      split.
      * cbn [flat_map combine fst snd]. rewrite Heq.
        unfold Canvas.drawBlock, paints. rewrite Ev, !middle. reflexivity.
      * constructor; [|exact Hall]. cbn zeta. rewrite Ev. apply max_ge.
    + exists (JS.max (JS.ofZ 12)
                ((Background.y1 (RemoteBackground.t_bbox block)
                  - Background.y0 (RemoteBackground.t_bbox block))
                 * (JS.ofZ 8 / JS.ofZ 10))%Qc :: sizes).
      split.
      * cbn [flat_map combine fst snd]. rewrite Heq.
        unfold Canvas.drawBlock, paints. rewrite Ev, !middle. reflexivity.
      * constructor; [|exact Hall]. cbn zeta. rewrite Ev. apply max_ge.
Qed.

(** ** The script that copies the libraries *)

Section CopyFacts.
Import Background CopyAssets.

Variable repoRoot : Path.
Variable access : Path -> bool.
Variable mkdir : Path -> Result unit.
Variable copyFile : Path -> Path -> Result unit.

Lemma copyEach_spec (assets : list Asset) (copied : list (Path * Path))
      (missing : list Path) :
  match copyEach repoRoot access mkdir copyFile assets copied missing with
  | Ok (c, m) =>
      c = (copied
           ++ map (fun a => (resolveFrom repoRoot (from a), resolveFrom repoRoot (to a)))
                  (filter (present repoRoot access) assets))%list
      /\ m = (missing
              ++ map (fun a => resolveFrom repoRoot (from a))
                     (filter (fun a => negb (present repoRoot access a)) assets))%list
  | Throw e =>
      (exists p, mkdir p = Throw e) \/ (exists s d, copyFile s d = Throw e)
  end.
Proof.
  revert copied missing.
  induction assets as [|asset rest IH]; intros copied missing;
    cbn [copyEach filter map].
  - rewrite !app_nil_r. split; reflexivity.
  - change (ensureReadable access (resolveFrom repoRoot (from asset)))
      with (present repoRoot access asset).
    destruct (present repoRoot access asset) eqn:Er; cbn [negb].
    + destruct (mkdir (dirname (resolveFrom repoRoot (to asset)))) as [[]|e] eqn:Em;
        [|left; eauto].
      destruct (copyFile (resolveFrom repoRoot (from asset))
                  (resolveFrom repoRoot (to asset))) as [[]|e] eqn:Ec;
        [|right; eauto].
      specialize (IH (copied ++ [(resolveFrom repoRoot (from asset),
                                  resolveFrom repoRoot (to asset))])%list missing).
      destruct (copyEach repoRoot access mkdir copyFile rest _ _) as [[c m]|e];
        [|exact IH].
      destruct IH as [-> ->]. cbn [map]. rewrite <- app_assoc. split; reflexivity.
    + specialize (IH copied (missing ++ [resolveFrom repoRoot (from asset)])%list).
      destruct (copyEach repoRoot access mkdir copyFile rest _ _) as [[c m]|e];
        [|exact IH].
      destruct IH as [-> ->]. cbn [map]. rewrite <- app_assoc. split; reflexivity.
Qed.

Lemma filter_negb_none {A : Type} (p : A -> bool) (l : list A) :
  List.length (filter (fun a => negb (p a)) l) = 0%nat <-> forallb p l = true.
Proof.
  induction l as [|a l IH]; cbn [filter forallb]; [split; reflexivity|].
  destruct (p a); cbn [negb andb List.length]; [exact IH|].
  split; discriminate.
Qed.

Lemma removelast_under (root parts : Path) :
  parts <> [] -> removelast (root ++ parts)%list = (root ++ removelast parts)%list.
Proof. apply removelast_app. Qed.

Lemma last_under (root parts : Path) :
  parts <> [] -> last (root ++ parts)%list ""%string = last parts ""%string.
Proof.
  intro H. induction root as [|r root IH]; [reflexivity|].
  cbn [app last]. destruct (root ++ parts)%list eqn:E; [|exact IH].
  destruct root; [cbn in E; congruence|discriminate].
Qed.

(** Distinct destinations stay distinct under the root, whichever assets
    are kept. *)
Lemma destinations_distinct (root : Path) (keep : Asset -> bool)
      (assets : list Asset) :
  NoDup (map to assets) ->
  NoDup (map (fun a => resolveFrom root (to a)) (filter keep assets)).
Proof.
  intro Hnd. induction assets as [|a assets IH]; cbn [filter map]; [constructor|].
  cbn [map] in Hnd. apply NoDup_cons_iff in Hnd. destruct Hnd as [Hn Hd].
  destruct (keep a); [|exact (IH Hd)].
  cbn [map]. apply NoDup_cons; [|exact (IH Hd)].
  intro Hin. apply Hn. apply in_map_iff in Hin. destruct Hin as (x & Hx & Hf).
  apply app_inv_head in Hx. apply filter_In in Hf.
  apply in_map_iff. exists x. split; [exact Hx|apply Hf].
Qed.

End CopyFacts.

(** X20.  What a run of the copy script leaves, whatever the file system
    does.  If no [mkdir] and no [copyFile] fails, every asset whose
    source can be read is copied and every other one is reported
    missing, both in the order of the table, and a missing asset stops
    nothing; the exit code is set to 1 exactly when some source cannot
    be read; every copy lands directly in [extension/lib] under the name
    of its source; and no two copies share a destination.  Otherwise the
    run ends with the error of that [mkdir] or [copyFile]. *)
Theorem assets_copied_or_reported
        (repoRoot : CopyAssets.Path) (access : CopyAssets.Path -> bool)
        (mkdir : CopyAssets.Path -> Background.Result unit)
        (copyFile : CopyAssets.Path -> CopyAssets.Path -> Background.Result unit) :
  match CopyAssets.main repoRoot access mkdir copyFile with
  | Background.Ok report =>
      CopyAssets.copied report
      = map (fun a => (CopyAssets.resolveFrom repoRoot (CopyAssets.from a),
                       CopyAssets.resolveFrom repoRoot (CopyAssets.to a)))
            (filter (CopyAssets.present repoRoot access) CopyAssets.ASSETS)
      /\ CopyAssets.missing report
         = map (fun a => CopyAssets.resolveFrom repoRoot (CopyAssets.from a))
               (filter (fun a => negb (CopyAssets.present repoRoot access a))
                       CopyAssets.ASSETS)
      /\ CopyAssets.exitCode report
         = (if forallb (CopyAssets.present repoRoot access) CopyAssets.ASSETS
            then 0%nat else 1%nat)
      /\ Forall (fun sd =>
                   CopyAssets.dirname (snd sd) = CopyAssets.extensionLibDir repoRoot
                   /\ last (snd sd) ""%string = last (fst sd) ""%string)
                (CopyAssets.copied report)
      /\ NoDup (map snd (CopyAssets.copied report))
  | Background.Throw e =>
      (exists p, mkdir p = Background.Throw e)
      \/ (exists s d, copyFile s d = Background.Throw e)
  end.
Proof.
  unfold CopyAssets.main.
  destruct (mkdir (CopyAssets.extensionLibDir repoRoot)) as [[]|e] eqn:Em;
    [|left; eauto].
  pose proof (copyEach_spec repoRoot access mkdir copyFile CopyAssets.ASSETS [] [])
    as H.
  destruct (CopyAssets.copyEach repoRoot access mkdir copyFile CopyAssets.ASSETS [] [])
    as [[c m]|e]; [|exact H].
  destruct H as [Hc Hm]. cbn [app] in Hc, Hm.
  cbn [CopyAssets.copied CopyAssets.missing CopyAssets.exitCode].
  split; [exact Hc|]. split; [exact Hm|]. split; [|split].
  - rewrite Hm, length_map.
    destruct (forallb (CopyAssets.present repoRoot access) CopyAssets.ASSETS) eqn:Ef.
    + apply filter_negb_none in Ef. rewrite Ef. reflexivity.
    + destruct (List.length
                  (filter (fun a => negb (CopyAssets.present repoRoot access a))
                          CopyAssets.ASSETS)) eqn:El; [|reflexivity].
      apply filter_negb_none in El. congruence.
  - rewrite Hc. apply Forall_forall. intros [s d] Hin.
    apply in_map_iff in Hin. destruct Hin as (a & [= <- <-] & Ha).
    apply filter_In in Ha. destruct Ha as [Ha _]. cbn [fst snd].
    assert (Hall : Forall (fun a =>
                             CopyAssets.to a <> []
                             /\ CopyAssets.from a <> []
                             /\ removelast (CopyAssets.to a) = ["extension"; "lib"]%string
                             /\ last (CopyAssets.to a) ""%string
                                = last (CopyAssets.from a) ""%string)
                          CopyAssets.ASSETS).
    { repeat constructor; discriminate. }
    rewrite Forall_forall in Hall. destruct (Hall a Ha) as (Ht & Hf & Hd & Hl).
    unfold CopyAssets.dirname, CopyAssets.resolveFrom, CopyAssets.extensionLibDir.
    rewrite (removelast_under _ _ Ht), Hd, !last_under by assumption.
    split; [reflexivity|exact Hl].
  - rewrite Hc, map_map. cbn [snd].
    apply destinations_distinct.
    repeat constructor; cbn [In map CopyAssets.to CopyAssets.ASSETS];
      intuition discriminate.
Qed.

(** ** Compressing the image *)

Section CompressFacts.
Import Background Compress.

Lemma ladder_rungs :
  ladder
  = [0.9; 0.80000000000000004; 0.70000000000000007; 0.60000000000000009;
     0.50000000000000011; 0.40000000000000013; 0.30000000000000016;
     0.20000000000000015; 0.10000000000000014; 0x1.4p-53]%float.
Proof. vm_compute. reflexivity. Qed.

(** Below a quality of 0.1 the loop is over. *)
Lemma reduce_stop (Blob : Type) (size : Blob -> Z)
      (convertToBlob : Canvas -> float -> Result Blob)
      (fuel : nat) (q : float) (c : Blob) :
  PrimFloat.ltb 0.1 q = false ->
  reduce Blob size convertToBlob fuel q c = ([], Some (Ok c)).
Proof.
  intro H. destruct fuel; cbn [reduce]; rewrite H, andb_false_r; reflexivity.
Qed.

Lemma exists_here {A : Type} (P : A -> Prop) (x : A) (l : list A) :
  P x -> exists e, In e (x :: l) /\ P e.
Proof. intro H. exists x. split; [left; reflexivity|exact H]. Qed.

Lemma exists_later {A : Type} (P : A -> Prop) (x : A) (l : list A) :
  (exists e, In e l /\ P e) -> exists e, In e (x :: l) /\ P e.
Proof. intros (e & Hin & H). exists e. split; [right; exact Hin|exact H]. Qed.

End CompressFacts.

(** Evaluates the float operations of the goal. *)
Ltac float_eval :=
  repeat match goal with
         | |- context [PrimFloat.sub ?a ?b] =>
             let v := eval vm_compute in (PrimFloat.sub a b) in
             change (PrimFloat.sub a b) with v
         | |- context [PrimFloat.ltb ?a ?b] =>
             let v := eval vm_compute in (PrimFloat.ltb a b) in
             change (PrimFloat.ltb a b) with v
         end.

(** One round of the loop, or its end. *)
Ltac loop_round convertToBlob :=
  match goal with |- context [Compress.reduce] => idtac end;
  cbn [Compress.reduce Nat.add]; float_eval;
  match goal with
  | |- context [(Compress.MAX_SIZE <? ?s)%Z] =>
      let E := fresh "Esize" in
      destruct (Compress.MAX_SIZE <? s)%Z eqn:E; cbn [andb]
  end;
  try match goal with
      | |- context [convertToBlob Compress.Full ?q] =>
          let E := fresh "Eenc" in
          destruct (convertToBlob Compress.Full q) as [?c|?e] eqn:E
      end.

(** X21.  [compressImage] in binary64 arithmetic, whatever the encoder
    answers: nine rounds of the loop always suffice; a blob of at most
    1 MiB is returned as it is, nothing encoded; otherwise the full-size
    canvas is encoded at the qualities of the ladder, from 0.9 down, as
    far as needed and at most all ten of them, the tenth being
    1.25 * 2^-53 and not 0.1, since nine subtractions of 0.1 from 0.9
    leave a little more than 0.1; the resized canvas is encoded, at 0.7,
    only after all ten, and its blob is returned unchecked, so a result
    above 1 MiB is the resized one; an error is the one of
    [createImageBitmap] or of an encoding made. *)
Theorem compression_ladder
        (Blob : Type) (size : Blob -> Z)
        (createImageBitmap : Blob -> Background.Result (Z * Z))
        (convertToBlob : Compress.Canvas -> float -> Background.Result Blob)
        (floorScaled : Z -> Z -> Z) (blob : Blob) (extra : nat) :
  let out :=
    Compress.compressImage Blob size createImageBitmap convertToBlob floorScaled
                           (9 + extra) blob in
  exists r,
    snd out = Some r
    /\ ((size blob <= Compress.MAX_SIZE)%Z -> out = ([], Some (Background.Ok blob)))
    /\ (exists rest,
           Compress.ladder
           = (map Compress.quality (filter Compress.isFull (fst out)) ++ rest)%list)
    /\ last Compress.ladder 0%float = 0x1.4p-53%float
    /\ (forall e, In e (fst out) -> Compress.isFull e = false ->
                  map Compress.quality (filter Compress.isFull (fst out))
                  = Compress.ladder
                  /\ Compress.quality e = 0.7%float
                  /\ r = convertToBlob (Compress.canvas e) 0.7%float)
    /\ match r with
       | Background.Ok result =>
           (Compress.MAX_SIZE < size result)%Z ->
           exists e, In e (fst out) /\ Compress.isFull e = false
       | Background.Throw e =>
           createImageBitmap blob = Background.Throw e
           \/ exists enc, In enc (fst out)
                          /\ convertToBlob (Compress.canvas enc) (Compress.quality enc)
                             = Background.Throw e
       end.
Proof.
  intro out. subst out. unfold Compress.compressImage.
  rewrite ladder_rungs.
  destruct (size blob <=? Compress.MAX_SIZE)%Z eqn:Eblob.
  - apply Z.leb_le in Eblob.
    eexists. split; [reflexivity|]. split; [reflexivity|].
    split; [eexists; reflexivity|]. split; [reflexivity|].
    split; [intros e []|]. intro H. lia.
  - apply Z.leb_gt in Eblob.
    destruct (createImageBitmap blob) as [[width height]|e] eqn:Ebitmap.
    2:{ eexists. split; [reflexivity|]. split; [intro; lia|].
        split; [eexists; reflexivity|]. split; [reflexivity|].
        split; [intros ? []|]. left. reflexivity. }
    destruct (convertToBlob Compress.Full 0.9%float) as [c|e] eqn:Efirst.
    2:{ eexists. split; [reflexivity|]. split; [intro; lia|].
        split; [eexists; reflexivity|]. split; [reflexivity|].
        split.
        - intros ? [<-|[]] H; discriminate H.
        - right. eexists. split; [left; reflexivity|exact Efirst]. }
    do 9 (try loop_round convertToBlob).
    all: rewrite ?reduce_stop by (vm_compute; reflexivity).
    all: cbn [fst snd app].
    all: repeat match goal with
                | H : (Compress.MAX_SIZE <? ?s)%Z = _
                  |- context [(Compress.MAX_SIZE <? ?s)%Z] => rewrite H
                end.
    all: try match goal with
             | |- context [(Compress.MAX_SIZE <? ?s)%Z] =>
                 destruct (Compress.MAX_SIZE <? s)%Z eqn:Elast
             end.
    all: cbn [fst snd app].
    all: eexists; (split; [reflexivity|]); (split; [intro; lia|]).
    all: cbn [filter map Compress.isFull Compress.canvas Compress.quality fst snd app].
    all: (split; [eexists; reflexivity|]); (split; [reflexivity|]).
    all: split.
    all: try (intros x Hin Hx;
              repeat (destruct Hin as [<-|Hin]; [try discriminate Hx|]);
              try contradiction;
              repeat split; reflexivity).
    all: cbn beta iota.
    all: try match goal with
             | |- match ?r with _ => _ end => destruct r eqn:Eresized
             end.
    all: try (intro Hbig; apply Z.ltb_lt in Hbig; congruence).
    all: try (intro Hbig;
              repeat first [apply exists_here; reflexivity|apply exists_later]).
    all: right;
      repeat first [apply exists_here; cbn [Compress.canvas Compress.quality];
                    eassumption
                   |apply exists_later].
Qed.

(** ** The remote variant: the whole pipeline *)

Section RemotePipelineFacts.
Import Background RemoteBackground RemotePipeline.

Variable world : World.
Variable notIterable : string.

Lemma remote_direct_tier (b : Browser) :
  trace (fst (RemotePipeline.fetchDirect world b))
  = (trace b ++ [Tried Direct])%list.
Proof.
  unfold RemotePipeline.fetchDirect, bind, emit, await, throw.
  cbn [fst snd trace].
  destruct (directFetch (network world)) as [response|e]; cbn [fst trace];
    [|reflexivity].
  destruct (negb (ok response)); cbn [fst trace]; [reflexivity|].
  destruct (blob response); reflexivity.
Qed.

(** The fetch leaves nothing but the tiers it tried. *)
Lemma remote_fetch_trace (src pageUrl : string) (tabId : nat) (b : Browser) :
  exists tiers,
    trace (fst (RemotePipeline.fetchImage world src pageUrl tabId b))
    = (trace b ++ map Tried tiers)%list.
Proof.
  unfold RemotePipeline.fetchImage, tryCatch.
  pose proof (first_tier_trace (network world) src pageUrl b) as H1.
  destruct (Background.fetchImageWithReferrer (network world) src pageUrl b)
    as [b1 [bl|e1]]; cbn [fst] in *.
  - exists [ReferrerSpoofed]. exact H1.
  - pose proof (remote_direct_tier b1) as H2.
    destruct (RemotePipeline.fetchDirect world b1) as [b2 [bl|e2]]; cbn [fst] in *.
    + exists [ReferrerSpoofed; Direct]. rewrite H2, H1, <- app_assoc. reflexivity.
    + rewrite (relayed_tier (network world) tabId src b2). cbn [fst trace].
      exists [ReferrerSpoofed; Direct; Relayed].
      rewrite H2, H1, <- !app_assoc. reflexivity.
Qed.

Lemma batches_tiers (tiers : list Tier) : batches (map Tried tiers) = [].
Proof. induction tiers as [|t tiers IH]; [reflexivity|exact IH]. Qed.

Lemma batches_app (xs ys : list Event) :
  batches (xs ++ ys) = (batches xs ++ batches ys)%list.
Proof. unfold batches. apply flat_map_app. Qed.

Lemma block_texts (lines : list OverlayLine) :
  map text (blocksOfLines lines) = map LineText (filter hasWords lines).
Proof.
  induction lines as [|line lines IH]; cbn [blocksOfLines filter map];
    [reflexivity|].
  unfold hasWords at 1.
  destruct (Words line) as [[|w ws]|]; try exact IH.
  cbn [map text]. rewrite IH. reflexivity.
Qed.

End RemotePipelineFacts.

(** X22.  The pipeline of the remote variant never throws: whatever the
    network and the services do, it returns an object, of one of three
    kinds.  Without text (no parsed result, no overlay, or no line with
    words) it is [{ success: true, blocks: [], imgWidth: 0, imgHeight: 0 }]
    and the translation service has not been called.  With text, the
    service has been called once, with the texts of the lines that have
    words, in order, and the object names the image and carries one
    block per such line, with the line's text as [original] and the
    line's box.  Otherwise it is [{ success: false, error }]. *)
Theorem remote_pipeline_always_answers
        (world : RemotePipeline.World) (notIterable : string)
        (msg : Background.Message) (tabId : nat) (b : Background.Browser) :
  let run := RemotePipeline.handleImagePipeline world notIterable msg tabId b in
  exists result,
    snd run = Background.Ok result
    /\ ((result = RemotePipeline.noText
         /\ RemotePipeline.batches (appended b (fst run)) = [])
        \/ (exists e, result = RemotePipeline.failure e)
        \/ (exists answer lines translated,
               RemotePipeline.ocrService world = Background.Ok answer
               /\ RemotePipeline.linesOf answer = Some lines
               /\ RemotePipeline.success result = true
               /\ RemotePipeline.error result = None
               /\ RemotePipeline.originalSrc result = Some (Background.src msg)
               /\ RemotePipeline.blocks result = Some translated
               /\ translated <> []
               /\ map RemoteBackground.t_original translated
                  = map RemoteBackground.LineText (filter hasWords lines)
               /\ map RemoteBackground.t_bbox translated
                  = map RemoteBackground.bbox (RemoteBackground.blocksOfLines lines)
               /\ RemotePipeline.batches (appended b (fst run))
                  = [map RemoteBackground.LineText (filter hasWords lines)])).
Proof.
  intro run.
  assert (Hrun : RemotePipeline.handleImagePipeline world notIterable msg tabId b
                 = run) by reflexivity.
  clearbody run. revert Hrun.
  unfold RemotePipeline.handleImagePipeline, Background.tryCatch, Background.bind
    at 1.
  destruct (remote_fetch_trace world (Background.src msg) (Background.pageUrl msg)
              tabId b) as [tiers Htrace].
  destruct (RemotePipeline.fetchImage world (Background.src msg)
              (Background.pageUrl msg) tabId b) as [b1 [blob|e]]; cbn [fst] in Htrace.
  2:{ intros <-. eexists. split; [reflexivity|]. right. left. eexists. reflexivity. }
  assert (Hquiet : RemotePipeline.batches (appended b b1) = []).
  { rewrite (appended_app b b1 _ Htrace). apply batches_tiers. }
  unfold RemotePipeline.callOcrApi, RemotePipeline.callDeepLApi,
    Background.bind, Background.await, Background.ret, Background.throw,
    Background.emit.
  destruct (RemotePipeline.compressImage world blob) as [blob'|e];
    [|intros <-; eexists; split; [reflexivity|]; right; left; eexists; reflexivity].
  destruct (RemotePipeline.blobToBase64 world blob') as [base64|e];
    [|intros <-; eexists; split; [reflexivity|]; right; left; eexists; reflexivity].
  destruct (RemotePipeline.ocrService world) as [answer|e] eqn:Eocr;
    [|intros <-; eexists; split; [reflexivity|]; right; left; eexists; reflexivity].
  destruct (RemotePipeline.IsErroredOnProcessing answer);
    [intros <-; eexists; split; [reflexivity|]; right; left; eexists; reflexivity|].
  destruct (RemotePipeline.ParsedResults answer) as [[[[[lines|]]|]]|] eqn:Eparsed;
    cbn [RemotePipeline.TextOverlay RemotePipeline.Lines].
  2:{ intros <-; eexists; split; [reflexivity|]; right; left; eexists; reflexivity. }
  2:{ intros <-. eexists. split; [reflexivity|]. left. split; [reflexivity|exact Hquiet]. }
  2:{ intros <-. eexists. split; [reflexivity|]. left. split; [reflexivity|exact Hquiet]. }
  assert (Hlines : RemotePipeline.linesOf answer = Some lines)
    by (unfold RemotePipeline.linesOf; rewrite Eparsed; reflexivity).
  destruct (RemoteBackground.blocksOfLines lines) as [|block rest] eqn:Eblocks.
  { intros <-. eexists. split; [reflexivity|]. left.
    split; [reflexivity|exact Hquiet]. }
  cbn [List.length Nat.eqb fst snd Background.trace].
  pose proof (block_texts lines) as Htexts. rewrite Eblocks in Htexts.
  destruct (RemotePipeline.translationService world
              (map RemoteBackground.text (block :: rest))) as [response|e];
    [|intros <-; eexists; split; [reflexivity|]; right; left; eexists; reflexivity].
  destruct (negb (RemotePipeline.d_ok response));
    [intros <-; eexists; split; [reflexivity|]; right; left; eexists; reflexivity|].
  destruct (RemotePipeline.d_json response) as [[translations|]|e];
    try (intros <-; eexists; split; [reflexivity|]; right; left; eexists; reflexivity).
  destruct (Nat.eqb_spec (List.length translations) (S (List.length rest)))
    as [El|Hl]; cbn [negb];
    [|intros <-; eexists; split; [reflexivity|]; right; left; eexists; reflexivity].
  destruct (RemotePipeline.createImageBitmap world blob') as [bitmap|e];
    [|intros <-; eexists; split; [reflexivity|]; right; left; eexists; reflexivity].
  intros <-. eexists. split; [reflexivity|]. right. right.
  exists answer, lines, (RemoteBackground.pair (block :: rest) translations).
  destruct (pair_fields (block :: rest) translations El) as (E1 & E2 & _).
  cbn [fst snd RemotePipeline.success RemotePipeline.error
         RemotePipeline.originalSrc RemotePipeline.blocks].
  repeat split; try reflexivity; try assumption.
  - destruct translations as [|t ts]; [discriminate El|]. discriminate.
  - rewrite E1. exact Htexts.
  - rewrite Eblocks. exact E2.
  - rewrite <- Htexts.
    rewrite (appended_app b _ (map Background.Tried tiers
                               ++ [Background.TranslatedBatch
                                     (map RemoteBackground.text (block :: rest))])).
    + rewrite batches_app, batches_tiers. reflexivity.
    + cbn [Background.trace]. rewrite Htrace, <- app_assoc. reflexivity.
Qed.
